(** * Social-network graph store and analytics: model and properties

    A shallow embedding of [social_network.py] (class [SocialNetwork]) and
    [analytics.py] (class [NetworkAnalytics]).  Both classes are thin layers
    over networkx, so the containers [DiGraph] and [Graph] and the simple
    routines the two classes call ([to_undirected], [connected_components],
    [is_connected], [degree_centrality], the generator [girvan_newman]) are
    modelled first, in module [nx], after the behaviour networkx documents.
    Closeness and betweenness centrality follow the source of networkx (the
    level-by-level search of shortest path lengths; Brandes' search and
    accumulation).  The other numerical routines (eigenvector centrality,
    the choice of the edge [girvan_newman] removes, the greedy,
    label-propagation and louvain community algorithms) are parameters of
    the definitions that call them; a statement that depends on what they
    return says so in a hypothesis.  [get_centrality_measures] takes the
    three centrality routines as arguments, so that what holds of any
    routine is stated once; the ranges of the scores are stated of
    [nx.betweenness_centrality] and [nx.closeness_centrality].

    Conventions.
    - A Python [dict] is a [gmap] and a [set] is a [gset]; iterating over
      one enumerates [map_to_list] or [elements].  Python iterates over a
      dict in insertion order and over a set of strings in an order that
      depends on the hash seed; a statement below either does not depend
      on an iteration order or is stated relative to it (the order of
      [G.nodes()] for the list [search_users] returns).
    - A Python [float] is the rational [Q] it denotes.  Where the code
      of the two classes combines floats (the influence score, the
      percentage of the largest component) every operation is the exact
      one followed by rounding to binary64, [fl].  The scores computed
      inside networkx (degree, closeness, betweenness, density) and the
      densities of [get_community_metrics] are kept exact; what is
      proved of them are bounds.
    - [random.random()] is a stream [rand] of values; the [i]-th call
      returns [rand i].
    - A call that may raise returns a [result]; a method of
      [SocialNetwork] is a function from the object to its outcome and
      the object afterwards. *)

From Stdlib Require Import QArith Qabs Qround Qpower Lqa.
From stdpp Require Import gmap strings list fin_maps sorting pretty.

(* [set_solver] clears hypotheses it has already consumed. *)
#[global] Set Warnings "-clear-no-such-hyp".

(** ** Python values, exceptions *)

Inductive pyval : Type :=
  | PNone
  | PInt (z : Z)
  | PStr (s : string).

Abbreviation attrs := (gmap string pyval).

Inductive exn : Type :=
  | ValueError (msg : string)
  | TypeError
  | KeyError (key : string)
  | StopIteration
  | ImportError
  | NetworkXError (msg : string)
  | NetworkXPointlessConcept (msg : string)
  | PowerIterationFailedConvergence
  | OutOfFuel.
    (* [TypeError] carries no message: its text depends on the Python
       version.  [OutOfFuel] is not a Python exception: a loop of the model
       that is bounded by a step count returns it when the count runs out,
       which is shown not to happen. *)

Inductive result (A : Type) : Type :=
  | Ok (a : A)
  | Raise (e : exn).
Arguments Ok {A} a.
Arguments Raise {A} e.

#[global] Instance result_ret : MRet result := λ A a, Ok a.
#[global] Instance result_bind : MBind result := λ A B k r,
  match r with
  | Ok a => k a
  | Raise e => Raise e
  end.

(** [for x in xs: acc = body(acc, x)], where the body may raise. *)
Fixpoint for_each {A S} (body : S → A → result S) (xs : list A) (acc : S)
  : result S :=
  match xs with
  | [] => Ok acc
  | x :: xs' => acc' ← body acc x; for_each body xs' acc'
  end.

(** Keys of a dict, in the order iteration visits them. *)
Definition keys {V} (m : gmap string V) : list string := (map_to_list m).*1.

(** ** networkx: the directed graph container *)

Module nx.

(** [DiGraph] keeps three dict-of-dicts: node attributes, successors with
    edge attributes, and predecessors with edge attributes. *)
Record DiGraph : Type := {
  g_node : gmap string attrs;
  g_succ : gmap string (gmap string attrs);
  g_pred : gmap string (gmap string attrs)
}.

(** [nx.DiGraph()] *)
Definition empty : DiGraph :=
  {| g_node := ∅; g_succ := ∅; g_pred := ∅ |}.

(** [n in G] *)
Definition contains (G : DiGraph) (n : string) : bool :=
  bool_decide (is_Some (g_node G !! n)).

(** [G.nodes()] and [len(G)] *)
Definition nodes (G : DiGraph) : list string := keys (g_node G).
Definition len (G : DiGraph) : nat := size (g_node G).

(** A call [f(a, **attr)] passes the items of the dict [attr] as keyword
    arguments.  When a key of [attr] is the name of a parameter that the
    call already fills positionally, Python raises [TypeError] (got
    multiple values for argument ...) before the body of [f] runs.  The
    methods called this way are [add_node(self, node_for_adding, **attr)]
    and [add_edge(self, u_of_edge, v_of_edge, **attr)]. *)
Definition keyword_clash (parameters : list string) (attr : attrs) : bool :=
  existsb (λ p, bool_decide (is_Some (attr !! p))) parameters.
Definition add_node_parameters : list string := ["self"; "node_for_adding"].
Definition add_edge_parameters : list string :=
  ["self"; "u_of_edge"; "v_of_edge"].

(** [G.add_node(n, **attr)]:
    [[
      if n not in self._succ:
          self._succ[n] = {}; self._pred[n] = {}
          attr_dict = self._node[n] = {}
          attr_dict.update(attr)
      else:  # update attr even if node already exists
          self._node[n].update(attr)
    ]]
    A new node gets [attr]; an existing node has its attribute dict updated
    with [attr]: the keys of [attr] are set, the other keys stay.  (The
    three dicts have the same keys, so the test is made on [_node] here.) *)
Definition add_node (n : string) (attr : attrs) (G : DiGraph) : DiGraph :=
  match g_node G !! n with
  | None =>
      {| g_node := <[n := attr ∪ ∅]> (g_node G);
         g_succ := <[n := ∅]> (g_succ G);
         g_pred := <[n := ∅]> (g_pred G) |}
  | Some old =>
      {| g_node := <[n := attr ∪ old]> (g_node G);
         g_succ := g_succ G;
         g_pred := g_pred G |}
  end.

(** The implicit node creation at the head of [add_edge]. *)
Definition ensure_node (n : string) (G : DiGraph) : DiGraph :=
  match g_succ G !! n with
  | Some _ => G
  | None =>
      {| g_node := <[n := ∅]> (g_node G);
         g_succ := <[n := ∅]> (g_succ G);
         g_pred := <[n := ∅]> (g_pred G) |}
  end.

(** [G.add_edge(u, v, **attr)]: the edge's data dict (the existing one, or
    a fresh one) is updated with [attr] and stored under both
    [_succ[u][v]] and [_pred[v][u]]. *)
Definition add_edge (u v : string) (attr : attrs) (G : DiGraph) : DiGraph :=
  let G1 := ensure_node v (ensure_node u G) in
  let datadict := attr ∪ default ∅ (g_succ G1 !! u ≫= (.!! v)) in
  {| g_node := g_node G1;
     g_succ := alter (insert v datadict) u (g_succ G1);
     g_pred := alter (insert u datadict) v (g_pred G1) |}.

(** [G.has_edge(u, v)] *)
Definition has_edge (G : DiGraph) (u v : string) : bool :=
  match g_succ G !! u with
  | Some nbrs => bool_decide (is_Some (nbrs !! v))
  | None => false
  end.

(** [G.successors(n)] (also [G.neighbors(n)] on a [DiGraph]). *)
Definition successors (G : DiGraph) (n : string) : result (list string) :=
  match g_succ G !! n with
  | Some nbrs => Ok (keys nbrs)
  | None => Raise (NetworkXError ("The node " +:+ n +:+ " is not in the digraph."))
  end.

(** [G.remove_node(n)] *)
Definition remove_node (n : string) (G : DiGraph) : result DiGraph :=
  match g_succ G !! n with
  | None => Raise (NetworkXError ("The node " +:+ n +:+ " is not in the digraph."))
  | Some nbrs =>
      let pred1 := foldr (λ u, alter (delete n) u) (g_pred G) (keys nbrs) in
      let succ1 := delete n (g_succ G) in
      let succ2 := foldr (λ u, alter (delete n) u) succ1
                         (keys (default ∅ (pred1 !! n))) in
      Ok {| g_node := delete n (g_node G);
            g_succ := succ2;
            g_pred := delete n pred1 |}
  end.

(** [G.remove_edge(u, v)] *)
Definition remove_edge (u v : string) (G : DiGraph) : result DiGraph :=
  if has_edge G u v then
    Ok {| g_node := g_node G;
          g_succ := alter (delete v) u (g_succ G);
          g_pred := alter (delete u) v (g_pred G) |}
  else Raise (NetworkXError ("The edge " +:+ u +:+ "-" +:+ v +:+ " not in graph.")).

(** [G.out_degree(n)], [G.in_degree(n)], [G.degree(n)]: on a [DiGraph] the
    degree is the sum of both, so a self-loop counts twice. *)
Definition out_degree (G : DiGraph) (n : string) : nat :=
  size (default ∅ (g_succ G !! n)).
Definition in_degree (G : DiGraph) (n : string) : nat :=
  size (default ∅ (g_pred G !! n)).
Definition degree (G : DiGraph) (n : string) : nat :=
  in_degree G n + out_degree G n.

(** [adjacent m a b]: the dict-of-dicts [m] has the entry [m[a][b]]. *)
Definition adjacent (m : gmap string (gmap string attrs)) (a b : string)
  : Prop :=
  ∃ nbrs, m !! a = Some nbrs ∧ is_Some (nbrs !! b).

(** The edge relation [u → v], read from [_succ] and from [_pred]. *)
Definition edge (G : DiGraph) (u v : string) : Prop :=
  adjacent (g_succ G) u v.
Definition pedge (G : DiGraph) (u v : string) : Prop :=
  adjacent (g_pred G) v u.

(** The container's representation invariant: the three dicts have the
    same keys and [_pred] mirrors [_succ]. *)
Record wf (G : DiGraph) : Prop := {
  wf_succ_dom : dom (g_succ G) = dom (g_node G);
  wf_pred_dom : dom (g_pred G) = dom (g_node G);
  wf_mirror : ∀ u v, edge G u v ↔ pedge G u v
}.

(** *** The undirected container [nx.Graph] *)

Record Graph : Type := {
  u_node : gmap string attrs;
  u_adj : gmap string (gmap string attrs)
}.

Definition u_empty : Graph := {| u_node := ∅; u_adj := ∅ |}.

Definition u_len (G : Graph) : nat := size (u_node G).

Definition u_add_node (n : string) (attr : attrs) (G : Graph) : Graph :=
  match u_node G !! n with
  | None => {| u_node := <[n := attr ∪ ∅]> (u_node G);
               u_adj := <[n := ∅]> (u_adj G) |}
  | Some old => {| u_node := <[n := attr ∪ old]> (u_node G);
                   u_adj := u_adj G |}
  end.

Definition u_ensure_node (n : string) (G : Graph) : Graph :=
  match u_node G !! n with
  | Some _ => G
  | None => {| u_node := <[n := ∅]> (u_node G);
               u_adj := <[n := ∅]> (u_adj G) |}
  end.

(** [Graph.add_edge]: the data dict is stored under [_adj[u][v]] and
    [_adj[v][u]]. *)
Definition u_add_edge (u v : string) (attr : attrs) (G : Graph) : Graph :=
  let G1 := u_ensure_node v (u_ensure_node u G) in
  let datadict := attr ∪ default ∅ (u_adj G1 !! u ≫= (.!! v)) in
  {| u_node := u_node G1;
     u_adj := alter (insert u datadict) v
                (alter (insert v datadict) u (u_adj G1)) |}.

(** [Graph.remove_edge] *)
Definition u_remove_edge (u v : string) (G : Graph) : result Graph :=
  match u_adj G !! u with
  | Some nbrs =>
      if decide (is_Some (nbrs !! v)) then
        Ok {| u_node := u_node G;
              u_adj := alter (delete u) v (alter (delete v) u (u_adj G)) |}
      else Raise (NetworkXError ("The edge " +:+ u +:+ "-" +:+ v +:+ " is not in the graph"))
  | None => Raise (NetworkXError ("The edge " +:+ u +:+ "-" +:+ v +:+ " is not in the graph"))
  end.

(** [G.edges(data=True)] of a [DiGraph]. *)
Definition edges (G : DiGraph) : list (string * string * attrs) :=
  '(u, nbrs) ← map_to_list (g_succ G);
  '(v, d) ← map_to_list nbrs;
  [(u, v, d)].

(** [DiGraph.to_undirected()]: a fresh [Graph] receiving every node with
    its attributes and then every directed edge with its attributes. *)
Definition to_undirected (G : DiGraph) : Graph :=
  let G0 := foldl (λ acc nd, u_add_node nd.1 nd.2 acc) u_empty
                  (map_to_list (g_node G)) in
  foldl (λ acc e, u_add_edge e.1.1 e.1.2 e.2 acc) G0 (edges G).

(** [Graph.degree]: a self-loop counts twice; [Graph.number_of_edges] is
    half the degree sum. *)
Definition u_degree (G : Graph) (n : string) : nat :=
  let nbrs := default ∅ (u_adj G !! n) in
  size nbrs + (if decide (is_Some (nbrs !! n)) then 1 else 0).
Definition u_number_of_edges (G : Graph) : nat :=
  sum_list (u_degree G <$> keys (u_node G)) `div` 2.

(** The ordered pairs [(u, v)] with [v] in [_adj[u]]. *)
Definition u_edge_set (G : Graph) : gset (string * string) :=
  list_to_set ('(u, nbrs) ← map_to_list (u_adj G); v ← keys nbrs; [(u, v)]).

(** The representation invariant of [Graph]: both dicts have the same keys
    and the adjacency is symmetric. *)
Record u_wf (G : Graph) : Prop := {
  u_wf_dom : dom (u_adj G) = dom (u_node G);
  u_wf_sym : ∀ a b, adjacent (u_adj G) a b → adjacent (u_adj G) b a
}.

(** [b] can be reached from [a] by walking along adjacent nodes. *)
Definition connected (G : Graph) (a b : string) : Prop :=
  rtc (adjacent (u_adj G)) a b.

(** [c] is a connected component: the set of nodes connected to some node
    of the graph. *)
Definition component (G : Graph) (c : gset string) : Prop :=
  ∃ v, v ∈ dom (u_node G) ∧ ∀ x, x ∈ c ↔ connected G v x.

(** [nx.selfloop_edges] and [G.remove_edges_from(nx.selfloop_edges(G))]. *)
Definition u_remove_selfloops (G : Graph) : Graph :=
  {| u_node := u_node G;
     u_adj := map_imap (λ n nbrs, Some (delete n nbrs)) (u_adj G) |}.

(** [_plain_bfs(G, source)]: the set of nodes reachable from [source],
    level by level:
    [[
      seen = set(); nextlevel = {source}
      while nextlevel:
          thislevel = nextlevel; nextlevel = set()
          for v in thislevel:
              if v not in seen:
                  seen.add(v); nextlevel.update(G_adj[v])
      return seen
    ]]
    Every pass of the [while] loop but the last adds a node to [seen], so
    [S (len G)] passes are enough. *)
Definition bfs_visit (G : Graph) (st : gset string * gset string) (v : string)
  : gset string * gset string :=
  if decide (v ∈ st.1) then st
  else ({[v]} ∪ st.1, st.2 ∪ dom (default ∅ (u_adj G !! v))).

Fixpoint bfs_levels (fuel : nat) (G : Graph) (seen nextlevel : gset string)
  : gset string :=
  match fuel with
  | O => seen
  | S fuel' =>
      if decide (nextlevel = ∅) then seen
      else
        let st := foldl (bfs_visit G) (seen, ∅) (elements nextlevel) in
        bfs_levels fuel' G st.1 st.2
  end.

Definition plain_bfs (G : Graph) (source : string) : gset string :=
  bfs_levels (S (u_len G)) G ∅ {[source]}.

(** [nx.connected_components(G)]:
    [[
      seen = set()
      for v in G:
          if v not in seen:
              c = _plain_bfs(G, v); seen.update(c); yield c
    ]] *)
Definition components_visit (G : Graph)
    (st : gset string * list (gset string)) (v : string)
  : gset string * list (gset string) :=
  if decide (v ∈ st.1) then st
  else let c := plain_bfs G v in (st.1 ∪ c, st.2 ++ [c]).

Definition connected_components (G : Graph) : list (gset string) :=
  (foldl (components_visit G) (∅, []) (keys (u_node G))).2.

Definition number_connected_components (G : Graph) : nat :=
  length (connected_components G).

(** [nx.is_connected(G)]:
    [[
      if len(G) == 0:
          raise nx.NetworkXPointlessConcept(
              "Connectivity is undefined for the null graph.")
      return sum(1 for node in _plain_bfs(G, arbitrary_element(G))) == len(G)
    ]] *)
Definition is_connected (G : Graph) : result bool :=
  match keys (u_node G) with
  | [] => Raise (NetworkXPointlessConcept
                   "Connectivity is undefined for the null graph.")
  | source :: _ => Ok (bool_decide (size (plain_bfs G source) = u_len G))
  end.

(** [nx.degree_centrality(G)]:
    [[
      if len(G) <= 1:
          return {n: 1 for n in G}
      s = 1.0 / (len(G) - 1.0)
      centrality = {n: d * s for n, d in G.degree()}
    ]]
    where the degree of a node of a [DiGraph] is its in-degree plus its
    out-degree. *)
Definition degree_centrality (G : DiGraph) : gmap string Q :=
  if decide (len G ≤ 1) then (λ _, 1%Q) <$> g_node G
  else
    let s := (1 / (inject_Z (Z.of_nat (len G)) - 1))%Q in
    map_imap (λ n _, Some (inject_Z (Z.of_nat (degree G n)) * s)%Q) (g_node G).

(** [nx.algorithms.community.girvan_newman(G)], as far as its first
    [yield]:
    [[
      if G.number_of_edges() == 0:
          yield tuple(nx.connected_components(G))
          return
      ...
      g = G.copy().to_undirected()
      g.remove_edges_from(nx.selfloop_edges(g))
      while g.number_of_edges() > 0:
          yield _without_most_central_edges(g, most_valuable_edge)
    ]]
    The edge to remove is chosen by [most_valuable_edge], by default
    [max(betweenness, key=betweenness.get)] over the edge betweenness of
    the graph; it is a parameter here. *)
Section girvan_newman.
Variable most_valuable_edge : Graph → result (string * string).

(** What is used of [most_valuable_edge]: on a graph with edges it returns
    one of them (it takes the [max] over a dict keyed by the edges). *)
Definition picks_an_edge : Prop :=
  ∀ G, 0 < u_number_of_edges G →
       ∃ e, most_valuable_edge G = Ok e ∧ adjacent (u_adj G) e.1 e.2.

(** [_without_most_central_edges]:
    [[
      original_num_components = nx.number_connected_components(G)
      num_new_components = original_num_components
      while num_new_components <= original_num_components:
          edge = most_valuable_edge(G)
          G.remove_edge(edge[0], edge[1])
          new_components = tuple(nx.connected_components(G))
          num_new_components = len(new_components)
      return new_components
    ]]
    Each pass removes an edge or raises, so the number of adjacent pairs
    bounds the number of passes. *)
Fixpoint without_most_central_edges_loop (fuel : nat) (G : Graph)
    (original_num_components : nat) (new_components : list (gset string))
  : result (list (gset string)) :=
  match fuel with
  | O => Raise OutOfFuel
  | S fuel' =>
      if decide (length new_components ≤ original_num_components) then
        e ← most_valuable_edge G;
        G' ← u_remove_edge e.1 e.2 G;
        without_most_central_edges_loop fuel' G' original_num_components
          (connected_components G')
      else Ok new_components
  end.

Definition without_most_central_edges (G : Graph)
  : result (list (gset string)) :=
  let original_num_components := number_connected_components G in
  without_most_central_edges_loop (S (size (u_edge_set G))) G
    original_num_components (connected_components G).

(** [next(girvan_newman(G))] *)
Definition girvan_newman_next (G : Graph) : result (list (gset string)) :=
  if decide (u_number_of_edges G = 0) then Ok (connected_components G)
  else
    let g := u_remove_selfloops G in
    if decide (0 < u_number_of_edges g) then without_most_central_edges g
    else Raise StopIteration.
End girvan_newman.

(** *** Further container methods *)

(** [G.number_of_edges()]: half the degree sum; on a [DiGraph] every edge
    is counted once as outgoing and once as incoming. *)
Definition number_of_edges (G : DiGraph) : nat :=
  sum_list (degree G <$> nodes G) `div` 2.

(** [nx.density(G)] on a [DiGraph]:
    [[
      n = number_of_nodes(G); m = number_of_edges(G)
      if m == 0 or n <= 1:
          return 0
      d = m / (n * (n - 1))
    ]] *)
Definition density (G : DiGraph) : Q :=
  let n := len G in
  let m := number_of_edges G in
  if decide (m = 0 ∨ n ≤ 1) then 0%Q
  else (inject_Z (Z.of_nat m) / inject_Z (Z.of_nat (n * (n - 1))))%Q.

(** [G.nodes[n][key] = value], for a node [n] of the graph. *)
Definition set_node_attr (n key : string) (value : pyval) (G : DiGraph)
  : DiGraph :=
  {| g_node := alter (insert key value) n (g_node G);
     g_succ := g_succ G;
     g_pred := g_pred G |}.

(** [G.get_edge_data(u, v)]: the data dict of the edge, [None] if there
    is no such edge. *)
Definition get_edge_data (G : DiGraph) (u v : string) : option attrs :=
  g_succ G !! u ≫= (.!! v).

(** [G.neighbors(n)] on a [Graph]. *)
Definition u_neighbors (G : Graph) (n : string) : result (list string) :=
  match u_adj G !! n with
  | Some nbrs => Ok (keys nbrs)
  | None => Raise (NetworkXError ("The node " +:+ n +:+ " is not in the graph."))
  end.

(** [G.subgraph(nbunch)]: the nodes of [nbunch] that are in the graph, and
    the edges of the graph between them. *)
Definition u_subgraph (G : Graph) (nbunch : list string) : Graph :=
  let keep : gset string := list_to_set nbunch in
  {| u_node := filter (λ kv, kv.1 ∈ keep) (u_node G);
     u_adj := filter (λ kv : string * attrs, kv.1 ∈ keep)
                <$> filter (λ kv, kv.1 ∈ keep) (u_adj G) |}.

(** *** Closeness centrality *)

(** [_single_shortest_path_length(adj, firstlevel, cutoff)], the generator
    behind [nx.single_source_shortest_path_length], with no cutoff:
    [[
      seen = set(firstlevel); nextlevel = firstlevel; level = 0
      n = len(adj)
      for v in nextlevel: yield (v, level)
      while nextlevel and cutoff > level:
          level += 1
          thislevel = nextlevel; nextlevel = []
          for v in thislevel:
              for w in adj[v]:
                  if w not in seen:
                      seen.add(w); nextlevel.append(w); yield (w, level)
              if len(seen) == n: return
    ]]
    The state holds [seen], [nextlevel], the dict made of the pairs
    yielded so far, and whether the generator has returned. *)
Record sp_state : Type := {
  sp_seen : gset string;
  sp_nextlevel : list string;
  sp_yielded : gmap string nat;
  sp_returned : bool
}.

Definition sp_discover (level : nat) (st : sp_state) (w : string)
  : sp_state :=
  if decide (w ∈ sp_seen st) then st
  else {| sp_seen := {[w]} ∪ sp_seen st;
          sp_nextlevel := sp_nextlevel st ++ [w];
          sp_yielded := <[w := level]> (sp_yielded st);
          sp_returned := sp_returned st |}.

Definition sp_expand (adj : gmap string (gmap string attrs)) (level : nat)
    (st : sp_state) (v : string) : sp_state :=
  if sp_returned st then st
  else
    let st' := foldl (sp_discover level) st (keys (default ∅ (adj !! v))) in
    if decide (size (sp_seen st') = size adj)
    then {| sp_seen := sp_seen st';
            sp_nextlevel := sp_nextlevel st';
            sp_yielded := sp_yielded st';
            sp_returned := true |}
    else st'.

(** A pass of the [while] loop that finds a node adds it to [seen], so
    [len(adj)] passes are enough. *)
Fixpoint sp_levels (fuel : nat) (adj : gmap string (gmap string attrs))
    (level : nat) (st : sp_state) : result (gmap string nat) :=
  if sp_returned st then Ok (sp_yielded st)
  else
    match sp_nextlevel st with
    | [] => Ok (sp_yielded st)
    | thislevel =>
        match fuel with
        | O => Raise OutOfFuel
        | S fuel' =>
            sp_levels fuel' adj (S level)
              (foldl (sp_expand adj (S level))
                 {| sp_seen := sp_seen st;
                    sp_nextlevel := [];
                    sp_yielded := sp_yielded st;
                    sp_returned := false |}
                 thislevel)
        end
    end.

(** What the loops keep: the nodes seen are those with a distance, they
    are nodes of the graph, the source is at distance 0 and every other
    node seen at distance 1 or more. *)
Definition sp_inv (adj : gmap string (gmap string attrs)) (source : string)
    (st : sp_state) : Prop :=
  sp_seen st = dom (sp_yielded st)
  ∧ sp_seen st ⊆ dom adj
  ∧ sp_yielded st !! source = Some 0
  ∧ ∀ k d, sp_yielded st !! k = Some d → k ≠ source → 1 ≤ d.

(** [nx.single_source_shortest_path_length(G, source)], called on a node
    of the graph (it raises [NodeNotFound] on any other source):
    [dict(_single_shortest_path_length(G._adj, [source], inf))]. *)
Definition single_source_shortest_path_length
    (adj : gmap string (gmap string attrs)) (source : string)
  : result (gmap string nat) :=
  sp_levels (size adj) adj 0
    {| sp_seen := {[source]};
       sp_nextlevel := [source];
       sp_yielded := {[source := 0]};
       sp_returned := false |}.

(** [nx.closeness_centrality(G)] on a [DiGraph]: the distances are taken
    in [G.reverse()], whose adjacency is [_pred]:
    [[
      for n in nodes:
          sp = path_length(G, n)
          totsp = sum(sp.values())
          len_G = len(G)
          _closeness_centrality = 0.0
          if totsp > 0.0 and len_G > 1:
              _closeness_centrality = (len(sp) - 1.0) / totsp
              s = (len(sp) - 1.0) / (len_G - 1)
              _closeness_centrality *= s
          closeness_dict[n] = _closeness_centrality
    ]] *)
Definition closeness_of (G : DiGraph) (n : string) : result Q :=
  sp ← single_source_shortest_path_length (g_pred G) n;
  let totsp := sum_list (map_to_list sp).*2 in
  let len_G := len G in
  Ok (if decide (0 < totsp ∧ 1 < len_G) then
        let c := ((inject_Z (Z.of_nat (size sp)) - 1)
                  / inject_Z (Z.of_nat totsp))%Q in
        let s := ((inject_Z (Z.of_nat (size sp)) - 1)
                  / inject_Z (Z.of_nat (len_G - 1)))%Q in
        (c * s)%Q
      else 0%Q).

Definition closeness_centrality (G : DiGraph) : result (gmap string Q) :=
  for_each
    (λ closeness_dict n,
       c ← closeness_of G n;
       Ok (<[n := c]> closeness_dict))
    (nodes G) ∅.

(** *** Betweenness centrality *)

(** [_single_source_shortest_path_basic(G, s)]:
    [[
      S = []; P = {v: [] for v in G}
      sigma = dict.fromkeys(G, 0.0); D = {}
      sigma[s] = 1.0; D[s] = 0; Q = deque([s])
      while Q:
          v = Q.popleft(); S.append(v)
          Dv = D[v]; sigmav = sigma[v]
          for w in G[v]:
              if w not in D:
                  Q.append(w); D[w] = Dv + 1
              if D[w] == Dv + 1:
                  sigma[w] += sigmav; P[w].append(v)
      return S, P, sigma, D
    ]]
    [sigma] and [P] have an entry for every node and [D] has one for
    every node met, so the lookups of the loop find their keys. *)
Record bc_state : Type := {
  bc_S : list string;
  bc_P : gmap string (list string);
  bc_sigma : gmap string Q;
  bc_D : gmap string nat;
  bc_Q : list string
}.

Definition bc_relax (v : string) (Dv : nat) (sigmav : Q) (st : bc_state)
    (w : string) : bc_state :=
  let st1 :=
    match bc_D st !! w with
    | None => {| bc_S := bc_S st; bc_P := bc_P st; bc_sigma := bc_sigma st;
                 bc_D := <[w := Dv + 1]> (bc_D st);
                 bc_Q := bc_Q st ++ [w] |}
    | Some _ => st
    end in
  if decide (bc_D st1 !! w = Some (Dv + 1)) then
    {| bc_S := bc_S st1;
       bc_P := <[w := default [] (bc_P st1 !! w) ++ [v]]> (bc_P st1);
       bc_sigma :=
         <[w := (default 0 (bc_sigma st1 !! w) + sigmav)%Q]> (bc_sigma st1);
       bc_D := bc_D st1;
       bc_Q := bc_Q st1 |}
  else st1.

Definition bc_visit (G : DiGraph) (st : bc_state) (v : string)
    (rest : list string) : bc_state :=
  let Dv := default 0 (bc_D st !! v) in
  let sigmav := default 0%Q (bc_sigma st !! v) in
  foldl (bc_relax v Dv sigmav)
    {| bc_S := bc_S st ++ [v]; bc_P := bc_P st; bc_sigma := bc_sigma st;
       bc_D := bc_D st; bc_Q := rest |}
    (keys (default ∅ (g_succ G !! v))).

(** Every node enters the queue at most once, so [len(G)] passes of the
    [while] loop empty it. *)
Fixpoint bc_bfs (fuel : nat) (G : DiGraph) (st : bc_state)
  : result bc_state :=
  match bc_Q st with
  | [] => Ok st
  | v :: rest =>
      match fuel with
      | O => Raise OutOfFuel
      | S fuel' => bc_bfs fuel' G (bc_visit G st v rest)
      end
  end.

(** The values the loop reads, and what it keeps.  [precedes l x y]: [x]
    occurs before [y] in [l].  In [bc_inv]: the nodes met are listed once
    in [S ++ Q], from the source on; [sigma] of a node other than the
    source is the sum of [sigma] over its list [P]; the members of [P[w]]
    have left the queue and precede [w].  In [bc_levels]: the nodes that
    left the queue are at depth [d] at most, those in the queue at depth
    [d] and then [d + 1]. *)
Definition Qsum (l : list Q) : Q := foldr Qplus 0%Q l.

Definition precedes (l : list string) (x y : string) : Prop :=
  ∃ l1 l2 l3, l = l1 ++ x :: l2 ++ y :: l3.

Definition sigma_of (st : bc_state) (w : string) : Q :=
  default 0%Q (bc_sigma st !! w).
Definition P_of (st : bc_state) (w : string) : list string :=
  default [] (bc_P st !! w).

Record bc_inv (G : DiGraph) (s : string) (st : bc_state) : Prop := {
  bc_nodup : NoDup (bc_S st ++ bc_Q st);
  bc_dom_D : dom (bc_D st) = list_to_set (bc_S st ++ bc_Q st);
  bc_nodes : dom (bc_D st) ⊆ dom (g_node G);
  bc_first : ∃ rest, bc_S st ++ bc_Q st = s :: rest;
  bc_source : sigma_of st s = 1%Q ∧ P_of st s = [];
  bc_counts :
    ∀ w, w ≠ s → (sigma_of st w == Qsum (sigma_of st <$> P_of st w))%Q;
  bc_nonneg : ∀ w, (0 <= sigma_of st w)%Q;
  bc_preds :
    ∀ w v, v ∈ P_of st w →
           v ∈ bc_S st ∧ precedes (bc_S st ++ bc_Q st) v w
}.

Definition bc_levels (st : bc_state) (d : nat) : Prop :=
  ∃ Qa Qb,
    bc_Q st = Qa ++ Qb
    ∧ (∀ x, x ∈ bc_S st → ∃ dx, bc_D st !! x = Some dx ∧ dx ≤ d)
    ∧ (∀ x, x ∈ Qa → bc_D st !! x = Some d)
    ∧ (∀ x, x ∈ Qb → bc_D st !! x = Some (d + 1)).

Definition single_source_shortest_path_basic (G : DiGraph) (s : string)
  : result bc_state :=
  bc_bfs (len G) G
    {| bc_S := [];
       bc_P := (λ _, []) <$> g_node G;
       bc_sigma := <[s := 1%Q]> ((λ _, 0%Q) <$> g_node G);
       bc_D := {[s := 0]};
       bc_Q := [s] |}.

(** [_accumulate_basic(betweenness, S, P, sigma, s)]:
    [[
      delta = dict.fromkeys(S, 0)
      while S:
          w = S.pop()
          coeff = (1 + delta[w]) / sigma[w]
          for v in P[w]:
              delta[v] += sigma[v] * coeff
          if w != s:
              betweenness[w] += delta[w]
    ]] *)
Definition bc_credit (sigma : gmap string Q) (coeff : Q)
    (delta : gmap string Q) (v : string) : gmap string Q :=
  <[v := (default 0 (delta !! v) + default 0 (sigma !! v) * coeff)%Q]> delta.

Definition bc_accumulate (s : string) (st : bc_state)
    (acc : gmap string Q * gmap string Q) (w : string)
  : gmap string Q * gmap string Q :=
  let '(betweenness, delta) := acc in
  let coeff :=
    ((1 + default 0 (delta !! w)) / default 0 (bc_sigma st !! w))%Q in
  let delta' :=
    foldl (bc_credit (bc_sigma st) coeff) delta
      (default [] (bc_P st !! w)) in
  let betweenness' :=
    if decide (w ≠ s)
    then <[w := (default 0 (betweenness !! w)
                 + default 0 (delta' !! w))%Q]> betweenness
    else betweenness in
  (betweenness', delta').

Definition accumulate_basic (betweenness : gmap string Q) (st : bc_state)
    (s : string) : gmap string Q :=
  (foldl (bc_accumulate s st)
     (betweenness, gset_to_gmap 0%Q (list_to_set (bc_S st)))
     (reverse (bc_S st))).1.

(** [_rescale], for a directed graph, normalized, without endpoints:
    no scaling when [n <= 2], else every value is multiplied by
    [1 / ((n - 1) * (n - 2))]. *)
Definition rescale (betweenness : gmap string Q) (n : nat)
  : gmap string Q :=
  if decide (n ≤ 2) then betweenness
  else
    let scale := (1 / inject_Z (Z.of_nat ((n - 1) * (n - 2))))%Q in
    (λ b, (b * scale)%Q) <$> betweenness.

(** [nx.betweenness_centrality(G)]:
    [[
      betweenness = dict.fromkeys(G, 0.0)
      for s in G:
          S, P, sigma, _ = _single_source_shortest_path_basic(G, s)
          betweenness, _ = _accumulate_basic(betweenness, S, P, sigma, s)
      betweenness = _rescale(betweenness, len(G), normalized=True,
                             directed=True)
    ]]
    The path counts [sigma] and the dependencies [delta] are kept as
    exact rationals. *)
Definition betweenness_centrality (G : DiGraph) : result (gmap string Q) :=
  betweenness ←
    for_each
      (λ betweenness s,
         st ← single_source_shortest_path_basic G s;
         Ok (accumulate_basic betweenness st s))
      (nodes G) ((λ _, 0%Q) <$> g_node G);
  Ok (rescale betweenness (len G)).

End nx.

(** ** social_network.py *)

(** [sorted(items, key=lambda x: x[1], reverse=True)]: the stable sort into
    descending order of the second component. *)
Fixpoint insert_desc (x : string * nat) (l : list (string * nat))
  : list (string * nat) :=
  match l with
  | [] => [x]
  | y :: l' => if decide (x.2 < y.2) then y :: insert_desc x l' else x :: l
  end.

Definition sorted_desc (l : list (string * nat)) : list (string * nat) :=
  foldr insert_desc [] l.

Module SocialNetwork.

(** The object's only field is [self.graph]. *)
Record t : Type := { graph : nx.DiGraph }.

(** A method reads and possibly mutates [self]; it returns or raises. *)
Definition M (A : Type) : Type := t → result A * t.

(** [SocialNetwork()] *)
Definition init : t := {| graph := nx.empty |}.

Definition not_found (user : string) : exn :=
  ValueError ("User '" +:+ user +:+ "' not found").

(** [if "name" not in attributes: attributes["name"] = user] *)
Definition with_name (user : string) (attributes : attrs) : attrs :=
  if decide (is_Some (attributes !! "name")) then attributes
  else <["name" := PStr user]> attributes.

Definition add_user (user : string) (attributes : option attrs) : M unit :=
  λ self,
    let attributes := default ∅ attributes in
    let attributes := with_name user attributes in
    if nx.keyword_clash nx.add_node_parameters attributes then
      (Raise TypeError, self)
    else (Ok (), {| graph := nx.add_node user attributes (graph self) |}).

Definition remove_user (user : string) : M unit :=
  λ self,
    if nx.contains (graph self) user then
      match nx.remove_node user (graph self) with
      | Ok G' => (Ok (), {| graph := G' |})
      | Raise e => (Raise e, self)
      end
    else (Raise (not_found user), self).

Definition default_friendship : attrs :=
  {[ "type" := PStr "Friend"; "strength" := PInt 5 ]}.

Definition add_friendship (user1 user2 : string) (attributes : option attrs)
  : M unit :=
  λ self,
    if negb (nx.contains (graph self) user1) then
      (Raise (not_found user1), self)
    else if negb (nx.contains (graph self) user2) then
      (Raise (not_found user2), self)
    else
      let attributes := default default_friendship attributes in
      if nx.keyword_clash nx.add_edge_parameters attributes then
        (Raise TypeError, self)
      else
        (Ok (),
         {| graph := nx.add_edge user1 user2 attributes (graph self) |}).

Definition remove_friendship (user1 user2 : string) : M unit :=
  λ self,
    if nx.has_edge (graph self) user1 user2 then
      match nx.remove_edge user1 user2 (graph self) with
      | Ok G' => (Ok (), {| graph := G' |})
      | Raise e => (Raise e, self)
      end
    else
      (Raise (ValueError ("Relationship from '" +:+ user1 +:+ "' to '"
                          +:+ user2 +:+ "' not found")), self).

(** The inner loop body of [recommend_friends]:
    [if fof != user and fof not in current_friends: mutual[fof] += 1]. *)
Definition count_mutual (user : string) (current_friends : gset string)
    (mutual_friends : gmap string nat) (friend_of_friend : string)
  : gmap string nat :=
  if decide (friend_of_friend ≠ user ∧ friend_of_friend ∉ current_friends)
  then <[friend_of_friend := S (default 0 (mutual_friends !! friend_of_friend))]>
         mutual_friends
  else mutual_friends.

Definition recommendations (G : nx.DiGraph) (user : string)
  : result (list (string * nat)) :=
  friends ← nx.successors G user;
  let current_friends : gset string := list_to_set friends in
  mutual_friends ←
    for_each
      (λ mutual_friends friend,
         fofs ← nx.successors G friend;
         Ok (foldl (count_mutual user current_friends) mutual_friends fofs))
      (elements current_friends) ∅;
  Ok (sorted_desc (map_to_list mutual_friends)).

Definition recommend_friends (user : string) : M (list (string * nat)) :=
  λ self,
    if negb (nx.contains (graph self) user) then (Ok [], self)
    else (recommendations (graph self) user, self).

(** A recommendable [c]: two directed hops from [user], not [user]
    itself and not already a successor of [user]. *)
Definition candidate (G : nx.DiGraph) (user c : string) : Prop :=
  (∃ friend, nx.edge G user friend ∧ nx.edge G friend c)
  ∧ c ≠ user ∧ ¬ nx.edge G user c.

(** The number of users among [friends] that have [c] as a successor, and
    the number of successors of [user] that do. *)
Definition mutual_among (G : nx.DiGraph) (friends : list string) (c : string)
  : nat :=
  length (filter (λ friend, nx.has_edge G friend c = true) friends).

Definition mutual_connections (G : nx.DiGraph) (user c : string) : nat :=
  mutual_among G (keys (default ∅ (nx.g_succ G !! user))) c.

(** Running a sequence of calls that are expected to return. *)
Definition exec {A} (m : M A) (self : t) : t := (m self).2.

(** *** [detect_communities] *)

Section detect_communities.
(** The community algorithms of the libraries, as the caller sees them:
    each takes the undirected graph and returns its communities or
    raises.  [community] stands for the optional python-louvain module
    ([None]: it is not installed, so importing it raises
    [ImportError]). *)
Variable most_valuable_edge : nx.Graph → result (string * string).
Variable greedy_modularity_communities : nx.Graph → result (list (gset string)).
Variable label_propagation_communities : nx.Graph → result (list (gset string)).
Variable community : option (nx.Graph → result (gmap string Z)).

(** [communities] is a partition of the set [X] of nodes: listed one
    after the other, the communities name every node of [X] once and
    nothing else. *)
Definition partition_of (communities : list (list string)) (X : gset string)
  : Prop :=
  NoDup (concat communities) ∧ ∀ x, x ∈ concat communities ↔ x ∈ X.

(** [[list(c) for c in communities]] *)
Definition as_lists (communities : list (gset string)) : list (list string) :=
  elements <$> communities.

(** What is used of the library algorithms:
    [greedy_modularity_communities] and [label_propagation_communities]
    return a partition of the nodes of the graph they are given, and
    [best_partition] returns a dict with one entry per node. *)
Definition returns_partition
    (algorithm : nx.Graph → result (list (gset string))) : Prop :=
  ∀ G, nx.u_wf G →
       ∃ cs, algorithm G = Ok cs
             ∧ partition_of (as_lists cs) (dom (nx.u_node G)).

Definition assigns_every_node
    (module : option (nx.Graph → result (gmap string Z))) : Prop :=
  ∀ best_partition, module = Some best_partition →
    ∀ G, nx.u_wf G →
         ∃ p, best_partition G = Ok p ∧ dom p = dom (nx.u_node G).

(** [for node, community_id in partition.items():
       communities[community_id].append(node)] *)
Definition group_by_id (partition : gmap string Z) : gmap Z (list string) :=
  foldl (λ communities nc,
           <[nc.2 := default [] (communities !! nc.2) ++ [nc.1]]> communities)
        ∅ (map_to_list partition).

Definition louvain (undirected : nx.Graph) : result (list (list string)) :=
  let attempt :=
    match community with
    | None => Raise ImportError
    | Some best_partition =>
        partition ← best_partition undirected;
        Ok (map_to_list (group_by_id partition)).*2
    end in
  match attempt with
  | Raise ImportError =>
      communities ← greedy_modularity_communities undirected;
      Ok (as_lists communities)
  | r => r
  end.

Definition detect_communities (method : string)
  : M (list (list string)) :=
  λ self,
    let undirected := nx.to_undirected (graph self) in
    let r :=
      if decide (method = "girvan_newman") then
        communities ← nx.girvan_newman_next most_valuable_edge undirected;
        Ok (as_lists communities)
      else if decide (method = "greedy_modularity") then
        communities ← greedy_modularity_communities undirected;
        Ok (as_lists communities)
      else if decide (method = "label_propagation") then
        communities ← label_propagation_communities undirected;
        Ok (as_lists communities)
      else if decide (method = "louvain") then
        louvain undirected
      else
        communities ← nx.girvan_newman_next most_valuable_edge undirected;
        Ok (as_lists communities) in
    (r, self).
End detect_communities.


(** *** Attributes and search *)

Definition get_user_attributes (self : t) (user : string) : attrs :=
  if nx.contains (graph self) user
  then default ∅ (nx.g_node (graph self) !! user)
  else ∅.

Definition update_user_attributes (user : string) (attributes : attrs)
  : M unit :=
  λ self,
    if nx.contains (graph self) user then
      (Ok (),
       {| graph := foldl (λ G kv, nx.set_node_attr user kv.1 kv.2 G)
                     (graph self) (map_to_list attributes) |})
    else (Raise (not_found user), self).

(** [a in b] for two strings. *)
Fixpoint is_substring (a b : string) : bool :=
  String.prefix a b
  || match b with
     | EmptyString => false
     | String _ b' => is_substring a b'
     end.

(** [str(value)] *)
Definition str (value : pyval) : string :=
  match value with
  | PNone => "None"
  | PInt z => pretty z
  | PStr s => s
  end.

(** [a] occurs in [b] as a contiguous piece. *)
Definition occurs_in (a b : string) : Prop :=
  ∃ l r, b = l +:+ a +:+ r.

Section search_users.
(** [str.lower] *)
Variable lower : string → string.

(** [value is not None and search_term in str(value).lower()] *)
Definition value_matches (search_term : string) (value : pyval) : bool :=
  match value with
  | PNone => false
  | _ => is_substring search_term (lower (str value))
  end.

(** The body of the loop over the users: the handle is tried first, then
    the attribute values until one matches. *)
Definition search_visit (self : t) (search_term : string)
    (results : list string) (user : string) : list string :=
  if is_substring search_term (lower user) then results ++ [user]
  else
    let attributes := get_user_attributes self user in
    if existsb (λ kv, value_matches search_term kv.2) (map_to_list attributes)
    then results ++ [user]
    else results.

(** [user] is a hit: the lowered term occurs in the lowered handle, or in
    the lowered text of an attribute value other than [None]. *)
Definition search_hit (self : t) (search_term user : string) : Prop :=
  occurs_in (lower search_term) (lower user)
  ∨ ∃ key value,
      get_user_attributes self user !! key = Some value
      ∧ value ≠ PNone
      ∧ occurs_in (lower search_term) (lower (str value)).

Definition search_users (self : t) (search_term : string) : list string :=
  let search_term := lower search_term in
  foldl (search_visit self search_term) [] (nx.nodes (graph self)).
End search_users.

(** *** Sequences of mutations *)

Inductive call : Type :=
  | AddUser (user : string) (attributes : option attrs)
  | RemoveUser (user : string)
  | AddFriendship (user1 user2 : string) (attributes : option attrs)
  | RemoveFriendship (user1 user2 : string)
  | UpdateUserAttributes (user : string) (attributes : attrs).

Definition run (c : call) : M unit :=
  match c with
  | AddUser user attributes => add_user user attributes
  | RemoveUser user => remove_user user
  | AddFriendship user1 user2 attributes =>
      add_friendship user1 user2 attributes
  | RemoveFriendship user1 user2 => remove_friendship user1 user2
  | UpdateUserAttributes user attributes =>
      update_user_attributes user attributes
  end.

(** The object after a sequence of calls made on a fresh [SocialNetwork()],
    a call that raises leaving it as it was. *)
Definition run_all (calls : list call) : t :=
  foldl (λ self c, exec (run c) self) init calls.

(** What a call needs to find in the network. *)
Definition admissible (self : t) (c : call) : Prop :=
  match c with
  | AddUser _ attributes =>
      nx.keyword_clash nx.add_node_parameters (default ∅ attributes) = false
  | RemoveUser user => nx.contains (graph self) user = true
  | AddFriendship user1 user2 attributes =>
      nx.contains (graph self) user1 = true
      ∧ nx.contains (graph self) user2 = true
      ∧ nx.keyword_clash nx.add_edge_parameters
          (default default_friendship attributes) = false
  | RemoveFriendship user1 user2 => nx.edge (graph self) user1 user2
  | UpdateUserAttributes user _ => nx.contains (graph self) user = true
  end.
End SocialNetwork.



(** ** analytics.py *)

Module NetworkAnalytics.

(** *** binary64 arithmetic *)

(** The integer nearest to [q], ties to even. *)
Definition round_half_even (q : Q) : Z :=
  let fl := (Qnum q `div` Z.pos (Qden q))%Z in
  let r := (q - inject_Z fl)%Q in
  match (r ?= 1 # 2)%Q with
  | Lt => fl
  | Gt => (fl + 1)%Z
  | Eq => if Z.even fl then fl else (fl + 1)%Z
  end.

(** The binary exponent of a positive [q]: the [e] with
    [2^e <= q < 2^(e+1)]. *)
Definition ilog2 (q : Q) : Z :=
  let e0 := (Z.log2 (Qnum q) - Z.log2 (Z.pos (Qden q)))%Z in
  if Qle_bool (2 ^ e0) q then e0 else (e0 - 1)%Z.

(** [fl x]: the binary64 value nearest to [x], ties to even, written as
    the rational it denotes.  A significand has 53 bits; below [2^-1022]
    the spacing stays [2^-1074] (subnormal numbers).  Overflow is not
    modelled: the quantities rounded here are far below [2^1024]. *)
Definition fl (x : Q) : Q :=
  if Qeq_bool x 0 then 0%Q
  else
    let e := Z.max (ilog2 (Qabs x)) (-1022) in
    let ulp := (2 ^ (e - 52))%Q in
    Qred (inject_Z (round_half_even (x / ulp)) * ulp).

(** Float addition, multiplication and division: the exact result,
    rounded.  [fsum] is [sum(xs)]: additions from the left, from 0. *)
Definition fadd (x y : Q) : Q := fl (x + y).
Definition fmul (x y : Q) : Q := fl (x * y).
Definition fdiv (x y : Q) : Q := fl (x / y).
Definition fsum (xs : list Q) : Q := foldl fadd 0%Q xs.

(** *** [get_connectivity_data] *)

(** [f"{x:.2f}"] for a non-negative float [x]: two decimals, the exact
    value of [x] rounded with ties to even. *)
Definition two_digits (n : Z) : string :=
  pretty (n `div` 10)%Z +:+ pretty (n `mod` 10)%Z.

Definition format_2f (x : Q) : string :=
  let cents := round_half_even (x * 100) in
  pretty (cents `div` 100)%Z +:+ "." +:+ two_digits (cents `mod` 100)%Z.

Record ConnectivityData : Type := {
  Connected : bool;
  Number_of_components : nat;
  Largest_component_size : nat;
  Largest_component_percentage : string;
  Component_sizes : list nat
}.

Definition get_connectivity_data (network : SocialNetwork.t)
  : result ConnectivityData :=
  let G := SocialNetwork.graph network in
  let undirected := nx.to_undirected G in
  is_connected ← nx.is_connected undirected;
  let components := nx.connected_components undirected in
  let component_sizes := size <$> components in
  let largest_component_size := max_list component_sizes in
  let largest_component_percentage : Q :=
    if decide (0 < length (nx.nodes G)) then
      fmul (fdiv (inject_Z (Z.of_nat largest_component_size))
                 (inject_Z (Z.of_nat (length (nx.nodes G)))))
           100
    else 0%Q in
  Ok {| Connected := is_connected;
        Number_of_components := length components;
        Largest_component_size := largest_component_size;
        Largest_component_percentage :=
          format_2f largest_component_percentage +:+ "%";
        Component_sizes := component_sizes |}.

(** *** Centrality *)

Record CentralityRecord : Type := {
  degree_centrality : Q;
  eigenvector_centrality : Q;
  betweenness_centrality : Q;
  closeness_centrality : Q
}.

(** The range networkx documents for a normalised score: whenever the
    routine returns, every score lies between 0 and 1. *)
Definition unit_scores (r : result (gmap string Q)) : Prop :=
  ∀ m n q, r = Ok m → m !! n = Some q → (0 <= q)%Q ∧ (q <= 1)%Q.

(** [weights = {"degree_centrality": 0.3, "eigenvector_centrality": 0.3,
    "betweenness_centrality": 0.3, "closeness_centrality": 0.1}]; a
    literal denotes the binary64 value nearest to it. *)
Definition weights : list ((CentralityRecord → Q) * Q) :=
  [ (degree_centrality, fl (3 # 10));
    (eigenvector_centrality, fl (3 # 10));
    (betweenness_centrality, fl (3 # 10));
    (closeness_centrality, fl (1 # 10)) ].

Definition zero_record : CentralityRecord :=
  {| degree_centrality := 0; eigenvector_centrality := 0;
     betweenness_centrality := 0; closeness_centrality := 0 |}.

Section centrality.
(** The three measures the method asks networkx for inside a [try], each
    returning a score per node or raising. *)
Variable nx_eigenvector_centrality : nx.DiGraph → result (gmap string Q).
Variable nx_betweenness_centrality : nx.DiGraph → result (gmap string Q).
Variable nx_closeness_centrality : nx.DiGraph → result (gmap string Q).

(** [try: m = f(G)  except: m = {node: 0.0 for node in G.nodes()}] *)
Definition or_zeros (G : nx.DiGraph) (r : result (gmap string Q))
  : gmap string Q :=
  match r with
  | Ok m => m
  | Raise _ => (λ _, 0%Q) <$> nx.g_node G
  end.

Definition get_centrality_measures (network : SocialNetwork.t)
  : gmap string CentralityRecord :=
  let G := SocialNetwork.graph network in
  if decide (length (nx.nodes G) = 0) then ∅
  else
    let degree := nx.degree_centrality G in
    let eigenvector := or_zeros G (nx_eigenvector_centrality G) in
    let betweenness := or_zeros G (nx_betweenness_centrality G) in
    let closeness := or_zeros G (nx_closeness_centrality G) in
    map_imap
      (λ node _,
         Some {| degree_centrality := default 0%Q (degree !! node);
                 eigenvector_centrality := default 0%Q (eigenvector !! node);
                 betweenness_centrality := default 0%Q (betweenness !! node);
                 closeness_centrality := default 0%Q (closeness !! node) |})
      (nx.g_node G).

Definition get_user_centrality (network : SocialNetwork.t) (user : string)
  : CentralityRecord :=
  default zero_record (get_centrality_measures network !! user).

Definition calculate_influence_score (network : SocialNetwork.t)
    (user : string) : Q :=
  if negb (nx.contains (SocialNetwork.graph network) user) then 0%Q
  else
    let centrality := get_user_centrality network user in
    let score :=
      fsum ((λ mw, fmul (mw.1 centrality) mw.2) <$> weights) in
    let max_possible_score := fsum weights.*2 in
    fdiv score max_possible_score.

(** [scores = {}; for user in nodes: scores[user] = ...; return scores] *)
Definition calculate_influence_scores (network : SocialNetwork.t)
  : gmap string Q :=
  foldl (λ scores user,
           <[user := calculate_influence_score network user]> scores)
    ∅ (nx.nodes (SocialNetwork.graph network)).
End centrality.

(** *** [simulate_information_spread] *)

(** The users a round can reach: not yet informed, and a successor of an
    informed user. *)
Definition frontier (G : nx.DiGraph) (informed : gmap string bool)
    (x : string) : Prop :=
  informed !! x = Some false
  ∧ ∃ u, informed !! u = Some true ∧ nx.edge G u x.

(** Every successor of an informed user is informed. *)
Definition closed (G : nx.DiGraph) (informed : gmap string bool) : Prop :=
  ∀ u x, informed !! u = Some true → nx.edge G u x → informed !! x = Some true.

(** The users still mapped to [False]. *)
Definition uninformed (informed : gmap string bool) : gset string :=
  dom (filter (λ kv, kv.2 = false) informed).

(** [informed = {user: False for user in G.nodes()}] followed by
    [informed[start_user] = True]. *)
Definition initial_informed (G : nx.DiGraph) (start_user : string)
  : gmap string bool :=
  <[start_user := true]> ((λ _, false) <$> nx.g_node G).

Section spread.
(** [rand i] is the value of the [i]-th call of [random.random()]. *)
Variable rand : nat → Q.

Definition Qltb (x y : Q) : bool := negb (Qle_bool y x).

(** The two regimes in which the test [random.random() < probability]
    has a fixed outcome. *)
Definition always_hit (probability : Q) : Prop :=
  ∀ i, Qltb (rand i) probability = true.
Definition never_hit (probability : Q) : Prop :=
  ∀ i, Qltb (rand i) probability = false.

(** [random.random()] returns a float in the half-open interval
    from 0.0 to 1.0. *)
Definition random_source : Prop :=
  ∀ i, (0 <= rand i)%Q ∧ (rand i < 1)%Q.

(** The body of the innermost loop.  The state is the list
    [newly_informed] and the number of random draws made so far. *)
Definition try_spread (probability : Q) (informed : gmap string bool)
    (st : list string * nat) (neighbor : string)
  : result (list string * nat) :=
  match informed !! neighbor with
  | None => Raise (KeyError neighbor)
  | Some true => Ok st
  | Some false =>
      Ok (if Qltb (rand st.2) probability then st.1 ++ [neighbor] else st.1,
          S st.2)
  end.

(** [for user in [u for u, has_info in informed.items() if has_info]] *)
Definition informed_users (informed : gmap string bool) : list string :=
  (filter (λ kv, kv.2 = true) (map_to_list informed)).*1.

Definition spread_round (G : nx.DiGraph) (probability : Q)
    (informed : gmap string bool) (draws : nat)
  : result (list string * nat) :=
  for_each
    (λ st user,
       neighbors ← nx.successors G user;
       for_each (try_spread probability informed) neighbors st)
    (informed_users informed) ([], draws).

(** [for user in newly_informed: informed[user] = True] *)
Definition mark_informed (informed : gmap string bool)
    (newly_informed : list string) : gmap string bool :=
  foldl (λ m user, <[user := true]> m) informed newly_informed.

(** [for _ in range(iterations): ...  if not newly_informed: break] *)
Fixpoint spread_loop (rounds : nat) (G : nx.DiGraph) (probability : Q)
    (informed : gmap string bool) (draws : nat)
  : result (gmap string bool * nat) :=
  match rounds with
  | O => Ok (informed, draws)
  | S rounds' =>
      '(newly_informed, draws') ← spread_round G probability informed draws;
      let informed' := mark_informed informed newly_informed in
      match newly_informed with
      | [] => Ok (informed', draws')
      | _ :: _ => spread_loop rounds' G probability informed' draws'
      end
  end.

Definition simulate_information_spread (network : SocialNetwork.t)
    (start_user : string) (probability : Q) (iterations : Z)
  : result (gmap string bool) :=
  if negb (nx.contains (SocialNetwork.graph network) start_user) then Ok ∅
  else
    let G := SocialNetwork.graph network in
    let informed := initial_informed G start_user in
    r ← spread_loop (Z.to_nat iterations) G probability informed 0;
    Ok r.1.
End spread.


(** *** Network metrics *)

Definition get_density (network : SocialNetwork.t) : Q :=
  nx.density (SocialNetwork.graph network).

Definition get_num_connected_components (network : SocialNetwork.t) : nat :=
  let undirected := nx.to_undirected (SocialNetwork.graph network) in
  nx.number_connected_components undirected.

(** *** [get_community_metrics] *)

(** A row of the returned data frame. *)
Record CommunityMetrics : Type := {
  Community_ID : nat;
  Size : nat;
  Internal_Edges : nat;
  External_Connections : nat;
  Internal_Density : Q;
  Cohesion : Q;
  Avg_Clustering : Q
}.

(** What is used of [nx.average_clustering]: it returns on a graph that
    has a node. *)
Definition clustering_defined
    (average_clustering : nx.Graph → result Q) : Prop :=
  ∀ G, 0 < nx.u_len G → ∃ q, average_clustering G = Ok q.

Section community_metrics.
(** [nx.average_clustering] *)
Variable nx_average_clustering : nx.Graph → result Q.

(** [for node in community:
       neighbors = set(undirected.neighbors(node))
       external_connections += len(neighbors - set(community))] *)
Definition count_external (undirected : nx.Graph) (community : list string)
    (external_connections : nat) (node : string) : result nat :=
  neighbors ← nx.u_neighbors undirected node;
  Ok (external_connections
      + size ((list_to_set neighbors : gset string) ∖ list_to_set community)).

(** The body of the loop over [enumerate(communities)]. *)
Definition community_row (undirected : nx.Graph)
    (metrics : list CommunityMetrics) (ic : nat * list string)
  : result (list CommunityMetrics) :=
  let '(i, community) := ic in
  match community with
  | [] => Ok metrics
  | _ :: _ =>
      let subgraph := nx.u_subgraph undirected community in
      let size := length community in
      let internal_edges := nx.u_number_of_edges subgraph in
      let possible_internal_edges : Q :=
        (inject_Z (Z.of_nat (size * (size - 1))) / 2)%Q in
      let internal_density : Q :=
        if Qltb 0 possible_internal_edges
        then (inject_Z (Z.of_nat internal_edges) / possible_internal_edges)%Q
        else 0%Q in
      external_connections ←
        for_each (count_external undirected community) community 0;
      let total_connections := internal_edges + external_connections in
      let cohesion : Q :=
        if decide (0 < total_connections)
        then (inject_Z (Z.of_nat internal_edges)
              / inject_Z (Z.of_nat total_connections))%Q
        else 0%Q in
      avg_clustering ←
        (if decide (1 < size) then nx_average_clustering subgraph else Ok 0%Q);
      Ok (metrics ++ [{| Community_ID := i + 1;
                         Size := size;
                         Internal_Edges := internal_edges;
                         External_Connections := external_connections;
                         Internal_Density := internal_density;
                         Cohesion := cohesion;
                         Avg_Clustering := avg_clustering |}])
  end.

Definition get_community_metrics (network : SocialNetwork.t)
    (communities : list (list string)) : result (list CommunityMetrics) :=
  let G := SocialNetwork.graph network in
  let undirected := nx.to_undirected G in
  for_each (community_row undirected) (imap pair communities) [].
End community_metrics.
End NetworkAnalytics.


(** ** Sample networks *)

Module Examples.
Import SocialNetwork.

(** The three-user chain A → B → C. *)
Definition chain_ABC : SocialNetwork.t :=
  exec (add_friendship "B" "C" None)
    (exec (add_friendship "A" "B" None)
       (exec (add_user "C" None)
          (exec (add_user "B" None) (exec (add_user "A" None) init)))).

(** Two users following each other. *)
Definition mutual_AB : SocialNetwork.t :=
  exec (add_friendship "B" "A" None)
    (exec (add_friendship "A" "B" None)
       (exec (add_user "B" None) (exec (add_user "A" None) init))).

(** One user with a relationship to itself. *)
Definition selfloop_A : SocialNetwork.t :=
  exec (add_friendship "A" "A" None) (exec (add_user "A" None) init).

(** A user added with an age, then added again with a bio only. *)
Definition aged_A : SocialNetwork.t :=
  exec (add_user "A" (Some {[ "age" := PInt 30 ]})) init.
Definition readded_A : SocialNetwork.t :=
  exec (add_user "A" (Some {[ "bio" := PStr "hello" ]})) aged_A.

(** Stand-ins for the three centrality routines, for the statements that
    hold of any routine: the eigenvector iteration does not converge,
    every betweenness score is 0 and every closeness score is 1. *)
Definition eigenvector_fails : nx.DiGraph → result (gmap string Q) :=
  λ _, Raise PowerIterationFailedConvergence.
Definition betweenness_zero : nx.DiGraph → result (gmap string Q) :=
  λ G, Ok ((λ _, 0%Q) <$> nx.g_node G).
Definition closeness_one : nx.DiGraph → result (gmap string Q) :=
  λ G, Ok ((λ _, 1%Q) <$> nx.g_node G).

(** [str.lower] on ASCII text. *)
Definition lower_ascii (c : Ascii.ascii) : Ascii.ascii :=
  let n := Ascii.nat_of_ascii c in
  if Nat.leb 65 n && Nat.leb n 90 then Ascii.ascii_of_nat (n + 32) else c.
Fixpoint str_lower (s : string) : string :=
  match s with
  | EmptyString => EmptyString
  | String c s' => String (lower_ascii c) (str_lower s')
  end.

(** Stand-ins for the library's community algorithms: an edge chooser that
    takes the first edge it finds, and an algorithm that returns the
    connected components as communities. *)
Definition first_edge : nx.Graph → result (string * string) :=
  λ G, match elements (nx.u_edge_set G) with
       | e :: _ => Ok e
       | [] => Raise (ValueError "max() arg is an empty sequence")
       end.
Definition components_as_communities : nx.Graph → result (list (gset string)) :=
  λ G, Ok (nx.connected_components G).

(** A stand-in for [nx.average_clustering], and the metrics of the
    communities A, B and C of the chain, an empty community between
    them. *)
Definition clustering_zero : nx.Graph → result Q := λ _, Ok 0%Q.
Definition chain_communities : list (list string) :=
  [["A"; "B"]; []; ["C"]].
Definition chain_metrics : list NetworkAnalytics.CommunityMetrics :=
  [ {| NetworkAnalytics.Community_ID := 1;
       NetworkAnalytics.Size := 2;
       NetworkAnalytics.Internal_Edges := 1;
       NetworkAnalytics.External_Connections := 1;
       NetworkAnalytics.Internal_Density := 2 # 2;
       NetworkAnalytics.Cohesion := 1 # 2;
       NetworkAnalytics.Avg_Clustering := 0 |};
    {| NetworkAnalytics.Community_ID := 3;
       NetworkAnalytics.Size := 1;
       NetworkAnalytics.Internal_Edges := 0;
       NetworkAnalytics.External_Connections := 1;
       NetworkAnalytics.Internal_Density := 0;
       NetworkAnalytics.Cohesion := 0;
       NetworkAnalytics.Avg_Clustering := 0 |} ].
End Examples.

(** * Properties *)

(** ** Dicts and the result monad *)

Lemma elem_of_keys {V} (m : gmap string V) (k : string) :
  k ∈ keys m ↔ is_Some (m !! k).
Proof.
  unfold keys. rewrite list_elem_of_fmap. split.
  - intros [[k' v] [-> Hin]]. apply elem_of_map_to_list in Hin. by exists v.
  - intros [v Hv]. exists (k, v). split; [done|]. by apply elem_of_map_to_list.
Qed.

Lemma NoDup_keys {V} (m : gmap string V) : NoDup (keys m).
Proof. apply NoDup_fst_map_to_list. Qed.

Lemma length_keys {V} (m : gmap string V) : length (keys m) = size m.
Proof. unfold keys. by rewrite length_fmap, length_map_to_list. Qed.

(** ** Rounding to binary64 *)

Section float_facts.
Import NetworkAnalytics.

Lemma round_half_even_eq (q : Q) :
  round_half_even q
  = match (q - inject_Z (Qfloor q) ?= 1 # 2)%Q with
    | Lt => Qfloor q
    | Gt => (Qfloor q + 1)%Z
    | Eq => if Z.even (Qfloor q) then Qfloor q else (Qfloor q + 1)%Z
    end.
Proof. by destruct q. Qed.

Lemma round_half_even_floor (q : Q) :
  round_half_even q = Qfloor q ∨ round_half_even q = (Qfloor q + 1)%Z.
Proof.
  rewrite round_half_even_eq.
  destruct (_ ?= _)%Q; [destruct (Z.even _)|..]; auto.
Qed.

Lemma round_half_even_mono (x y : Q) :
  (x <= y)%Q → (round_half_even x ≤ round_half_even y)%Z.
Proof.
  intros Hxy. pose proof (Qfloor_resp_le _ _ Hxy) as Hf.
  destruct (decide (Qfloor x = Qfloor y)) as [Heq|Hne].
  - rewrite !round_half_even_eq. rewrite <- Heq.
    destruct (Qcompare_spec (x - inject_Z (Qfloor x)) (1 # 2)) as [Hx|Hx|Hx];
      destruct (Qcompare_spec (y - inject_Z (Qfloor x)) (1 # 2)) as [Hy|Hy|Hy];
      try destruct (Z.even _); try lia; exfalso; lra.
  - destruct (round_half_even_floor x) as [-> | ->],
      (round_half_even_floor y) as [-> | ->]; lia.
Qed.

Lemma round_half_even_Z (z : Z) : round_half_even (inject_Z z) = z.
Proof.
  unfold round_half_even. cbn [Qnum Qden inject_Z]. rewrite Z.div_1_r.
  destruct (Qcompare_spec (inject_Z z - inject_Z z) (1 # 2)) as [H|H|H];
    [exfalso; lra|done|exfalso; lra].
Qed.

Lemma round_half_even_comp (x y : Q) :
  (x == y)%Q → round_half_even x = round_half_even y.
Proof.
  intros Hxy. apply Z.le_antisymm; apply round_half_even_mono; lra.
Qed.

Lemma pow2_pos (e : Z) : (0 < 2 ^ e)%Q.
Proof. by apply Qpower_0_lt. Qed.

Lemma pow2_plus (a b : Z) : (2 ^ (a + b) == 2 ^ a * 2 ^ b)%Q.
Proof. by apply Qpower_plus. Qed.

Lemma pow2_le (a b : Z) : (a ≤ b)%Z → (2 ^ a <= 2 ^ b)%Q.
Proof. intros. by apply Qpower_le_compat_l. Qed.

Lemma pow2_Z (n : Z) : (0 ≤ n)%Z → (inject_Z (2 ^ n) == 2 ^ n)%Q.
Proof. intros. by apply (Zpower_Qpower 2). Qed.

(** [ilog2 x] is the binary exponent of a positive [x]. *)
Lemma ilog2_spec (x : Q) :
  (0 < x)%Q → (2 ^ ilog2 x <= x)%Q ∧ (x < 2 ^ (ilog2 x + 1))%Q.
Proof.
  intros Hx. destruct x as [n d]. unfold ilog2. cbn [Qnum Qden].
  assert (0 < n)%Z as Hn.
  { unfold Qlt in Hx. simpl in Hx. lia. }
  set (a := Z.log2 n). set (b := Z.log2 (Z.pos d)).
  destruct (Z.log2_spec n Hn) as [Ha1 Ha2]. fold a in Ha1, Ha2.
  destruct (Z.log2_spec (Z.pos d) eq_refl) as [Hb1 Hb2]. fold b in Hb1, Hb2.
  assert (0 ≤ a)%Z as Ha0 by apply Z.log2_nonneg.
  assert (0 ≤ b)%Z as Hb0 by apply Z.log2_nonneg.
  assert (n # d == inject_Z n / inject_Z (Z.pos d))%Q as Hq
    by apply Qmake_Qdiv.
  assert (0 < inject_Z (Z.pos d))%Q as Hd by (by rewrite <- (Zlt_Qlt 0)).
  assert (2 ^ a <= inject_Z n)%Q as Qa1.
  { rewrite <- pow2_Z by done. by rewrite <- Zle_Qle. }
  assert (inject_Z n < 2 ^ (a + 1))%Q as Qa2.
  { rewrite <- pow2_Z by lia. rewrite <- Zlt_Qlt.
    by rewrite <- Z.add_1_r in Ha2. }
  assert (2 ^ b <= inject_Z (Z.pos d))%Q as Qb1.
  { rewrite <- pow2_Z by done. by rewrite <- Zle_Qle. }
  assert (inject_Z (Z.pos d) < 2 ^ (b + 1))%Q as Qb2.
  { rewrite <- pow2_Z by lia. rewrite <- Zlt_Qlt.
    by rewrite <- Z.add_1_r in Hb2. }
  pose proof (pow2_pos a). pose proof (pow2_pos b).
  pose proof (pow2_pos (a - b)) as Hab.
  assert (2 ^ a == 2 ^ (a - b) * 2 ^ b)%Q as Ea.
  { rewrite <- pow2_plus. by replace (a - b + b)%Z with a by lia. }
  assert (2 ^ (a + 1) == 2 ^ (a - b + 1) * 2 ^ b)%Q as Ea1.
  { rewrite <- pow2_plus. by replace (a - b + 1 + b)%Z with (a + 1)%Z by lia. }
  assert (2 ^ (b + 1) == 2 * 2 ^ b)%Q as Eb1.
  { rewrite pow2_plus. change (2 ^ 1)%Q with 2%Q. lra. }
  assert (2 ^ (a - b + 1) == 2 * 2 ^ (a - b))%Q as Eab1.
  { rewrite pow2_plus. change (2 ^ 1)%Q with 2%Q. lra. }
  assert (2 ^ (a - b) == 2 * 2 ^ (a - b - 1))%Q as Eab.
  { replace (a - b)%Z with (a - b - 1 + 1)%Z at 1 by lia.
    rewrite pow2_plus. change (2 ^ 1)%Q with 2%Q. lra. }
  destruct (Qle_bool (2 ^ (a - b)) (n # d)) eqn:Hle.
  - apply Qle_bool_iff in Hle. split; [done|]. rewrite Hq.
    apply Qlt_shift_div_r; [done|]. nra.
  - replace (a - b - 1 + 1)%Z with (a - b)%Z by lia. split.
    + rewrite Hq. apply Qle_shift_div_l; [done|]. nra.
    + apply Qnot_le_lt. intros H'%Qle_bool_iff. congruence.
Qed.

Lemma ilog2_mono (x y : Q) :
  (0 < x)%Q → (x <= y)%Q → (ilog2 x ≤ ilog2 y)%Z.
Proof.
  intros Hx Hxy. destruct (ilog2_spec x Hx) as [Hx1 _].
  destruct (ilog2_spec y) as [_ Hy2]; [lra|].
  destruct (Z_lt_le_dec (ilog2 y) (ilog2 x)) as [Hlt|]; [|done].
  exfalso. pose proof (pow2_le (ilog2 y + 1) (ilog2 x) ltac:(lia)). lra.
Qed.

Lemma fl_unfold (x : Q) :
  ¬ (x == 0)%Q →
  let e := Z.max (ilog2 (Qabs x)) (-1022) in
  (fl x == inject_Z (round_half_even (x / 2 ^ (e - 52))) * 2 ^ (e - 52))%Q.
Proof.
  intros Hx e. unfold fl.
  destruct (Qeq_bool x 0) eqn:H0; [by apply Qeq_bool_iff in H0|].
  apply Qred_correct.
Qed.

Lemma fl_0 (x : Q) : (x == 0)%Q → fl x = 0%Q.
Proof. intros Hx%Qeq_bool_iff. unfold fl. by rewrite Hx. Qed.

Lemma fl_nonneg (x : Q) : (0 <= x)%Q → (0 <= fl x)%Q.
Proof.
  intros Hx. destruct (Qeq_dec x 0) as [H0|H0]; [by rewrite fl_0|].
  rewrite fl_unfold by done.
  set (u := (2 ^ _)%Q). assert (0 < u)%Q as Hu by apply pow2_pos.
  assert (0 ≤ round_half_even (x / u))%Z as Hr.
  { rewrite <- (round_half_even_Z 0). apply round_half_even_mono.
    change (inject_Z 0) with 0%Q. apply Qle_shift_div_l; [done|]. lra. }
  rewrite Zle_Qle in Hr. change (inject_Z 0) with 0%Q in Hr. nra.
Qed.

Lemma Qabs_nonneg_eq (x : Q) : (0 <= x)%Q → Qabs x = x.
Proof.
  destruct x as [n d]. unfold Qle. cbn [Qnum Qden Qabs]. intros H.
  f_equal. apply Z.abs_eq. lia.
Qed.

(** Rounding is monotone. *)
Lemma fl_mono (x y : Q) : (0 <= x)%Q → (x <= y)%Q → (fl x <= fl y)%Q.
Proof.
  intros Hx Hxy. destruct (Qeq_dec x 0) as [Hx0|Hx0].
  { rewrite (fl_0 x) by done. apply fl_nonneg. lra. }
  assert (0 < x)%Q as Hxp by lra. assert (0 < y)%Q as Hyp by lra.
  rewrite (fl_unfold x) by done. rewrite (fl_unfold y) by lra.
  rewrite !Qabs_nonneg_eq by lra.
  pose proof (ilog2_mono x y Hxp Hxy) as Hlog.
  set (ex := Z.max (ilog2 x) (-1022)). set (ey := Z.max (ilog2 y) (-1022)).
  pose proof (pow2_pos (ex - 52)) as Hux.
  pose proof (pow2_pos (ey - 52)) as Huy.
  destruct (decide (ex = ey)) as [Heq|Hne].
  - rewrite <- Heq. set (u := (2 ^ (ex - 52))%Q) in *.
    assert (round_half_even (x / u) ≤ round_half_even (y / u))%Z as Hr.
    { apply round_half_even_mono. apply Qle_shift_div_l; [done|].
      unfold Qdiv. rewrite <- Qmult_assoc, (Qmult_comm (/ u)).
      rewrite Qmult_inv_r by lra. lra. }
    rewrite Zle_Qle in Hr. nra.
  - assert (ex < ey)%Z as Hlt by lia.
    assert (ey = ilog2 y) as Hey by lia.
    destruct (ilog2_spec x Hxp) as [_ Hx2].
    destruct (ilog2_spec y Hyp) as [Hy1 _]. rewrite <- Hey in Hy1.
    assert (x < 2 ^ (ex + 1))%Q as Hx3.
    { pose proof (pow2_le (ilog2 x + 1) (ex + 1) ltac:(lia)). lra. }
    assert (2 ^ (ex + 1) == 2 ^ 53 * 2 ^ (ex - 52))%Q as E1.
    { rewrite <- pow2_plus. by replace (53 + (ex - 52))%Z with (ex + 1)%Z by lia. }
    assert (2 ^ ey == 2 ^ 52 * 2 ^ (ey - 52))%Q as E2.
    { rewrite <- pow2_plus. by replace (52 + (ey - 52))%Z with ey by lia. }
    assert (round_half_even (x / 2 ^ (ex - 52)) ≤ 2 ^ 53)%Z as Hrx.
    { rewrite <- (round_half_even_Z (2 ^ 53)). apply round_half_even_mono.
      apply Qle_shift_div_r; [done|]. rewrite pow2_Z by done. lra. }
    assert (2 ^ 52 ≤ round_half_even (y / 2 ^ (ey - 52)))%Z as Hry.
    { rewrite <- (round_half_even_Z (2 ^ 52)). apply round_half_even_mono.
      apply Qle_shift_div_l; [done|]. rewrite pow2_Z by done. lra. }
    rewrite Zle_Qle in Hrx, Hry.
    rewrite pow2_Z in Hrx, Hry by done.
    pose proof (pow2_le (ex + 1) ey ltac:(lia)).
    set (rx := inject_Z (round_half_even (x / 2 ^ (ex - 52)))) in *.
    set (ry := inject_Z (round_half_even (y / 2 ^ (ey - 52)))) in *.
    assert (rx * 2 ^ (ex - 52) <= 2 ^ (ex + 1))%Q by (rewrite E1; nra).
    assert (2 ^ ey <= ry * 2 ^ (ey - 52))%Q by (rewrite E2; nra).
    lra.
Qed.
End float_facts.

(** ** The graph container *)

Section nx_facts.
Import nx.
Implicit Types G : DiGraph.
Implicit Types m : gmap string (gmap string attrs).

Lemma edge_adjacent G u v : edge G u v ↔ adjacent (g_succ G) u v.
Proof. done. Qed.
Lemma pedge_adjacent G u v : pedge G u v ↔ adjacent (g_pred G) v u.
Proof. done. Qed.

Lemma contains_true G n : contains G n = true ↔ n ∈ dom (g_node G).
Proof. unfold contains. by rewrite bool_decide_eq_true, elem_of_dom. Qed.

Lemma contains_false G n : contains G n = false ↔ n ∉ dom (g_node G).
Proof. unfold contains. by rewrite bool_decide_eq_false, elem_of_dom. Qed.

Lemma has_edge_true G u v : has_edge G u v = true ↔ edge G u v.
Proof.
  unfold has_edge, edge, adjacent. destruct (g_succ G !! u) as [nbrs|]; split.
  - intros ?%bool_decide_eq_true. eauto.
  - intros (? & [= <-] & ?). by apply bool_decide_eq_true.
  - done.
  - by intros (? & ? & ?).
Qed.

Lemma adjacent_insert_empty m n a b :
  m !! n = None → adjacent (<[n := ∅]> m) a b ↔ adjacent m a b.
Proof.
  intros Hn. unfold adjacent. destruct (decide (n = a)) as [->|Hne].
  - rewrite lookup_insert_eq, Hn. split.
    + intros (? & [= <-] & Hb). rewrite lookup_empty in Hb. by destruct Hb.
    + by intros (? & ? & ?).
  - by rewrite lookup_insert_ne.
Qed.

Lemma adjacent_alter_insert m u v (d : attrs) a b :
  is_Some (m !! u) →
  adjacent (alter (insert v d) u m) a b ↔ adjacent m a b ∨ (a = u ∧ b = v).
Proof.
  intros [nb Hu]. unfold adjacent. destruct (decide (u = a)) as [<-|Hne].
  - rewrite lookup_alter_eq, Hu. simpl. split.
    + intros (? & [= <-] & Hb). apply lookup_insert_is_Some in Hb.
      destruct Hb as [->|[_ Hb]]; eauto.
    + intros [(? & [= <-] & Hb)|[_ ->]]; eexists; split; try done.
      * apply lookup_insert_is_Some. destruct (decide (v = b)); eauto.
      * rewrite lookup_insert_eq. eauto.
  - rewrite lookup_alter_ne by done. split; [eauto|].
    intros [?|[? _]]; [done|congruence].
Qed.

Lemma adjacent_alter_delete m u v a b :
  adjacent (alter (delete v) u m) a b ↔ adjacent m a b ∧ ¬ (a = u ∧ b = v).
Proof.
  unfold adjacent. destruct (decide (u = a)) as [<-|Hne].
  - rewrite lookup_alter_eq. destruct (m !! u) as [nb|] eqn:Hu; simpl.
    + split.
      * intros (? & [= <-] & Hb). apply lookup_delete_is_Some in Hb.
        destruct Hb as [Hvb Hb]. split; [eauto|]. intros [_ ->]. done.
      * intros [(? & [= <-] & Hb) Hn]. eexists; split; [done|].
        apply lookup_delete_is_Some. split; [|done]. intros ->. by apply Hn.
    + split; [by intros (? & ? & ?)|by intros [(? & ? & ?) _]].
  - rewrite lookup_alter_ne by done. split; [|by intros [? _]].
    intros H. split; [done|]. intros [? _]. congruence.
Qed.

Lemma adjacent_delete m n a b :
  adjacent (delete n m) a b ↔ adjacent m a b ∧ a ≠ n.
Proof.
  unfold adjacent. destruct (decide (n = a)) as [<-|Hne].
  - rewrite lookup_delete_eq. split; [by intros (? & ? & ?)|by intros [_ ?]].
  - rewrite lookup_delete_ne by done. split; [|by intros [? _]].
    intros H. split; [done|congruence].
Qed.

Lemma adjacent_foldr_delete m n (l : list string) a b :
  adjacent (foldr (λ u, alter (delete n) u) m l) a b
  ↔ adjacent m a b ∧ ¬ (a ∈ l ∧ b = n).
Proof.
  induction l as [|x l IH]; simpl.
  - split; [|by intros [? _]]. intros H. split; [done|].
    intros [?%elem_of_nil _]. done.
  - rewrite adjacent_alter_delete, IH. rewrite elem_of_cons. tauto.
Qed.

Lemma dom_foldr_alter m n (l : list string) :
  dom (foldr (λ u, alter (delete n) u) m l) = dom m.
Proof. induction l as [|x l IH]; simpl; [done|]. by rewrite dom_alter_L. Qed.

Lemma adjacent_keys m a b :
  adjacent m a b ↔ b ∈ keys (default ∅ (m !! a)).
Proof.
  unfold adjacent. rewrite elem_of_keys. destruct (m !! a) as [nb|]; simpl.
  - split; [by intros (? & [= <-] & ?)|eauto].
  - rewrite lookup_empty. split; [by intros (? & ? & ?)|by intros []].
Qed.

(** Edges join nodes. *)
Lemma edge_source G u v : wf G → edge G u v → u ∈ dom (g_node G).
Proof.
  intros HG (nb & Hu & _). rewrite <- (wf_succ_dom _ HG).
  apply elem_of_dom. eauto.
Qed.

Lemma edge_target G u v : wf G → edge G u v → v ∈ dom (g_node G).
Proof.
  intros HG He. apply (wf_mirror _ HG) in He as (pb & Hv & _).
  rewrite <- (wf_pred_dom _ HG). apply elem_of_dom. eauto.
Qed.

Lemma successors_Ok G n :
  wf G → n ∈ dom (g_node G) →
  ∃ nbrs, g_succ G !! n = Some nbrs ∧ successors G n = Ok (keys nbrs).
Proof.
  intros HG Hn. rewrite <- (wf_succ_dom _ HG) in Hn.
  apply elem_of_dom in Hn as [nbrs Hn]. exists nbrs.
  unfold successors. by rewrite Hn.
Qed.

Lemma successors_edge G n l v :
  successors G n = Ok l → v ∈ l ↔ edge G n v.
Proof.
  unfold successors, edge, adjacent. destruct (g_succ G !! n) as [nbrs|]; [|done].
  intros [= <-]. rewrite elem_of_keys. split; [eauto|].
  by intros (? & [= <-] & ?).
Qed.

(** *** The invariant holds initially and is kept by every mutation. *)

Lemma wf_empty : wf empty.
Proof.
  split; [done|done|]. intros u v. unfold edge, pedge, adjacent. simpl.
  split; intros (? & H & _); by rewrite lookup_empty in H.
Qed.

Lemma wf_add_node n attr G : wf G → wf (add_node n attr G).
Proof.
  intros [Hs Hp Hm]. unfold add_node.
  destruct (g_node G !! n) as [old|] eqn:Hn.
  - split; simpl; [| |done].
    + rewrite dom_insert_L, Hs. apply elem_of_dom_2 in Hn.
      symmetry. by apply subseteq_union_1_L, singleton_subseteq_l.
    + rewrite dom_insert_L, Hp. apply elem_of_dom_2 in Hn.
      symmetry. by apply subseteq_union_1_L, singleton_subseteq_l.
  - assert (g_succ G !! n = None) as Hsn.
    { apply not_elem_of_dom. rewrite Hs. by apply not_elem_of_dom. }
    assert (g_pred G !! n = None) as Hpn.
    { apply not_elem_of_dom. rewrite Hp. by apply not_elem_of_dom. }
    split; simpl.
    + by rewrite !dom_insert_L, Hs.
    + by rewrite !dom_insert_L, Hp.
    + intros u v. rewrite edge_adjacent, pedge_adjacent. simpl.
      rewrite !adjacent_insert_empty by done. apply Hm.
Qed.

Lemma wf_ensure_node n G : wf G → wf (ensure_node n G).
Proof.
  intros [Hs Hp Hm]. unfold ensure_node.
  destruct (g_succ G !! n) as [?|] eqn:Hsn; [done|].
  assert (g_pred G !! n = None) as Hpn.
  { apply not_elem_of_dom. rewrite Hp, <- Hs. by apply not_elem_of_dom. }
  split; simpl.
  + by rewrite !dom_insert_L, Hs.
  + by rewrite !dom_insert_L, Hp.
  + intros u v. rewrite edge_adjacent, pedge_adjacent. simpl.
    rewrite !adjacent_insert_empty by done. apply Hm.
Qed.

Lemma ensure_node_succ n G : is_Some (g_succ (ensure_node n G) !! n).
Proof.
  unfold ensure_node. destruct (g_succ G !! n) eqn:Hn; [by rewrite Hn|].
  simpl. rewrite lookup_insert_eq. eauto.
Qed.

Lemma ensure_node_keeps n n' G :
  is_Some (g_succ G !! n') → is_Some (g_succ (ensure_node n G) !! n').
Proof.
  intros H. unfold ensure_node. destruct (g_succ G !! n) eqn:Hn; [done|].
  simpl. apply lookup_insert_is_Some. destruct (decide (n = n')); eauto.
Qed.

Lemma wf_add_edge u v attr G : wf G → wf (add_edge u v attr G).
Proof.
  intros HG. unfold add_edge.
  pose proof (wf_ensure_node v _ (wf_ensure_node u _ HG)) as [Hs Hp Hm].
  pose proof (ensure_node_keeps v u _ (ensure_node_succ u G)) as Hu.
  pose proof (ensure_node_succ v (ensure_node u G)) as Hv.
  set (G1 := ensure_node v (ensure_node u G)) in *.
  assert (is_Some (g_pred G1 !! v)) as Hpv.
  { apply elem_of_dom. rewrite Hp, <- Hs. by apply elem_of_dom. }
  split; simpl.
  - by rewrite dom_alter_L.
  - by rewrite dom_alter_L.
  - intros a b. rewrite edge_adjacent, pedge_adjacent. simpl.
    rewrite !adjacent_alter_insert by done.
    specialize (Hm a b). rewrite edge_adjacent, pedge_adjacent in Hm. tauto.
Qed.

Lemma wf_remove_edge u v G G' :
  wf G → remove_edge u v G = Ok G' → wf G'.
Proof.
  intros [Hs Hp Hm]. unfold remove_edge.
  destruct (has_edge G u v); [|done]. intros [= <-]. split; simpl.
  - by rewrite dom_alter_L.
  - by rewrite dom_alter_L.
  - intros a b. rewrite edge_adjacent, pedge_adjacent. simpl.
    rewrite !adjacent_alter_delete.
    specialize (Hm a b). rewrite edge_adjacent, pedge_adjacent in Hm. tauto.
Qed.

Lemma wf_remove_node n G G' :
  wf G → remove_node n G = Ok G' → wf G'.
Proof.
  intros [Hs Hp Hm]. unfold remove_node.
  destruct (g_succ G !! n) as [nbrs|] eqn:Hn; [|done]. intros [= <-].
  split; simpl.
  - by rewrite dom_foldr_alter, !dom_delete_L, Hs.
  - by rewrite dom_delete_L, dom_foldr_alter, dom_delete_L, Hp.
  - intros a b. rewrite edge_adjacent, pedge_adjacent. simpl.
    rewrite adjacent_delete, !adjacent_foldr_delete, adjacent_delete.
    rewrite <- adjacent_keys, adjacent_foldr_delete.
    pose proof (Hm a b) as Hab. pose proof (Hm a n) as Han.
    pose proof (Hm n b) as Hnb.
    rewrite edge_adjacent, pedge_adjacent in Hab, Han, Hnb.
    assert (b ∈ keys nbrs ↔ adjacent (g_succ G) n b) as ->.
    { rewrite adjacent_keys, Hn. done. }
    destruct (decide (a = n)) as [->|?], (decide (b = n)) as [->|?];
      tauto.
Qed.
End nx_facts.

(** A loop invariant may mention the part of the list already visited. *)
Lemma for_each_prefix_inv {A S} (body : S → A → result S)
    (P : list A → S → Prop) (xs : list A) (acc : S) :
  P [] acc →
  (∀ pre x s, P pre s → x ∈ xs → ∃ s', body s x = Ok s' ∧ P (pre ++ [x]) s') →
  ∃ s', for_each body xs acc = Ok s' ∧ P xs s'.
Proof.
  intros Hacc Hbody.
  cut (∀ pre ys acc, P pre acc → ys ⊆ xs →
         ∃ s', for_each body ys acc = Ok s' ∧ P (pre ++ ys) s').
  { intros H. apply (H [] xs acc); done. }
  intros pre ys. revert pre. induction ys as [|y ys IH]; intros pre a Ha Hsub.
  - simpl. rewrite app_nil_r. eauto.
  - simpl. destruct (Hbody pre y a Ha) as (s' & -> & Hs').
    { apply Hsub. by left. }
    simpl. rewrite cons_middle, app_assoc. apply IH; [done|].
    intros z Hz. apply Hsub. by right.
Qed.

(** ** The graph store *)

Section graph_store.
Import nx SocialNetwork Examples.
Implicit Types self : SocialNetwork.t.

Lemma wf_init : wf (graph init).
Proof. apply wf_empty. Qed.

Lemma wf_add_user user attributes self :
  wf (graph self) → wf (graph (exec (add_user user attributes) self)).
Proof.
  intros H. unfold exec, add_user.
  destruct (keyword_clash _ _); [done|]. by apply wf_add_node.
Qed.

Lemma wf_add_friendship user1 user2 attributes self :
  wf (graph self) →
  wf (graph (exec (add_friendship user1 user2 attributes) self)).
Proof.
  intros H. unfold exec, add_friendship.
  destruct (negb (contains (graph self) user1)); [done|].
  destruct (negb (contains (graph self) user2)); [done|].
  destruct (keyword_clash _ _); [done|]. by apply wf_add_edge.
Qed.

Lemma wf_remove_user user self :
  wf (graph self) → wf (graph (exec (remove_user user) self)).
Proof.
  intros H. unfold exec, remove_user.
  destruct (contains (graph self) user); [|done].
  destruct (remove_node user (graph self)) as [G'|] eqn:HG'; [|done].
  by eapply wf_remove_node.
Qed.

Lemma wf_remove_friendship user1 user2 self :
  wf (graph self) → wf (graph (exec (remove_friendship user1 user2) self)).
Proof.
  intros H. unfold exec, remove_friendship.
  destruct (has_edge (graph self) user1 user2); [|done].
  destruct (remove_edge user1 user2 (graph self)) as [G'|] eqn:HG'; [|done].
  by eapply wf_remove_edge.
Qed.

Lemma wf_chain_ABC : wf (graph chain_ABC).
Proof.
  unfold chain_ABC.
  do 2 apply wf_add_friendship. do 3 apply wf_add_user. apply wf_init.
Qed.

(** C3. [add_friendship] with an endpoint that is not a node raises the
    not-found [ValueError] for the first missing endpoint and leaves the
    store exactly as it was. *)
Theorem add_friendship_missing_endpoint self user1 user2 attributes :
  contains (graph self) user1 = false ∨ contains (graph self) user2 = false →
  ∃ user, (user = user1 ∨ user = user2)
          ∧ contains (graph self) user = false
          ∧ add_friendship user1 user2 attributes self
            = (Raise (not_found user), self).
Proof.
  intros H. unfold add_friendship.
  destruct (contains (graph self) user1) eqn:H1; simpl.
  - destruct H as [?|H2]; [done|]. rewrite H2. simpl.
    exists user2. auto.
  - exists user1. auto.
Qed.

Lemma add_friendship_missing_endpoint_witness :
  ∃ user, (user = "A" ∨ user = "Zed")
          ∧ contains (graph chain_ABC) user = false
          ∧ add_friendship "A" "Zed" None chain_ABC
            = (Raise (not_found user), chain_ABC).
Proof.
  apply (add_friendship_missing_endpoint chain_ABC "A" "Zed" None).
  right. vm_compute. reflexivity.
Defined.

Lemma add_node_g_node n (attr : attrs) G :
  g_node (add_node n attr G)
  = <[n := attr ∪ default ∅ (g_node G !! n)]> (g_node G).
Proof. unfold add_node. by destruct (g_node G !! n). Qed.

Lemma with_name_supplied user (attributes : attrs) k v :
  attributes !! k = Some v → with_name user attributes !! k = Some v.
Proof.
  intros Hk. unfold with_name.
  destruct (decide (is_Some (attributes !! "name"))) as [_|Hd]; [done|].
  rewrite lookup_insert_ne; [done|]. intros <-. apply Hd. eauto.
Qed.

Lemma with_name_default user (attributes : attrs) :
  attributes !! "name" = None →
  with_name user attributes !! "name" = Some (PStr user).
Proof.
  intros Hk. unfold with_name.
  destruct (decide (is_Some (attributes !! "name"))) as [Hd|_].
  - rewrite Hk in Hd. by destruct Hd.
  - by rewrite lookup_insert_eq.
Qed.

Lemma with_name_other user (attributes : attrs) k :
  attributes !! k = None → k ≠ "name" → with_name user attributes !! k = None.
Proof.
  intros Hk Hne. unfold with_name.
  destruct (decide (is_Some (attributes !! "name"))); [done|].
  by rewrite lookup_insert_ne.
Qed.

Lemma keyword_clash_with_name user (attributes : attrs) :
  keyword_clash add_node_parameters (with_name user attributes)
  = keyword_clash add_node_parameters attributes.
Proof.
  unfold with_name. destruct (decide _); [done|].
  unfold keyword_clash, add_node_parameters. cbn [existsb].
  by rewrite !lookup_insert_ne.
Qed.

(** C6, as the code has it.  The attributes reach [add_node] as keyword
    arguments, so [add_user] raises [TypeError] and stores nothing when
    one of them is named [self] or [node_for_adding].  Otherwise it
    returns and the handle is a node afterwards.  Its stored attributes
    are the supplied ones (with ["name"] defaulted to the handle) laid
    over the ones it had before: every supplied attribute is stored, a
    missing ["name"] is stored as the handle, and an attribute the node
    already had under a key that is not supplied again keeps its previous
    value.  Other nodes keep their attributes. *)
Theorem add_user_merges self user (attributes : option attrs) :
  let supplied := default ∅ attributes in
  let old := default ∅ (g_node (graph self) !! user) in
  (keyword_clash add_node_parameters supplied = true →
   add_user user attributes self = (Raise TypeError, self))
  ∧ (keyword_clash add_node_parameters supplied = false →
     ∃ self' stored,
       add_user user attributes self = (Ok (), self')
       ∧ contains (graph self') user = true
       ∧ g_node (graph self') !! user = Some stored
       ∧ stored = with_name user supplied ∪ old
       ∧ (∀ k v, supplied !! k = Some v → stored !! k = Some v)
       ∧ (supplied !! "name" = None → stored !! "name" = Some (PStr user))
       ∧ (∀ k, supplied !! k = None → k ≠ "name" → stored !! k = old !! k)
       ∧ (∀ n, n ≠ user →
            g_node (graph self') !! n = g_node (graph self) !! n)).
Proof.
  intros supplied old. unfold add_user. fold supplied.
  rewrite keyword_clash_with_name. split; intros ->; [done|].
  eexists _, (with_name user supplied ∪ old).
  split; [reflexivity|]. simpl. unfold contains.
  rewrite add_node_g_node. fold supplied old. rewrite lookup_insert_eq.
  split; [by rewrite bool_decide_eq_true; eauto|].
  split; [done|]. split; [done|]. split; [|split; [|split]].
  - intros k v Hk. by apply lookup_union_Some_l, with_name_supplied.
  - intros Hk. by apply lookup_union_Some_l, with_name_default.
  - intros k Hk Hne. by rewrite lookup_union_r by by apply with_name_other.
  - intros n Hn. by rewrite lookup_insert_ne.
Qed.

Lemma add_user_merges_witness :
  let supplied : attrs := {[ "bio" := PStr "hello" ]} in
  let old := default ∅ (g_node (graph aged_A) !! "A") in
  ∃ self' stored,
    add_user "A" (Some supplied) aged_A = (Ok (), self')
    ∧ contains (graph self') "A" = true
    ∧ g_node (graph self') !! "A" = Some stored
    ∧ stored = with_name "A" supplied ∪ old
    ∧ (∀ k v, supplied !! k = Some v → stored !! k = Some v)
    ∧ (supplied !! "name" = None → stored !! "name" = Some (PStr "A"))
    ∧ (∀ k, supplied !! k = None → k ≠ "name" → stored !! k = old !! k)
    ∧ (∀ n, n ≠ "A" → g_node (graph self') !! n = g_node (graph aged_A) !! n).
Proof.
  intros supplied old.
  refine (proj2 (add_user_merges aged_A "A" (Some supplied)) _).
  by vm_compute.
Defined.

(** C6, the claim as written fails: a node added with an age and added
    again with only a bio still has its age, so its attributes are not the
    newly supplied ones. *)
Lemma add_user_again_keeps_old_values :
  g_node (graph readded_A) !! "A" ≫= (.!! "age") = Some (PInt 30)
  ∧ g_node (graph readded_A) !! "A"
    ≠ Some (<["name" := PStr "A"]> {[ "bio" := PStr "hello" ]}).
Proof.
  split; [by vm_compute|].
  intros H. assert (Some (PInt 30) = None) as Habs; [|done].
  change (Some (PInt 30))
    with (g_node (graph readded_A) !! "A" ≫= (.!! "age")).
  rewrite H. by vm_compute.
Qed.

(** C10. For a handle that is not a node, [recommend_friends] returns the
    empty list and leaves the store as it was, where the mutating calls
    [remove_user] and [add_friendship] raise the not-found error. *)
Theorem recommend_friends_unknown_user self user :
  contains (graph self) user = false →
  recommend_friends user self = (Ok [], self)
  ∧ remove_user user self = (Raise (not_found user), self)
  ∧ ∀ other attributes,
      add_friendship user other attributes self
      = (Raise (not_found user), self).
Proof.
  intros H. unfold recommend_friends, remove_user, add_friendship.
  by rewrite H.
Qed.

Lemma recommend_friends_unknown_user_witness :
  recommend_friends "Zed" chain_ABC = (Ok [], chain_ABC)
  ∧ remove_user "Zed" chain_ABC = (Raise (not_found "Zed"), chain_ABC)
  ∧ ∀ other attributes,
      add_friendship "Zed" other attributes chain_ABC
      = (Raise (not_found "Zed"), chain_ABC).
Proof.
  apply (recommend_friends_unknown_user chain_ABC "Zed").
  vm_compute. reflexivity.
Defined.

(** *** [recommend_friends] *)

Lemma insert_desc_perm x l : insert_desc x l ≡ₚ x :: l.
Proof.
  induction l as [|y l IH]; simpl; [done|].
  destruct (decide _); [|done]. rewrite IH. apply Permutation_swap.
Qed.

Lemma sorted_desc_perm l : sorted_desc l ≡ₚ l.
Proof.
  induction l as [|x l IH]; simpl; [done|].
  fold (sorted_desc l). by rewrite insert_desc_perm, IH.
Qed.

Lemma insert_desc_sorted x l :
  StronglySorted (λ a b, b.2 ≤ a.2) l →
  StronglySorted (λ a b, b.2 ≤ a.2) (insert_desc x l).
Proof.
  induction 1 as [|y l Hl IH Hy]; simpl.
  - repeat constructor.
  - destruct (decide (x.2 < y.2)) as [Hlt|Hge].
    + constructor; [done|].
      rewrite insert_desc_perm. constructor; [lia|done].
    + constructor; [by constructor|]. constructor; [lia|].
      eapply Forall_impl; [exact Hy|]. simpl. intros; lia.
Qed.

Lemma sorted_desc_sorted l : StronglySorted (λ a b, b.2 ≤ a.2) (sorted_desc l).
Proof.
  induction l as [|x l IH]; simpl; [constructor|].
  by apply insert_desc_sorted.
Qed.

(** The inner loop over the successors of one friend: the count of a
    friend of that friend goes up by one, once, when it passes the test. *)
Lemma count_mutual_fold user (current_friends : gset string)
    (fofs : list string) (mutual_friends : gmap string nat) c :
  NoDup fofs →
  foldl (count_mutual user current_friends) mutual_friends fofs !! c
  = if decide (c ≠ user ∧ (c ∉ current_friends) ∧ c ∈ fofs)
    then Some (S (default 0 (mutual_friends !! c)))
    else mutual_friends !! c.
Proof.
  intros Hnd. revert mutual_friends.
  induction Hnd as [|x fofs Hx _ IH]; intros m; simpl.
  - rewrite decide_False; [done|]. by intros (_ & _ & ?%elem_of_nil).
  - rewrite IH. unfold count_mutual.
    destruct (decide (c = x)) as [->|Hne].
    + destruct (decide (x ≠ user ∧ x ∉ current_friends)) as [[H1 H2]|Hno].
      * rewrite decide_False by (by intros (_ & _ & ?)).
        rewrite lookup_insert_eq, decide_True; [done|].
        split; [done|]. split; [done|]. by left.
      * rewrite decide_False by (intros (? & ? & _); by apply Hno).
        rewrite decide_False; [done|]. intros (? & ? & _). by apply Hno.
    + assert ((if decide (x ≠ user ∧ x ∉ current_friends)
               then <[x:=S (default 0 (m !! x))]> m else m) !! c = m !! c)
        as ->.
      { destruct (decide (x ≠ user ∧ x ∉ current_friends)); [|done].
        by rewrite lookup_insert_ne by congruence. }
      destruct (decide (c ≠ user ∧ (c ∉ current_friends) ∧ c ∈ fofs))
        as [(H1 & H2 & H3)|Hno].
      * rewrite decide_True; [done|]. split; [done|]. split; [done|]. by right.
      * rewrite decide_False; [done|]. intros (H1 & H2 & H3).
        apply Hno. split; [done|]. split; [done|].
        by apply elem_of_cons in H3 as [?|?].
Qed.

Lemma mutual_among_snoc G (friends : list string) friend c :
  mutual_among G (friends ++ [friend]) c
  = mutual_among G friends c + (if has_edge G friend c then 1 else 0).
Proof.
  unfold mutual_among. rewrite filter_app, length_app. f_equal.
  rewrite filter_cons, filter_nil.
  destruct (has_edge G friend c); by destruct (decide _).
Qed.

Lemma mutual_among_pos G (friends : list string) c :
  mutual_among G friends c ≠ 0 ↔ ∃ friend, friend ∈ friends ∧ edge G friend c.
Proof.
  unfold mutual_among. split.
  - destruct (filter _ friends) as [|x l'] eqn:Hf; [done|]. intros _.
    assert (x ∈ filter (λ friend, has_edge G friend c = true) friends)
      as [? ?]%list_elem_of_filter by (rewrite Hf; by left).
    exists x. split; [done|]. by apply has_edge_true.
  - intros (x & Hx & HP%has_edge_true) Hlen.
    assert (x ∈ filter (λ friend, has_edge G friend c = true) friends)
      as Hin by by apply list_elem_of_filter.
    apply nil_length_inv in Hlen. rewrite Hlen in Hin.
    by apply elem_of_nil in Hin.
Qed.

Lemma mutual_among_perm G (l1 l2 : list string) c :
  l1 ≡ₚ l2 → mutual_among G l1 c = mutual_among G l2 c.
Proof. intros H. unfold mutual_among. by rewrite H. Qed.

(** What [recommendations] returns: one pair per candidate, carrying the
    number of successors of [user] that lead to it, in descending order of
    that number. *)
Lemma recommendations_spec G user :
  wf G → contains G user = true →
  ∃ l, recommendations G user = Ok l
       ∧ (∀ c k, (c, k) ∈ l
                 ↔ candidate G user c ∧ k = mutual_connections G user c)
       ∧ NoDup l.*1
       ∧ StronglySorted (λ a b, b.2 ≤ a.2) l.
Proof.
  intros HG Hu. apply contains_true in Hu.
  destruct (successors_Ok G user HG Hu) as (nbrs & Hnbrs & Hsucc).
  unfold recommendations. rewrite Hsucc. simpl.
  set (current_friends := list_to_set (keys nbrs) : gset string).
  assert (∀ x, x ∈ current_friends ↔ edge G user x) as Hcur.
  { intros x. subst current_friends. rewrite elem_of_list_to_set.
    by apply successors_edge. }
  destruct (for_each_prefix_inv
    (λ mutual_friends friend,
       fofs ← successors G friend;
       Ok (foldl (count_mutual user current_friends) mutual_friends fofs))
    (λ pre (m : gmap string nat),
       ∀ c, m !! c
            = if decide (c ≠ user ∧ (c ∉ current_friends)
                         ∧ mutual_among G pre c ≠ 0)
              then Some (mutual_among G pre c) else None)
    (elements current_friends) ∅) as (mutual & -> & Hmutual).
  - intros c. rewrite lookup_empty, decide_False; [done|].
    by intros (_ & _ & ?).
  - intros pre friend m Hm Hfriend%elem_of_elements%Hcur.
    destruct (successors_Ok G friend HG (edge_target _ _ _ HG Hfriend))
      as (fnbrs & Hfn & Hf).
    rewrite Hf. simpl. eexists. split; [done|]. intros c.
    rewrite count_mutual_fold by apply NoDup_keys. rewrite Hm.
    assert (c ∈ keys fnbrs ↔ has_edge G friend c = true) as Hin.
    { rewrite has_edge_true. by apply (successors_edge G friend). }
    rewrite mutual_among_snoc.
    set (k := mutual_among G pre c).
    destruct (has_edge G friend c) eqn:He.
    + assert (c ∈ keys fnbrs) as Hc by by apply Hin.
      destruct (decide (c ≠ user ∧ c ∉ current_friends)) as [[H1 H2]|Hno].
      * rewrite decide_True by done.
        rewrite (decide_True (P := _ ∧ _ ∧ k + 1 ≠ 0))
          by (split; [done|]; split; [done|]; lia).
        f_equal. destruct (decide (c ≠ user ∧ (c ∉ current_friends) ∧ k ≠ 0));
          simpl; [lia|].
        destruct (decide (k = 0)) as [->|]; [done|tauto].
      * rewrite !decide_False by tauto. done.
    + assert (c ∉ keys fnbrs) as Hc by (intros ?%Hin; done).
      rewrite decide_False by tauto. by rewrite Nat.add_0_r.
  - simpl. eexists. split; [done|].
    assert (∀ c, mutual_among G (elements current_friends) c
                 = mutual_connections G user c) as Hcount.
    { intros c. unfold mutual_connections. rewrite Hnbrs. simpl.
      apply mutual_among_perm. subst current_friends.
      apply elements_list_to_set, NoDup_keys. }
    split; [|split; [|apply sorted_desc_sorted]].
    + intros c k. rewrite sorted_desc_perm, elem_of_map_to_list, Hmutual.
      rewrite Hcount. unfold candidate.
      assert (mutual_connections G user c ≠ 0
              ↔ ∃ friend, edge G user friend ∧ edge G friend c) as Hpos.
      { unfold mutual_connections. rewrite mutual_among_pos, Hnbrs. simpl.
        split; intros (f & H1 & H2); exists f; (split; [|done]);
          by apply (successors_edge G user (keys nbrs)). }
      rewrite <- Hpos, <- Hcur.
      destruct (decide _) as [(H1 & H2 & H3)|Hno].
      * split; [by intros [= <-]|by intros [_ ->]].
      * split; [done|]. intros [(H1 & H2 & H3) _]. tauto.
    + rewrite sorted_desc_perm. apply NoDup_fst_map_to_list.
Qed.

(** C8. For a node [user] of a well-formed graph, [recommend_friends]
    returns a list of pairs (candidate, count) in which every candidate is
    two directed hops away from [user] (a successor of a successor), is
    neither [user] nor a direct successor of [user], and the counts are in
    descending order.  The list has one pair for each such candidate, the
    count being the number of successors of [user] that lead to it; the
    store is unchanged. *)
Theorem recommend_friends_spec self user :
  wf (graph self) → contains (graph self) user = true →
  ∃ l, recommend_friends user self = (Ok l, self)
       ∧ (∀ c k, (c, k) ∈ l →
            (∃ friend, edge (graph self) user friend
                       ∧ edge (graph self) friend c)
            ∧ c ≠ user ∧ ¬ edge (graph self) user c)
       ∧ StronglySorted (λ a b, b.2 ≤ a.2) l
       ∧ (∀ c k, (c, k) ∈ l
                 ↔ candidate (graph self) user c
                   ∧ k = mutual_connections (graph self) user c)
       ∧ NoDup l.*1.
Proof.
  intros HG Hu. unfold recommend_friends. rewrite Hu. simpl.
  destruct (recommendations_spec _ _ HG Hu) as (l & -> & Hl & Hnd & Hs).
  exists l. split; [done|]. split; [|done]. intros c k Hck.
  by apply Hl in Hck as [Hc _].
Qed.

Lemma recommend_friends_spec_witness :
  ∃ l, recommend_friends "A" chain_ABC = (Ok l, chain_ABC)
       ∧ (∀ c k, (c, k) ∈ l →
            (∃ friend, edge (graph chain_ABC) "A" friend
                       ∧ edge (graph chain_ABC) friend c)
            ∧ c ≠ "A" ∧ ¬ edge (graph chain_ABC) "A" c)
       ∧ StronglySorted (λ a b, b.2 ≤ a.2) l
       ∧ (∀ c k, (c, k) ∈ l
                 ↔ candidate (graph chain_ABC) "A" c
                   ∧ k = mutual_connections (graph chain_ABC) "A" c)
       ∧ NoDup l.*1.
Proof.
  apply (recommend_friends_spec chain_ABC "A").
  - apply wf_chain_ABC.
  - vm_compute. reflexivity.
Defined.

(** The scenario of the specification: on the chain A → B → C the only
    recommendation for A is C, through one mutual connection. *)
Example recommend_friends_chain :
  (recommend_friends "A" chain_ABC).1 = Ok [("C", 1)].
Proof. vm_compute. reflexivity. Qed.
End graph_store.

(** ** Information spread *)

Section spread_facts.
Import nx NetworkAnalytics.
Variable rand : nat → Q.
Variable G : DiGraph.
Variable probability : Q.
Hypothesis HG : wf G.

Implicit Types informed : gmap string bool.

Local Abbreviation always_hit := (NetworkAnalytics.always_hit rand probability).
Local Abbreviation never_hit := (NetworkAnalytics.never_hit rand probability).

Lemma elem_of_informed_users informed u :
  u ∈ informed_users informed ↔ informed !! u = Some true.
Proof.
  unfold informed_users. rewrite list_elem_of_fmap. split.
  - intros ([k b] & -> & Hin). apply list_elem_of_filter in Hin as [Hb Hin].
    simpl in *. subst b. by apply elem_of_map_to_list.
  - intros Hu. exists (u, true). split; [done|].
    apply list_elem_of_filter. split; [done|]. by apply elem_of_map_to_list.
Qed.

Lemma elem_of_uninformed informed x :
  x ∈ uninformed informed ↔ informed !! x = Some false.
Proof.
  unfold uninformed. rewrite elem_of_dom. split.
  - intros [b Hb]. apply map_lookup_filter_Some in Hb as [Hb Hf].
    simpl in Hf. by subst b.
  - intros Hx. exists false. by apply map_lookup_filter_Some.
Qed.

Lemma lookup_mark_informed informed (newly : list string) x :
  mark_informed informed newly !! x
  = if decide (x ∈ newly) then Some true else informed !! x.
Proof.
  unfold mark_informed. revert informed.
  induction newly as [|y l IH]; intros informed; simpl.
  - destruct (decide (x ∈ [])) as [H|]; [|done]. by apply elem_of_nil in H.
  - rewrite IH. destruct (decide (x ∈ l)) as [Hl|Hl].
    + rewrite decide_True; [done|]. by right.
    + destruct (decide (y = x)) as [->|Hne].
      * rewrite lookup_insert_eq, decide_True; [done|]. by left.
      * rewrite lookup_insert_ne by done. rewrite decide_False; [done|].
        intros [->|?]%elem_of_cons; done.
Qed.

(** The inner loop over the neighbours of one user. *)
Lemma try_spread_neighbors informed neighbors st :
  (∀ x, x ∈ neighbors → is_Some (informed !! x)) →
  ∃ st', for_each (try_spread rand probability informed) neighbors st = Ok st'
    ∧ (∀ x, x ∈ st'.1 →
         x ∈ st.1 ∨ (x ∈ neighbors ∧ informed !! x = Some false))
    ∧ (always_hit → ∀ x,
         x ∈ st.1 ∨ (x ∈ neighbors ∧ informed !! x = Some false) → x ∈ st'.1)
    ∧ (never_hit → st'.1 = st.1).
Proof.
  intros Hdom.
  apply (for_each_prefix_inv _
    (λ pre st',
       (∀ x, x ∈ st'.1 → x ∈ st.1 ∨ (x ∈ pre ∧ informed !! x = Some false))
       ∧ (always_hit → ∀ x,
            x ∈ st.1 ∨ (x ∈ pre ∧ informed !! x = Some false) → x ∈ st'.1)
       ∧ (never_hit → st'.1 = st.1))).
  - split; [auto|]. split; [|done].
    intros _ x [?|(?%elem_of_nil & _)]; done.
  - intros pre y s (Hsound & Hall & Hnone) Hy.
    destruct (Hdom y Hy) as [b Hb]. unfold try_spread. rewrite Hb.
    destruct b.
    + eexists. split; [done|]. split; [|split; [|done]].
      * intros x Hx. destruct (Hsound x Hx) as [?|[? ?]]; [by left|].
        right. split; [|done]. apply elem_of_app. by left.
      * intros Hhit x [?|[Hx Hf]]; [by apply Hall; auto|].
        apply elem_of_app in Hx as [Hx|Hx]; [by apply Hall; auto|].
        apply list_elem_of_singleton in Hx. congruence.
    + eexists. split; [done|]. simpl. split; [|split].
      * intros x Hx.
        assert (x ∈ s.1 ∨ x = y) as [Hx' | ->].
        { destruct (Qltb _ _); [|by left].
          apply elem_of_app in Hx as [?|?%list_elem_of_singleton]; auto. }
        -- destruct (Hsound x Hx') as [?|[? ?]]; [by left|].
           right. split; [|done]. apply elem_of_app. by left.
        -- right. split; [|done]. apply elem_of_app. right. by left.
      * intros Hhit x Hx. rewrite Hhit. apply elem_of_app.
        destruct Hx as [?|[Hx Hf]]; [left; by apply Hall; auto|].
        apply elem_of_app in Hx as [Hx|Hx]; [left; by apply Hall; auto|].
        by right.
      * intros Hno. rewrite Hno. by apply Hnone.
Qed.

(** One round: it returns, and [newly_informed] lies in the frontier; it
    is the whole frontier when every draw succeeds and is empty when none
    does. *)
Lemma spread_round_spec informed draws :
  dom informed = dom (g_node G) →
  ∃ newly draws',
    spread_round rand G probability informed draws = Ok (newly, draws')
    ∧ (∀ x, x ∈ newly → frontier G informed x)
    ∧ (always_hit → ∀ x, frontier G informed x → x ∈ newly)
    ∧ (never_hit → newly = []).
Proof.
  intros Hdom. unfold spread_round.
  destruct (for_each_prefix_inv
    (λ st user,
       neighbors ← successors G user;
       for_each (try_spread rand probability informed) neighbors st)
    (λ pre st,
       (∀ x, x ∈ st.1 → informed !! x = Some false
                         ∧ ∃ u, u ∈ pre ∧ edge G u x)
       ∧ (always_hit → ∀ u x, u ∈ pre → edge G u x →
            informed !! x = Some false → x ∈ st.1)
       ∧ (never_hit → st.1 = []))
    (informed_users informed) ([], draws))
    as ([newly draws'] & Hrun & Hsound & Hall & Hnone).
  - split; [|split; [|done]].
    + by intros x ?%elem_of_nil.
    + by intros _ u x ?%elem_of_nil.
  - intros pre user st (Hsound & Hall & Hnone) Huser.
    apply elem_of_informed_users in Huser.
    assert (user ∈ dom (g_node G)) as Hnode.
    { rewrite <- Hdom. apply elem_of_dom. eauto. }
    destruct (successors_Ok G user HG Hnode) as (nbrs & Hnbrs & Hsucc).
    rewrite Hsucc. simpl.
    assert (∀ x, x ∈ keys nbrs ↔ edge G user x) as Hedge.
    { intros x. by apply successors_edge. }
    destruct (try_spread_neighbors informed (keys nbrs) st)
      as (st' & Hst' & Hs' & Ha' & Hn').
    { intros x Hx. apply elem_of_dom. rewrite Hdom.
      apply (edge_target G user); [done|]. by apply Hedge. }
    exists st'. split; [done|]. split; [|split].
    + intros x Hx. destruct (Hs' x Hx) as [Hold|[Hnb Hf]].
      * destruct (Hsound x Hold) as (? & u & ? & ?). split; [done|].
        exists u. split; [|done]. apply elem_of_app. by left.
      * split; [done|]. exists user. split; [|by apply Hedge].
        apply elem_of_app. right. by left.
    + intros Hhit u x Hu Hux Hf. apply (Ha' Hhit).
      apply elem_of_app in Hu as [Hu|Hu].
      * left. by apply (Hall Hhit u).
      * apply list_elem_of_singleton in Hu as ->. right.
        split; [by apply Hedge|done].
    + intros Hno. rewrite (Hn' Hno). by apply Hnone.
  - exists newly, draws'. split; [done|]. simpl in *. split; [|split; [|done]].
    + intros x Hx. destruct (Hsound x Hx) as (Hf & u & Hu & Hux).
      split; [done|]. exists u. split; [|done].
      by apply elem_of_informed_users.
    + intros Hhit x (Hf & u & Hu & Hux). apply (Hall Hhit u); [|done|done].
      by apply elem_of_informed_users.
Qed.

Lemma dom_mark_informed informed (newly : list string) :
  (∀ x, x ∈ newly → x ∈ dom informed) →
  dom (mark_informed informed newly) = dom informed.
Proof.
  intros Hin. apply set_eq. intros x. rewrite !elem_of_dom.
  rewrite lookup_mark_informed. destruct (decide (x ∈ newly)) as [Hx|]; [|done].
  split; [|eauto]. intros _. apply elem_of_dom. by apply Hin.
Qed.

(** The loop returns; it never un-informs a user, whoever it informs is
    reachable from a user informed before, it changes nothing when no
    draw succeeds, and when every draw succeeds and there are more rounds
    than uninformed users it stops on a closed set. *)
Lemma spread_loop_spec rounds informed draws :
  dom informed = dom (g_node G) →
  ∃ m draws',
    spread_loop rand rounds G probability informed draws = Ok (m, draws')
    ∧ dom m = dom (g_node G)
    ∧ (∀ x, informed !! x = Some true → m !! x = Some true)
    ∧ (∀ x, m !! x = Some true →
         ∃ u, informed !! u = Some true ∧ rtc (edge G) u x)
    ∧ (never_hit → m = informed)
    ∧ (always_hit → size (uninformed informed) < rounds → closed G m).
Proof.
  revert informed draws.
  induction rounds as [|rounds IH]; intros informed draws Hdom; simpl.
  - exists informed, draws. split; [done|]. split; [done|]. split; [done|].
    split; [|split; [done|]].
    + intros x Hx. exists x. split; [done|]. apply rtc_refl.
    + intros _ ?. lia.
  - destruct (spread_round_spec informed draws Hdom)
      as (newly & draws' & -> & Hsound & Hall & Hnone).
    simpl. destruct newly as [|y newly].
    + exists informed, draws'. split; [done|]. split; [done|].
      split; [done|]. split; [|split; [done|]].
      * intros x Hx. exists x. split; [done|]. apply rtc_refl.
      * intros Hhit _ u x Hu Hux.
        assert (is_Some (informed !! x)) as [[] Hb]; [|done|].
        { apply elem_of_dom. rewrite Hdom. by apply (edge_target G u). }
        assert (x ∈ @nil string) as ?%elem_of_nil; [|done].
        apply (Hall Hhit). split; [done|]. eauto.
    + set (newly' := y :: newly) in *.
      assert (dom (mark_informed informed newly') = dom (g_node G)) as Hdom'.
      { rewrite dom_mark_informed; [done|]. intros x Hx.
        destruct (Hsound x Hx) as [Hf _]. apply elem_of_dom. eauto. }
      destruct (IH (mark_informed informed newly') draws' Hdom')
        as (m & d' & -> & Hm & Hkeep & Hreach & _ & Hclosed).
      exists m, d'. split; [done|]. split; [done|]. split; [|split; [|split]].
      * intros x Hx. apply Hkeep. rewrite lookup_mark_informed, Hx.
        by destruct (decide _).
      * intros x Hx. destruct (Hreach x Hx) as (u & Hu & Hux).
        rewrite lookup_mark_informed in Hu.
        destruct (decide (u ∈ newly')) as [Hin|_]; [|eauto].
        destruct (Hsound u Hin) as (_ & w & Hw & Hwu).
        exists w. split; [done|]. by eapply rtc_l.
      * intros Hno. by specialize (Hnone Hno).
      * intros Hhit Hsize. apply Hclosed; [done|].
        assert (uninformed (mark_informed informed newly')
                ⊂ uninformed informed) as Hsub%subset_size; [|lia].
        split.
        -- intros x. rewrite !elem_of_uninformed, lookup_mark_informed.
           by destruct (decide _).
        -- intros Hrev. specialize (Hrev y).
           rewrite !elem_of_uninformed, lookup_mark_informed in Hrev.
           rewrite decide_True in Hrev by (by left).
           destruct (Hsound y) as [Hy _]; [by left|]. by specialize (Hrev Hy).
Qed.
End spread_facts.

Section spread_claims.
Import nx SocialNetwork NetworkAnalytics Examples.
Implicit Types network : SocialNetwork.t.

Lemma random_source_always_hit rand : random_source rand → always_hit rand 1.
Proof.
  intros Hr i. destruct (Hr i) as [_ Hlt]. unfold Qltb.
  apply negb_true_iff. destruct (Qle_bool 1 (rand i)) eqn:Hle; [|done].
  apply Qle_bool_iff in Hle. by apply Qlt_not_le in Hlt.
Qed.

Lemma random_source_never_hit rand : random_source rand → never_hit rand 0.
Proof.
  intros Hr i. destruct (Hr i) as [Hle _]. unfold Qltb.
  apply negb_false_iff. by apply Qle_bool_iff.
Qed.

Lemma lookup_initial_informed G start_user x :
  initial_informed G start_user !! x = Some true ↔ x = start_user.
Proof.
  unfold initial_informed. destruct (decide (start_user = x)) as [->|Hne].
  - by rewrite lookup_insert_eq.
  - rewrite lookup_insert_ne, lookup_fmap by done.
    destruct (g_node G !! x); simpl; split; congruence.
Qed.

Lemma dom_initial_informed G start_user :
  start_user ∈ dom (g_node G) →
  dom (initial_informed G start_user) = dom (g_node G).
Proof.
  intros H. unfold initial_informed. rewrite dom_insert_L, dom_fmap_L.
  by apply subseteq_union_1_L, singleton_subseteq_l.
Qed.

Lemma simulate_unfold rand network start_user probability iterations :
  contains (graph network) start_user = true →
  simulate_information_spread rand network start_user probability iterations
  = (r ← spread_loop rand (Z.to_nat iterations) (graph network) probability
           (initial_informed (graph network) start_user) 0;
     Ok r.1).
Proof. intros H. unfold simulate_information_spread. by rewrite H. Qed.

(** C9. An unknown start user gives the empty dict.  For a start user in
    the graph, whatever the probability and the number of iterations, the
    call returns a dict whose keys are exactly the nodes; with probability
    0.0 the start user is the only key mapped to [True]. *)
Theorem spread_keys_and_probability_zero rand network start_user
    probability iterations :
  wf (graph network) → random_source rand →
  (contains (graph network) start_user = false →
     simulate_information_spread rand network start_user probability
       iterations = Ok ∅)
  ∧ (contains (graph network) start_user = true →
       (∃ informed,
          simulate_information_spread rand network start_user probability
            iterations = Ok informed
          ∧ dom informed = dom (g_node (graph network)))
       ∧ (∃ informed,
            simulate_information_spread rand network start_user 0
              iterations = Ok informed
            ∧ dom informed = dom (g_node (graph network))
            ∧ ∀ v, informed !! v = Some true ↔ v = start_user)).
Proof.
  intros HG Hrand. split.
  { intros H. unfold simulate_information_spread. by rewrite H. }
  intros Hin. pose proof Hin as Hnode%contains_true.
  pose proof (dom_initial_informed _ _ Hnode) as Hdom. split.
  - destruct (spread_loop_spec rand _ probability HG (Z.to_nat iterations)
                _ 0 Hdom) as (m & d & Hrun & Hm & _).
    exists m. by rewrite simulate_unfold, Hrun.
  - destruct (spread_loop_spec rand _ 0 HG (Z.to_nat iterations)
                _ 0 Hdom) as (m & d & Hrun & Hm & _ & _ & Hnone & _).
    exists m. rewrite simulate_unfold, Hrun by done.
    split; [done|]. split; [done|].
    rewrite (Hnone (random_source_never_hit _ Hrand)).
    apply lookup_initial_informed.
Qed.

Lemma spread_keys_and_probability_zero_witness :
  (contains (graph chain_ABC) "A" = false →
     simulate_information_spread (λ _, 1 # 2) chain_ABC "A" (1 # 2) 10 = Ok ∅)
  ∧ (contains (graph chain_ABC) "A" = true →
       (∃ informed,
          simulate_information_spread (λ _, 1 # 2) chain_ABC "A" (1 # 2) 10
          = Ok informed
          ∧ dom informed = dom (g_node (graph chain_ABC)))
       ∧ (∃ informed,
            simulate_information_spread (λ _, 1 # 2) chain_ABC "A" 0 10
            = Ok informed
            ∧ dom informed = dom (g_node (graph chain_ABC))
            ∧ ∀ v, informed !! v = Some true ↔ v = "A")).
Proof.
  apply (spread_keys_and_probability_zero (λ _, 1 # 2) chain_ABC "A"
           (1 # 2) 10).
  - apply wf_chain_ABC.
  - intros _. split; [by vm_compute|by vm_compute].
Defined.

(** C1. With probability 1.0 and at least as many iterations as there are
    nodes, the dict returned for a start user of the graph maps a node to
    [True] exactly when it is the start user or can be reached from it
    along directed edges, each followed from source to target. *)
Theorem spread_probability_one rand network start_user iterations :
  wf (graph network) → random_source rand →
  contains (graph network) start_user = true →
  (Z.of_nat (len (graph network)) ≤ iterations)%Z →
  ∃ informed,
    simulate_information_spread rand network start_user 1 iterations
    = Ok informed
    ∧ ∀ v, informed !! v = Some true
           ↔ v = start_user ∨ tc (edge (graph network)) start_user v.
Proof.
  intros HG Hrand Hin Hiter. pose proof Hin as Hnode%contains_true.
  pose proof (dom_initial_informed _ _ Hnode) as Hdom.
  destruct (spread_loop_spec rand _ 1 HG (Z.to_nat iterations) _ 0 Hdom)
    as (m & d & Hrun & Hm & Hkeep & Hreach & _ & Hclosed).
  exists m. rewrite simulate_unfold, Hrun by done. split; [done|].
  assert (closed (graph network) m) as Hcl.
  { apply Hclosed; [by apply random_source_always_hit|].
    assert (uninformed (initial_informed (graph network) start_user)
            ⊆ dom (g_node (graph network)) ∖ {[start_user]}) as Hsub.
    { intros x. rewrite elem_of_uninformed, elem_of_difference.
      unfold initial_informed. intros Hx. split.
      - rewrite <- Hdom. apply elem_of_dom. eauto.
      - intros ->%elem_of_singleton. by rewrite lookup_insert_eq in Hx. }
    apply subseteq_size in Hsub. rewrite size_difference in Hsub
      by (by apply singleton_subseteq_l).
    rewrite size_singleton, size_dom in Hsub.
    unfold len in Hiter.
    assert (0 < size (g_node (graph network))).
    { apply elem_of_dom in Hnode as [a Ha].
      destruct (decide (size (g_node (graph network)) = 0)) as [Hz|]; [|lia].
      apply map_size_empty_inv in Hz. rewrite Hz in Ha.
      by rewrite lookup_empty in Ha. }
    lia. }
  assert (∀ v, rtc (edge (graph network)) start_user v → m !! v = Some true)
    as Hcomplete.
  { apply rtc_ind_r.
    - apply Hkeep. by apply lookup_initial_informed.
    - intros y z _ Hyz Hy. by apply (Hcl y). }
  intros v. split.
  - intros Hv. destruct (Hreach v Hv) as (u & Hu & Huv).
    apply lookup_initial_informed in Hu as ->.
    apply rtc_tc in Huv as [->|?]; auto.
  - intros [->|Hv%tc_rtc]; by apply Hcomplete.
Qed.

Lemma spread_probability_one_witness :
  ∃ informed,
    simulate_information_spread (λ _, 1 # 2) chain_ABC "B" 1 3 = Ok informed
    ∧ ∀ v, informed !! v = Some true
           ↔ v = "B" ∨ tc (edge (graph chain_ABC)) "B" v.
Proof.
  apply (spread_probability_one (λ _, 1 # 2) chain_ABC "B" 3).
  - apply wf_chain_ABC.
  - intros _. split; [by vm_compute|by vm_compute].
  - vm_compute. reflexivity.
  - vm_compute. discriminate.
Defined.

(** Direction matters: started at B on the chain A → B → C, the message
    reaches C and not A, although A and B are joined in the undirected
    view. *)
Example spread_follows_direction :
  simulate_information_spread (λ _, 1 # 2) chain_ABC "B" 1 3
  = Ok {[ "A" := false; "B" := true; "C" := true ]}.
Proof. vm_compute. reflexivity. Qed.
End spread_claims.

(** ** Closeness centrality *)

Section closeness_facts.
Import nx.
Variable adj : gmap string (gmap string attrs).
Variable source : string.
Hypothesis Hclosed : ∀ v w, adjacent adj v w → w ∈ dom adj.
Hypothesis Hsource : source ∈ dom adj.

Local Abbreviation inv := (sp_inv adj source).

Lemma sp_discover_spec level st w :
  1 ≤ level → w ∈ dom adj → inv st →
  let st' := sp_discover level st w in
  inv st'
  ∧ size (sp_seen st') + length (sp_nextlevel st)
    = size (sp_seen st) + length (sp_nextlevel st')
  ∧ sp_returned st' = sp_returned st.
Proof.
  intros Hl Hw (Hseen & Hsub & Hsrc & Hpos). unfold sp_discover. cbv zeta.
  destruct (decide (w ∈ sp_seen st)) as [Hin|Hout]; [done|].
  unfold sp_inv. cbn [sp_seen sp_nextlevel sp_yielded sp_returned].
  split; [|split; [|done]].
  - split; [|split; [|split]].
    + by rewrite dom_insert_L, Hseen.
    + set_solver.
    + rewrite lookup_insert_ne; [done|]. intros ->. apply Hout.
      rewrite Hseen. apply elem_of_dom. eauto.
    + intros k d. destruct (decide (k = w)) as [->|Hne].
      * rewrite lookup_insert_eq. intros [= <-] _. done.
      * rewrite lookup_insert_ne by done. apply Hpos.
  - rewrite size_union by set_solver. rewrite size_singleton, length_app.
    simpl. lia.
Qed.

Lemma sp_discover_fold level (l : list string) st :
  1 ≤ level → (∀ w, w ∈ l → w ∈ dom adj) → inv st →
  let st' := foldl (sp_discover level) st l in
  inv st'
  ∧ size (sp_seen st') + length (sp_nextlevel st)
    = size (sp_seen st) + length (sp_nextlevel st')
  ∧ sp_returned st' = sp_returned st.
Proof.
  intros Hl. revert st. induction l as [|w l IH]; intros st Hin Hst; [done|].
  cbn [foldl].
  destruct (sp_discover_spec level st w) as (H1 & H2 & H3);
    [done|apply Hin; by left|done|].
  destruct (IH (sp_discover level st w)) as (H1' & H2' & H3');
    [intros; apply Hin; by right|done|].
  split; [done|]. split; [lia|congruence].
Qed.

Lemma sp_expand_spec level st v :
  1 ≤ level → inv st →
  let st' := sp_expand adj level st v in
  inv st'
  ∧ size (sp_seen st') + length (sp_nextlevel st)
    = size (sp_seen st) + length (sp_nextlevel st').
Proof.
  intros Hl Hst. unfold sp_expand. cbv zeta.
  destruct (sp_returned st); [done|].
  destruct (sp_discover_fold level (keys (default ∅ (adj !! v))) st)
    as (H1 & H2 & _); [done| |done|].
  { intros w Hw%adjacent_keys. by eapply Hclosed. }
  by destruct (decide _).
Qed.

Lemma sp_expand_fold level (l : list string) st :
  1 ≤ level → inv st →
  let st' := foldl (sp_expand adj level) st l in
  inv st'
  ∧ size (sp_seen st') + length (sp_nextlevel st)
    = size (sp_seen st) + length (sp_nextlevel st').
Proof.
  intros Hl. revert st. induction l as [|v l IH]; intros st Hst; [done|].
  cbn [foldl]. destruct (sp_expand_spec level st v) as (H1 & H2); [done..|].
  destruct (IH (sp_expand adj level st v)) as (H1' & H2'); [done|].
  split; [done|lia].
Qed.

Lemma sp_levels_spec fuel level st :
  inv st →
  (sp_returned st = false → sp_nextlevel st ≠ [] →
   size adj + 1 ≤ size (sp_seen st) + fuel) →
  ∃ sp, sp_levels fuel adj level st = Ok sp
        ∧ dom sp ⊆ dom adj
        ∧ sp !! source = Some 0
        ∧ ∀ k d, sp !! k = Some d → k ≠ source → 1 ≤ d.
Proof.
  revert level st. induction fuel as [|fuel IH]; intros level st Hst Hfuel.
  - pose proof Hst as (Hseen & Hsub & Hsrc & Hpos).
    assert (dom (sp_yielded st) ⊆ dom adj) by (by rewrite <- Hseen).
    cbn [sp_levels]. destruct (sp_returned st) eqn:Hr; [eauto|].
    destruct (sp_nextlevel st) as [|v l] eqn:Hn; [eauto|].
    exfalso. apply subseteq_size in Hsub. rewrite size_dom in Hsub.
    specialize (Hfuel eq_refl ltac:(done)). lia.
  - pose proof Hst as (Hseen & Hsub & Hsrc & Hpos).
    assert (dom (sp_yielded st) ⊆ dom adj) by (by rewrite <- Hseen).
    cbn [sp_levels]. destruct (sp_returned st) eqn:Hr; [eauto|].
    destruct (sp_nextlevel st) as [|v l] eqn:Hn; [eauto|].
    set (st0 := {| sp_seen := sp_seen st; sp_nextlevel := [];
                   sp_yielded := sp_yielded st; sp_returned := false |}).
    destruct (sp_expand_fold (S level) (v :: l) st0) as (H1 & H2);
      [lia|done|].
    apply IH; [done|]. intros _ Hne.
    change (sp_nextlevel st0) with (@nil string) in H2.
    change (sp_seen st0) with (sp_seen st) in H2.
    specialize (Hfuel eq_refl ltac:(done)).
    destruct (sp_nextlevel (foldl _ st0 (v :: l))); [done|].
    cbn [length] in H2. lia.
Qed.

Lemma shortest_path_length_spec :
  ∃ sp, single_source_shortest_path_length adj source = Ok sp
        ∧ dom sp ⊆ dom adj
        ∧ sp !! source = Some 0
        ∧ ∀ k d, sp !! k = Some d → k ≠ source → 1 ≤ d.
Proof.
  apply sp_levels_spec.
  - unfold sp_inv. cbn [sp_seen sp_yielded]. split; [|split; [|split]].
    + by rewrite dom_singleton_L.
    + by apply singleton_subseteq_l.
    + apply lookup_singleton_eq.
    + intros k d [-> _]%lookup_singleton_Some. done.
  - intros _ _. cbn [sp_seen]. rewrite size_singleton. lia.
Qed.
End closeness_facts.

Section closeness_range.
Import nx.

Lemma sum_values_size (m : gmap string nat) :
  (∀ k d, m !! k = Some d → 1 ≤ d) → size m ≤ sum_list (map_to_list m).*2.
Proof.
  induction m as [|k d m Hk IH] using map_ind; intros Hpos.
  - by rewrite map_size_empty.
  - rewrite map_size_insert_None by done.
    rewrite map_to_list_insert by done. cbn [fmap list_fmap sum_list_with snd].
    unfold id at 1.
    assert (1 ≤ d) by (apply (Hpos k); apply lookup_insert_eq).
    assert (size m ≤ sum_list (map_to_list m).*2).
    { apply IH. intros k' d' Hk'. apply (Hpos k').
      rewrite lookup_insert_ne; [done|]. intros ->. congruence. }
    set (x := sum_list_with id _) in *. lia.
Qed.

Lemma sum_distances (sp : gmap string nat) source :
  sp !! source = Some 0 →
  (∀ k d, sp !! k = Some d → k ≠ source → 1 ≤ d) →
  size sp ≤ sum_list (map_to_list sp).*2 + 1.
Proof.
  intros Hsrc Hpos.
  rewrite <- (map_to_list_delete sp source 0) by done.
  cbn [fmap list_fmap sum_list_with snd]. unfold id at 1.
  pose proof (sum_values_size (delete source sp)) as Hsum.
  rewrite map_size_delete_Some in Hsum by eauto.
  assert (size sp ≠ 0).
  { apply map_size_ne_0_lookup. eauto. }
  assert (∀ k d, delete source sp !! k = Some d → 1 ≤ d) as Hpos'.
  { intros k d [Hne Hk]%lookup_delete_Some. by eapply Hpos. }
  specialize (Hsum Hpos').
  set (x := sum_list_with id _) in *. lia.
Qed.

Lemma closeness_of_range (G : DiGraph) n :
  wf G → n ∈ dom (g_node G) →
  ∃ c, closeness_of G n = Ok c ∧ (0 <= c)%Q ∧ (c <= 1)%Q.
Proof.
  intros HG Hn. unfold closeness_of.
  destruct (shortest_path_length_spec (g_pred G) n)
    as (sp & -> & Hdom & Hsrc & Hpos).
  { intros v w Hvw. rewrite (wf_pred_dom _ HG).
    apply (edge_source G w v HG). by apply (wf_mirror _ HG). }
  { by rewrite (wf_pred_dom _ HG). }
  cbn [mbind result_bind]. eexists. split; [done|].
  destruct (decide _) as [[Htot Hlen]|]; [|done].
  pose proof (sum_distances sp n Hsrc Hpos) as Hsum.
  set (totsp := sum_list (map_to_list sp).*2) in *.
  assert (size sp ≤ len G) as Hsize.
  { unfold len. rewrite <- !size_dom. apply subseteq_size.
    by rewrite <- (wf_pred_dom _ HG). }
  assert (1 ≤ size sp) as Hone.
  { assert (size sp ≠ 0); [|lia]. apply map_size_ne_0_lookup. eauto. }
  assert (inject_Z (Z.of_nat (size sp)) - 1
          == inject_Z (Z.of_nat (size sp - 1)))%Q as ->.
  { rewrite Nat2Z.inj_sub by lia. unfold Z.sub. rewrite inject_Z_plus.
    rewrite inject_Z_opp. reflexivity. }
  set (a := inject_Z (Z.of_nat (size sp - 1))).
  set (t := inject_Z (Z.of_nat totsp)).
  set (m := inject_Z (Z.of_nat (len G - 1))).
  assert (0 <= a)%Q by (unfold a; rewrite <- (Zle_Qle 0); lia).
  assert (0 < t)%Q by (unfold t; rewrite <- (Zlt_Qlt 0); lia).
  assert (0 < m)%Q by (unfold m; rewrite <- (Zlt_Qlt 0); lia).
  assert (a <= t)%Q by (unfold a, t; rewrite <- Zle_Qle; lia).
  assert (a <= m)%Q by (unfold a, m; rewrite <- Zle_Qle; lia).
  assert ((0 <= a / t)%Q ∧ (a / t <= 1)%Q) as [? ?].
  { split; [apply Qle_shift_div_l|apply Qle_shift_div_r]; lra. }
  assert ((0 <= a / m)%Q ∧ (a / m <= 1)%Q) as [? ?].
  { split; [apply Qle_shift_div_l|apply Qle_shift_div_r]; lra. }
  split; nra.
Qed.

(** [nx.closeness_centrality] returns a score between 0 and 1 for every
    node. *)
Lemma closeness_centrality_spec (G : DiGraph) :
  wf G →
  ∃ m, closeness_centrality G = Ok m
       ∧ dom m = dom (g_node G)
       ∧ ∀ n q, m !! n = Some q → (0 <= q)%Q ∧ (q <= 1)%Q.
Proof.
  intros HG. unfold closeness_centrality.
  destruct (for_each_prefix_inv
              (λ closeness_dict n,
                 c ← closeness_of G n; Ok (<[n := c]> closeness_dict))
              (λ pre (m : gmap string Q),
                 dom m = list_to_set pre
                 ∧ ∀ n q, m !! n = Some q → (0 <= q)%Q ∧ (q <= 1)%Q)
              (nodes G) ∅) as (m & Hm & Hdom & Hrange).
  - split; [by rewrite dom_empty_L|]. intros n q. by rewrite lookup_empty.
  - intros pre n m [Hdom Hrange] Hn.
    apply elem_of_keys, elem_of_dom in Hn.
    destruct (closeness_of_range G n HG Hn) as (c & -> & Hc0 & Hc1).
    cbn [mbind result_bind]. eexists. split; [done|]. split.
    + rewrite dom_insert_L, Hdom, list_to_set_app_L. set_solver.
    + intros n' q. destruct (decide (n' = n)) as [->|Hne].
      * rewrite lookup_insert_eq. by intros [= <-].
      * rewrite lookup_insert_ne by done. apply Hrange.
  - exists m. split; [done|]. split; [|done].
    rewrite Hdom. apply set_eq. intros n.
    rewrite elem_of_list_to_set. unfold nodes. by rewrite elem_of_keys, elem_of_dom.
Qed.
End closeness_range.

(** ** Betweenness centrality *)

Section sums.
Import nx.

Lemma Qsum_snoc (l : list Q) (x : Q) : (Qsum (l ++ [x]) == Qsum l + x)%Q.
Proof.
  unfold Qsum. induction l as [|y l IH]; cbn [app foldr]; [lra|].
  rewrite IH. lra.
Qed.

Lemma Qsum_ext (f g : string → Q) (l : list string) :
  (∀ x, x ∈ l → (f x == g x)%Q) → (Qsum (f <$> l) == Qsum (g <$> l))%Q.
Proof.
  unfold Qsum. induction l as [|y l IH]; intros H; [done|].
  rewrite !fmap_cons. cbn [foldr]. rewrite IH, (H y).
  - done.
  - by left.
  - intros x Hx. apply H. by right.
Qed.

Lemma Qsum_nonneg (f : string → Q) (l : list string) :
  (∀ x, (0 <= f x)%Q) → (0 <= Qsum (f <$> l))%Q.
Proof.
  intros Hf. unfold Qsum. induction l as [|y l IH]; [done|].
  rewrite fmap_cons. cbn [foldr]. specialize (Hf y). lra.
Qed.

Lemma Qsum_elem (f : string → Q) (l : list string) x :
  (∀ x, (0 <= f x)%Q) → x ∈ l → (f x <= Qsum (f <$> l))%Q.
Proof.
  intros Hf. unfold Qsum. induction l as [|y l IH]; [by intros ?%elem_of_nil|].
  rewrite fmap_cons. cbn [foldr]. intros [->|Hx]%elem_of_cons.
  - pose proof (Qsum_nonneg f l Hf). unfold Qsum in *. lra.
  - specialize (IH Hx). specialize (Hf y). lra.
Qed.

Lemma precedes_app_r (l l' : list string) x y :
  precedes l x y → precedes (l ++ l') x y.
Proof.
  intros (l1 & l2 & l3 & ->). exists l1, l2, (l3 ++ l').
  by rewrite <- !app_assoc, <- !app_comm_cons, <- app_assoc.
Qed.

Lemma precedes_elem (l : list string) x y :
  precedes l x y → x ∈ l ∧ y ∈ l.
Proof.
  intros (l1 & l2 & l3 & ->). split.
  - apply elem_of_app. right. by left.
  - apply elem_of_app. right. right. apply elem_of_app. right. by left.
Qed.

Lemma precedes_ne (l : list string) x y :
  NoDup l → precedes l x y → x ≠ y.
Proof.
  intros Hnd (l1 & l2 & l3 & ->) ->.
  apply NoDup_app in Hnd as (_ & _ & Hnd).
  apply NoDup_cons in Hnd as [Hy _]. apply Hy.
  apply elem_of_app. right. by left.
Qed.
End sums.

Section betweenness_bfs.
Import nx.
Variable G : DiGraph.
Variable s : string.
Hypothesis HG : wf G.
Hypothesis Hs : s ∈ dom (g_node G).

Local Abbreviation inv := (bc_inv G s).
Local Abbreviation positive st :=
  (∀ x, x ∈ bc_S st ++ bc_Q st → Qlt 0 (sigma_of st x)).

Lemma bc_discover_inv st w (d : nat) :
  inv st → bc_D st !! w = None → w ∈ dom (g_node G) →
  inv {| bc_S := bc_S st; bc_P := bc_P st; bc_sigma := bc_sigma st;
         bc_D := <[w := d]> (bc_D st); bc_Q := bc_Q st ++ [w] |}.
Proof.
  intros [Hnd Hdom Hnodes [rest Hfirst] Hsrc Hcnt Hnn Hpre] HDw Hw.
  assert (w ∉ bc_S st ++ bc_Q st) as Hnew.
  { intros Hin. apply not_elem_of_dom in HDw. apply HDw.
    rewrite Hdom. by apply elem_of_list_to_set. }
  split; cbn [bc_S bc_P bc_sigma bc_D bc_Q]; rewrite ?app_assoc.
  - apply NoDup_app. split; [done|]. split; [|apply NoDup_singleton].
    intros x Hx ->%list_elem_of_singleton. done.
  - rewrite dom_insert_L, Hdom, list_to_set_app_L. set_solver.
  - rewrite dom_insert_L. set_solver.
  - exists (rest ++ [w]). by rewrite Hfirst.
  - done.
  - done.
  - done.
  - intros w' v Hv. destruct (Hpre w' v Hv) as [? ?].
    split; [done|]. by apply precedes_app_r.
Qed.

Lemma bc_count_inv st v w S0 (sv : Q) :
  inv st → bc_S st = S0 ++ [v] → w ∈ bc_Q st → (0 <= sv)%Q →
  sigma_of st v = sv →
  inv {| bc_S := bc_S st;
         bc_P := <[w := P_of st w ++ [v]]> (bc_P st);
         bc_sigma := <[w := (sigma_of st w + sv)%Q]> (bc_sigma st);
         bc_D := bc_D st; bc_Q := bc_Q st |}.
Proof.
  intros [Hnd Hdom Hnodes [rest Hfirst] Hsrc Hcnt Hnn Hpre] HS HwQ Hsv0 Hsv.
  assert (w ∉ bc_S st) as HwS.
  { intros Hin. apply NoDup_app in Hnd as (_ & Hdis & _). by apply (Hdis w). }
  assert (s ∈ bc_S st) as HsS.
  { rewrite HS in Hfirst |- *. destruct S0 as [|x S0].
    - simpl in Hfirst. injection Hfirst as -> _. by left.
    - simpl in Hfirst. injection Hfirst as -> _. by left. }
  assert (w ≠ s) as Hws by (intros ->; done).
  assert (v ∈ bc_S st) as HvS.
  { rewrite HS. apply elem_of_app. right. by left. }
  assert (v ≠ w) as Hvw by (intros ->; done).
  set (st' := {| bc_S := bc_S st; bc_P := _; bc_sigma := _;
                 bc_D := bc_D st; bc_Q := bc_Q st |}).
  assert (∀ x, x ≠ w → sigma_of st' x = sigma_of st x) as Hsig.
  { intros x Hx. unfold sigma_of, st'. cbn [bc_sigma].
    by rewrite lookup_insert_ne. }
  assert (sigma_of st' w = (sigma_of st w + sv)%Q) as Hsigw.
  { unfold sigma_of at 1, st'. cbn [bc_sigma]. by rewrite lookup_insert_eq. }
  assert (∀ x, x ≠ w → P_of st' x = P_of st x) as HP.
  { intros x Hx. unfold P_of, st'. cbn [bc_P]. by rewrite lookup_insert_ne. }
  assert (P_of st' w = P_of st w ++ [v]) as HPw.
  { unfold P_of at 1, st'. cbn [bc_P]. by rewrite lookup_insert_eq. }
  assert (∀ x, (Qsum (sigma_of st' <$> P_of st x)
                == Qsum (sigma_of st <$> P_of st x))%Q) as Hsum.
  { intros x. apply Qsum_ext. intros u Hu. rewrite Hsig; [done|].
    intros ->. by destruct (Hpre x w Hu). }
  split; try done.
  - by exists rest.
  - rewrite Hsig, HP by done. done.
  - intros w' Hw'. destruct (decide (w' = w)) as [->|Hne].
    + rewrite Hsigw, HPw, fmap_app. cbn [fmap list_fmap].
      rewrite Qsum_snoc, Hsum, Hsig by done. rewrite Hsv.
      by rewrite <- Hcnt.
    + rewrite Hsig, HP by done. rewrite Hsum. by apply Hcnt.
  - intros x. destruct (decide (x = w)) as [->|Hne].
    + rewrite Hsigw. specialize (Hnn w). lra.
    + rewrite Hsig by done. apply Hnn.
  - intros w' u. change (bc_S st') with (bc_S st).
    change (bc_Q st') with (bc_Q st).
    destruct (decide (w' = w)) as [->|Hne].
    + rewrite HPw. intros [Hu| ->%list_elem_of_singleton]%elem_of_app.
      * by apply Hpre.
      * split; [done|]. apply list_elem_of_split in HwQ as (q1 & q2 & ->).
        exists S0, q1, q2. rewrite HS. by rewrite <- app_assoc.
    + rewrite HP by done. apply Hpre.
Qed.

Lemma bc_relax_spec v Dv (sv : Q) st w S0 :
  w ∈ dom (g_node G) →
  inv st → positive st → bc_levels st Dv →
  bc_S st = S0 ++ [v] → sigma_of st v = sv → (0 < sv)%Q →
  let st' := bc_relax v Dv sv st w in
  inv st' ∧ positive st' ∧ bc_levels st' Dv
  ∧ bc_S st' = bc_S st ∧ sigma_of st' v = sv.
Proof.
  intros Hw Hinv Hpos (Qa & Qb & HQ & HlS & HlA & HlB) HS Hsv Hsv0.
  assert (v ∈ bc_S st) as HvS.
  { rewrite HS. apply elem_of_app. right. by left. }
  (* the counting step, from a state in which [w] is in the queue *)
  assert (∀ st1,
            inv st1 → bc_S st1 = bc_S st → sigma_of st1 v = sv →
            w ∈ bc_Q st1 → bc_levels st1 Dv →
            (∀ x, x ∈ bc_S st1 ++ bc_Q st1 → x ≠ w →
                  (0 < sigma_of st1 x)%Q) →
            let st' := {| bc_S := bc_S st1;
                          bc_P := <[w := P_of st1 w ++ [v]]> (bc_P st1);
                          bc_sigma := <[w := (sigma_of st1 w + sv)%Q]>
                                        (bc_sigma st1);
                          bc_D := bc_D st1; bc_Q := bc_Q st1 |} in
            inv st' ∧ positive st' ∧ bc_levels st' Dv
            ∧ bc_S st' = bc_S st ∧ sigma_of st' v = sv) as Hcount.
  { intros st1 Hinv1 HS1 Hsv1 HwQ Hlev1 Hpos1 st'.
    assert (w ∉ bc_S st1) as HwS.
    { intros Hin. pose proof (bc_nodup _ _ _ Hinv1) as Hnd.
      apply NoDup_app in Hnd as (_ & Hdis & _). by apply (Hdis w). }
    assert (v ≠ w) as Hvw. { intros ->. apply HwS. by rewrite HS1. }
    split; [|split; [|split; [|split]]].
    - apply (bc_count_inv st1 v w S0); try done; [congruence|lra].
    - intros x Hx. unfold sigma_of, st'. cbn [bc_sigma].
      destruct (decide (x = w)) as [->|Hne].
      + rewrite lookup_insert_eq. cbn [default]. unfold id.
        pose proof (bc_nonneg _ _ _ Hinv1 w) as Hn. lra.
      + rewrite lookup_insert_ne by done. by apply Hpos1.
    - done.
    - done.
    - unfold sigma_of, st'. cbn [bc_sigma].
      by rewrite lookup_insert_ne. }
  unfold bc_relax. cbv zeta.
  destruct (bc_D st !! w) as [dw|] eqn:HDw.
  - destruct (decide (bc_D st !! w = Some (Dv + 1))) as [Hyes|Hno].
    + apply Hcount; try done.
      * assert (w ∈ bc_S st ++ bc_Q st) as Hin.
        { apply (elem_of_list_to_set (C := gset string)).
          rewrite <- (bc_dom_D _ _ _ Hinv). apply elem_of_dom. eauto. }
        apply elem_of_app in Hin as [Hin|Hin]; [|done].
        destruct (HlS w Hin) as (dx & Hdx & Hle). rewrite Hyes in Hdx.
        injection Hdx as <-. lia.
      * by exists Qa, Qb.
      * intros x Hx _. by apply Hpos.
    + split; [done|]. split; [done|]. split; [by exists Qa, Qb|done].
  - set (st1 := {| bc_S := bc_S st; bc_P := bc_P st;
                   bc_sigma := bc_sigma st;
                   bc_D := <[w := Dv + 1]> (bc_D st);
                   bc_Q := bc_Q st ++ [w] |}).
    rewrite decide_True by (cbn [bc_D]; apply lookup_insert_eq).
    assert (w ∉ bc_S st ++ bc_Q st) as Hnew.
    { intros Hin. apply not_elem_of_dom in HDw. apply HDw.
      rewrite (bc_dom_D _ _ _ Hinv). by apply elem_of_list_to_set. }
    apply (Hcount st1); try done.
    + by apply bc_discover_inv.
    + unfold st1. cbn [bc_Q]. apply elem_of_app. right. by left.
    + exists Qa, (Qb ++ [w]). unfold st1. cbn [bc_Q bc_S bc_D].
      split; [by rewrite HQ, app_assoc|]. split; [|split].
      * intros x Hx. destruct (HlS x Hx) as (dx & Hdx & Hle).
        exists dx. split; [|done]. rewrite lookup_insert_ne; [done|].
        intros ->. apply Hnew. apply elem_of_app. by left.
      * intros x Hx. rewrite lookup_insert_ne; [by apply HlA|].
        intros ->. apply Hnew. rewrite HQ, !elem_of_app. tauto.
      * intros x [Hx| ->%list_elem_of_singleton]%elem_of_app.
        -- rewrite lookup_insert_ne; [by apply HlB|].
           intros ->. apply Hnew. rewrite HQ, !elem_of_app. tauto.
        -- apply lookup_insert_eq.
    + unfold st1. cbn [bc_S bc_Q]. intros x Hx Hne. apply Hpos.
      rewrite app_assoc in Hx.
      apply elem_of_app in Hx as [Hx|Hx%list_elem_of_singleton]; done.
Qed.

Lemma bc_relax_fold v Dv (sv : Q) (l : list string) st S0 :
  (∀ w, w ∈ l → w ∈ dom (g_node G)) →
  inv st → positive st → bc_levels st Dv →
  bc_S st = S0 ++ [v] → sigma_of st v = sv → (0 < sv)%Q →
  let st' := foldl (bc_relax v Dv sv) st l in
  inv st' ∧ positive st' ∧ bc_levels st' Dv ∧ bc_S st' = S0 ++ [v].
Proof.
  revert st. induction l as [|w l IH]; intros st Hl Hinv Hpos Hlev HS Hsv Hsv0.
  - done.
  - cbn [foldl].
    destruct (bc_relax_spec v Dv sv st w S0) as (H1 & H2 & H3 & H4 & H5);
      [apply Hl; by left|done..|].
    apply IH; try done; [|congruence].
    intros w' Hw'. apply Hl. by right.
Qed.

Lemma bc_visit_spec st v rest d :
  inv st → positive st → bc_levels st d → bc_Q st = v :: rest →
  let st' := bc_visit G st v rest in
  inv st' ∧ positive st' ∧ (∃ d', bc_levels st' d')
  ∧ bc_S st' = bc_S st ++ [v].
Proof.
  intros Hinv Hpos (Qa & Qb & HQ & HlS & HlA & HlB) Hv. unfold bc_visit.
  cbv zeta.
  pose proof Hinv as [Hnd Hdom Hnodes [rest0 Hfirst] Hsrc Hcnt Hnn Hpre].
  rewrite Hv in Hnd, Hdom, Hfirst, Hpre.
  assert (∃ Dv Qa', bc_D st !! v = Some Dv ∧ d ≤ Dv
                    ∧ rest = Qa' ++ (if decide (Dv = d) then Qb else [])
                    ∧ (∀ x, x ∈ Qa' → bc_D st !! x = Some Dv)
                    ∧ (∀ x, x ∈ (if decide (Dv = d) then Qb else []) →
                            bc_D st !! x = Some (Dv + 1)))
    as (Dv & Qa' & HDv & Hle & Hrest & HlA' & HlB').
  { rewrite Hv in HQ. destruct Qa as [|a Qa].
    - simpl in HQ. subst Qb. exists (d + 1), rest.
      rewrite decide_False by lia. rewrite app_nil_r.
      split; [apply HlB; by left|]. split; [lia|]. split; [done|].
      split; [|by intros ? ?%elem_of_nil]. intros x Hx. apply HlB. by right.
    - simpl in HQ. injection HQ as <- ->. exists d, Qa.
      rewrite decide_True by done.
      split; [apply HlA; by left|]. split; [done|]. split; [done|].
      split; [|done]. intros x Hx. apply HlA. by right. }
  rewrite HDv. cbn [default]. unfold id.
  set (st0 := {| bc_S := bc_S st ++ [v]; bc_P := bc_P st;
                 bc_sigma := bc_sigma st; bc_D := bc_D st;
                 bc_Q := rest |}).
  assert (bc_S st0 ++ bc_Q st0 = bc_S st ++ v :: rest) as Hlist.
  { unfold st0. cbn [bc_S bc_Q]. by rewrite <- app_assoc. }
  destruct (bc_relax_fold v Dv (default 0%Q (bc_sigma st !! v))
              (keys (default ∅ (g_succ G !! v))) st0 (bc_S st))
    as (H1 & H2 & H3 & H4).
  - intros w Hw%adjacent_keys. by apply (edge_target G v w).
  - split; rewrite ?Hlist; try done; [by exists rest0|].
    intros w u Hu. destruct (Hpre w u Hu) as [? ?]. split; [|done].
    unfold st0. cbn [bc_S]. apply elem_of_app. by left.
  - intros x. rewrite Hlist. intros Hx. apply (Hpos x). by rewrite Hv.
  - exists Qa', (if decide (Dv = d) then Qb else []).
    split; [done|]. split; [|done]. cbn [bc_S bc_D].
    intros x [Hx| ->%list_elem_of_singleton]%elem_of_app.
    + destruct (HlS x Hx) as (dx & Hdx & Hdxle). exists dx. split; [done|lia].
    + eauto.
  - done.
  - done.
  - apply (Hpos v). rewrite Hv. apply elem_of_app. right. by left.
  - split; [done|]. split; [done|]. split; [eauto|done].
Qed.

Lemma length_met st :
  inv st → length (bc_S st) + length (bc_Q st) ≤ len G.
Proof.
  intros [Hnd Hdom Hnodes _ _ _ _ _].
  rewrite <- length_app, <- (size_list_to_set (C := gset string)) by done.
  rewrite <- Hdom. unfold len. rewrite <- (size_dom (g_node G)).
  by apply subseteq_size.
Qed.

Lemma bc_bfs_spec fuel st :
  inv st → positive st → (∃ d, bc_levels st d) →
  len G ≤ length (bc_S st) + fuel →
  ∃ st', bc_bfs fuel G st = Ok st' ∧ bc_Q st' = []
         ∧ inv st' ∧ positive st'.
Proof.
  revert st. induction fuel as [|fuel IH]; intros st Hinv Hpos [d Hlev] Hfuel.
  - cbn [bc_bfs]. destruct (bc_Q st) as [|v rest] eqn:HQ;
      [exists st; rewrite ?HQ; by split_and!|].
    pose proof (length_met st Hinv) as Hlen. rewrite HQ in Hlen.
    simpl in Hlen. lia.
  - cbn [bc_bfs]. destruct (bc_Q st) as [|v rest] eqn:HQ;
      [exists st; rewrite ?HQ; by split_and!|].
    rewrite <- HQ in Hpos.
    destruct (bc_visit_spec st v rest d) as (H1 & H2 & H3 & H4); [done..|].
    apply IH; try done. rewrite H4, length_app. simpl. lia.
Qed.

(** The search from a node returns a state with the queue empty that
    satisfies the invariant. *)
Lemma shortest_path_basic_spec :
  ∃ st, single_source_shortest_path_basic G s = Ok st
        ∧ bc_Q st = [] ∧ inv st ∧ positive st.
Proof.
  apply bc_bfs_spec.
  - split; cbn [bc_S bc_Q bc_D bc_P bc_sigma app].
    + apply NoDup_singleton.
    + rewrite dom_singleton_L. set_solver.
    + rewrite dom_singleton_L. by apply singleton_subseteq_l.
    + by exists [].
    + unfold sigma_of, P_of. cbn [bc_sigma bc_P].
      rewrite lookup_insert_eq, lookup_fmap.
      split; [done|]. by destruct (g_node G !! s).
    + intros w Hw. unfold sigma_of, P_of. cbn [bc_sigma bc_P].
      rewrite lookup_insert_ne, !lookup_fmap by done.
      by destruct (g_node G !! w).
    + intros w. unfold sigma_of. cbn [bc_sigma].
      destruct (decide (w = s)) as [->|Hne].
      * by rewrite lookup_insert_eq.
      * rewrite lookup_insert_ne, lookup_fmap by done.
        by destruct (g_node G !! w).
    + intros w v. unfold P_of. cbn [bc_P]. rewrite lookup_fmap.
      destruct (g_node G !! w); by intros ?%elem_of_nil.
  - cbn [bc_S bc_Q app]. intros x ->%list_elem_of_singleton.
    unfold sigma_of. cbn [bc_sigma]. by rewrite lookup_insert_eq.
  - exists 0, [s], []. cbn [bc_Q bc_S bc_D].
    split; [done|]. split; [by intros ? ?%elem_of_nil|].
    split; [|by intros ? ?%elem_of_nil].
    intros x ->%list_elem_of_singleton. apply lookup_singleton_eq.
  - cbn [bc_S length]. lia.
Qed.
End betweenness_bfs.

Section pivot.
Import nx.

Lemma NoDup_pivot {A} (l1 l2 l1' l2' : list A) (x : A) :
  NoDup (l1 ++ x :: l2) → l1 ++ x :: l2 = l1' ++ x :: l2' →
  l1 = l1' ∧ l2 = l2'.
Proof.
  revert l1'. induction l1 as [|a l1 IH]; intros l1' Hnd Heq.
  - destruct l1' as [|a' l1']; simpl in Heq.
    + by injection Heq as ->.
    + injection Heq as <- ->. apply NoDup_cons in Hnd as [Hx _].
      destruct Hx. apply elem_of_app. right. by left.
  - destruct l1' as [|a' l1']; simpl in Heq.
    + injection Heq as -> _. apply NoDup_cons in Hnd as [Hx _].
      destruct Hx. apply elem_of_app. right. by left.
    + injection Heq as <- Heq. apply NoDup_cons in Hnd as [_ Hnd].
      destruct (IH l1' Hnd Heq) as [-> ->]. done.
Qed.

Lemma NoDup_reverse {A} (l : list A) : NoDup l → NoDup (reverse l).
Proof. by rewrite reverse_Permutation. Qed.

(** A node that precedes [w] in a list comes after [w] in the reversed
    list. *)
Lemma precedes_reverse (S : list string) pre post v w :
  NoDup S → reverse S = pre ++ w :: post → precedes S v w → v ∈ post.
Proof.
  intros Hnd Hrev (l1 & l2 & l3 & ->).
  assert (reverse (l1 ++ v :: l2 ++ w :: l3)
          = reverse l3 ++ w :: (reverse l2 ++ v :: reverse l1)) as Heq.
  { rewrite reverse_app, reverse_cons, reverse_app, reverse_cons.
    rewrite <- !app_assoc. done. }
  rewrite Heq in Hrev. apply NoDup_reverse in Hnd. rewrite Heq in Hnd.
  destruct (NoDup_pivot _ _ _ _ _ Hnd Hrev) as [_ <-].
  apply elem_of_app. right. by left.
Qed.

Lemma Qsum_zero (f : string → Q) (l : list string) :
  (∀ x, x ∈ l → (f x == 0)%Q) → (Qsum (f <$> l) == 0)%Q.
Proof.
  unfold Qsum. induction l as [|y l IH]; intros H; [done|].
  rewrite fmap_cons. cbn [foldr]. rewrite IH, (H y).
  - lra.
  - by left.
  - intros x Hx. apply H. by right.
Qed.

Lemma Qsum_insert (δ : gmap string Q) (u : string) (q : Q)
    (L : list string) :
  NoDup L → u ∈ L →
  (Qsum ((λ x, default 0 (<[u := q]> δ !! x)) <$> L)
   == Qsum ((λ x, default 0 (δ !! x)) <$> L) + (q - default 0 (δ !! u)))%Q.
Proof.
  induction L as [|y L IH]; intros Hnd Hu; [by apply elem_of_nil in Hu|].
  apply NoDup_cons in Hnd as [Hy Hnd]. rewrite !fmap_cons.
  unfold Qsum in *. cbn [foldr].
  destruct (decide (u = y)) as [->|Hne].
  - rewrite lookup_insert_eq. cbn [default].
    pose proof (Qsum_ext (λ x, default 0%Q (<[y := q]> δ !! x))
                  (λ x, default 0%Q (δ !! x)) L) as Hext.
    unfold Qsum in Hext. rewrite Hext.
    + unfold id. lra.
    + intros x Hx. rewrite lookup_insert_ne; [done|]. by intros ->.
  - rewrite lookup_insert_ne by done.
    apply elem_of_cons in Hu as [?|Hu]; [done|].
    rewrite (IH Hnd Hu). lra.
Qed.

Lemma Qn_le (a b : nat) :
  a ≤ b → (inject_Z (Z.of_nat a) <= inject_Z (Z.of_nat b))%Q.
Proof. intros H. rewrite <- Zle_Qle. lia. Qed.

Lemma Qn_plus (a b : nat) :
  (inject_Z (Z.of_nat (a + b))
   == inject_Z (Z.of_nat a) + inject_Z (Z.of_nat b))%Q.
Proof. by rewrite Nat2Z.inj_add, inject_Z_plus. Qed.
End pivot.

Section betweenness_accumulate.
Import nx.
Variable G : DiGraph.
Variable s : string.
Variable st : bc_state.
Hypothesis Hinv : bc_inv G s st.
Hypothesis HQ : bc_Q st = [].
Hypothesis Hpos : ∀ x, x ∈ bc_S st → (0 < sigma_of st x)%Q.

Local Abbreviation get m x := (default 0%Q (m !! x)).
Local Abbreviation Qn k := (inject_Z (Z.of_nat k)).
Local Abbreviation credit coeff := (bc_credit (bc_sigma st) coeff).

Lemma bc_credit_fold_ge (coeff : Q) (l : list string)
    (δ : gmap string Q) x :
  (0 <= coeff)%Q → (get δ x <= get (foldl (credit coeff) δ l) x)%Q.
Proof.
  intros Hc. revert δ. induction l as [|v l IH]; intros δ; [cbn; lra|].
  cbn [foldl]. eapply Qle_trans; [|apply IH]. unfold bc_credit.
  destruct (decide (x = v)) as [->|Hne].
  - pose proof (bc_nonneg _ _ _ Hinv v) as Hn. unfold sigma_of in Hn.
    set (a := default 0%Q (δ !! v)).
    set (c := default 0%Q (bc_sigma st !! v)) in *.
    rewrite lookup_insert_eq. cbn [from_option]. unfold id. nra.
  - rewrite lookup_insert_ne by done. lra.
Qed.

Lemma bc_credit_fold_notin (coeff : Q) (l : list string)
    (δ : gmap string Q) x :
  x ∉ l → get (foldl (credit coeff) δ l) x = get δ x.
Proof.
  revert δ. induction l as [|v l IH]; intros δ Hx; [done|].
  apply not_elem_of_cons in Hx as [Hne Hx]. cbn [foldl].
  rewrite IH by done. unfold bc_credit. by rewrite lookup_insert_ne.
Qed.

Lemma bc_credit_fold_sum (coeff : Q) (l : list string)
    (δ : gmap string Q) (L : list string) :
  NoDup L → (∀ v, v ∈ l → v ∈ L) →
  (Qsum ((λ x, get (foldl (credit coeff) δ l) x) <$> L)
   == Qsum ((λ x, get δ x) <$> L) + coeff * Qsum (sigma_of st <$> l))%Q.
Proof.
  intros Hnd. revert δ. induction l as [|v l IH]; intros δ Hl.
  - cbn. lra.
  - cbn [foldl]. rewrite IH by (intros u Hu; apply Hl; by right).
    unfold bc_credit. rewrite Qsum_insert; [|done|apply Hl; by left].
    assert (Qsum (sigma_of st <$> v :: l)
            == sigma_of st v + Qsum (sigma_of st <$> l))%Q as ->
      by (rewrite fmap_cons; unfold Qsum; cbn [foldr]; lra).
    change (default 0%Q (bc_sigma st !! v)) with (sigma_of st v). lra.
Qed.

Local Abbreviation acc_inv b0 pre rest acc :=
  ((∀ v, Qle 0 (get acc.2 v))
   ∧ (s ∈ rest →
      Qeq (Qsum ((λ x, get acc.2 x) <$> rest)) (Qn (length pre)))
   ∧ (∀ x, Qle (get b0 x) (get acc.1 x)
           ∧ Qle (get acc.1 x)
               (Qplus (get b0 x)
                  (if decide (x ∈ pre%list ∧ x ≠ s)
                   then Qn (length (bc_S st) - 2) else 0%Q)))).

Lemma bc_accumulate_step (b0 : gmap string Q) pre w post
    (acc : gmap string Q * gmap string Q) :
  pre ++ w :: post = reverse (bc_S st) →
  acc_inv b0 pre (w :: post) acc →
  acc_inv b0 (pre ++ [w]) post (bc_accumulate s st acc w).
Proof.
  intros Hrev (Hk1 & Hk2 & Hk3). destruct acc as [b δ].
  cbn [fst snd] in Hk1, Hk2, Hk3.
  pose proof Hinv as [Hnd _ _ [S' Hfirst] [_ HPs] Hcnt Hnn Hpre].
  rewrite HQ, app_nil_r in Hnd, Hfirst. 
  assert (NoDup (pre ++ w :: post)) as Hnd'.
  { rewrite Hrev. by apply NoDup_reverse. }
  assert (w ∈ bc_S st) as HwS.
  { apply elem_of_reverse. rewrite <- Hrev. apply elem_of_app. right. by left. }
  assert ((w ∉ pre) ∧ (w ∉ post) ∧ NoDup post)
    as (Hwpre & Hwpost & Hndpost).
  { apply NoDup_app in Hnd' as (_ & Hdis & Hnd').
    apply NoDup_cons in Hnd' as [? ?]. split; [|done].
    intros Hin. apply (Hdis w Hin). by left. }
  assert (∀ v, v ∈ P_of st w → v ∈ post) as HP.
  { intros v Hv. destruct (Hpre w v Hv) as [_ Hprec].
    rewrite HQ, app_nil_r in Hprec.
    by apply (precedes_reverse (bc_S st) pre post v w). }
  pose proof (Hpos w HwS) as Hsw.
  set (coeff := ((1 + get δ w) / sigma_of st w)%Q).
  assert (0 <= coeff)%Q as Hc.
  { unfold coeff. apply Qle_shift_div_l; [done|]. specialize (Hk1 w). lra. }
  assert (w ≠ s → s ∈ post) as Hspost.
  { intros Hne. rewrite Hfirst, reverse_cons in Hrev.
    destruct post as [|x post _] using rev_ind.
    - apply app_inj_tail in Hrev as [_ ?]. done.
    - rewrite app_comm_cons, app_assoc in Hrev.
      apply app_inj_tail in Hrev as [_ ->]. apply elem_of_app. right. by left. }
  unfold bc_accumulate.
  change (default [] (bc_P st !! w)) with (P_of st w).
  change (default 0%Q (bc_sigma st !! w)) with (sigma_of st w).
  fold coeff. set (δ' := foldl (credit coeff) δ (P_of st w)).
  assert (get δ' w = get δ w) as Hδw.
  { apply bc_credit_fold_notin. intros Hin. by apply Hwpost, HP. }
  assert (get δ w <= Qsum ((λ x, get δ x) <$> w :: post))%Q as Hδle.
  { apply (Qsum_elem (λ x, get δ x)); [done|by left]. }
  split; [|split]; cbn [fst snd].
  - intros v. eapply Qle_trans; [apply Hk1|]. by apply bc_credit_fold_ge.
  - intros Hs. assert (w ≠ s) as Hws by (by intros ->).
    unfold δ'. rewrite bc_credit_fold_sum by done.
    rewrite <- (Hcnt w Hws).
    assert (coeff * sigma_of st w == 1 + get δ w)%Q as ->.
    { unfold coeff. rewrite Qmult_comm. apply Qmult_div_r. lra. }
    rewrite length_app. cbn [length]. rewrite Qn_plus.
    rewrite <- Hk2 by (by right). rewrite fmap_cons.
    unfold Qsum. cbn [foldr]. change (inject_Z (Z.of_nat 1)) with 1%Q. lra.
  - intros x. destruct (Hk3 x) as [Hlo Hhi].
    assert (0 <= Qn (length (bc_S st) - 2))%Q as Hn0.
    { change 0%Q with (Qn 0). apply Qn_le. lia. }
    destruct (decide (w ≠ s)) as [Hws|Hws].
    + destruct (decide (x = w)) as [->|Hxw].
      * rewrite lookup_insert_eq, Hδw. cbn [from_option id].
        rewrite decide_False in Hhi by tauto.
        rewrite decide_True
          by (split; [apply elem_of_app; right; by left|done]).
        specialize (Hk1 w). split; [lra|].
        assert (Qn (length pre) <= Qn (length (bc_S st) - 2))%Q.
        { apply Qn_le. specialize (Hspost Hws).
          assert (length (bc_S st) = length (pre ++ w :: post)) as ->
            by (by rewrite Hrev, length_reverse).
          rewrite length_app. cbn [length]. destruct post; [|simpl; lia].
          by apply elem_of_nil in Hspost. }
        rewrite Hk2 in Hδle by (right; by apply Hspost). lra.
      * rewrite lookup_insert_ne by done. split; [done|].
        destruct (decide (x ∈ pre ∧ x ≠ s)) as [[? ?]|?].
        -- rewrite decide_True; [done|]. split; [|done].
           apply elem_of_app. by left.
        -- destruct (decide (x ∈ pre ++ [w] ∧ x ≠ s)); lra.
    + split; [done|].
      destruct (decide (x ∈ pre ∧ x ≠ s)) as [[? ?]|?].
      * rewrite decide_True; [done|]. split; [|done].
        apply elem_of_app. by left.
      * destruct (decide (x ∈ pre ++ [w] ∧ x ≠ s)); lra.
Qed.

Lemma bc_accumulate_fold (b0 : gmap string Q) rest pre
    (acc : gmap string Q * gmap string Q) :
  pre ++ rest = reverse (bc_S st) →
  acc_inv b0 pre rest acc →
  acc_inv b0 (reverse (bc_S st)) [] (foldl (bc_accumulate s st) acc rest).
Proof.
  revert pre acc. induction rest as [|w post IH]; intros pre acc Hrev Hacc.
  - rewrite app_nil_r in Hrev. rewrite <- Hrev. done.
  - cbn [foldl]. apply (IH (pre ++ [w])).
    + by rewrite <- app_assoc.
    + by apply bc_accumulate_step.
Qed.

(** One source adds to the betweenness of a node it reaches, other than
    itself, at most the number of the other nodes it reaches, and leaves
    the betweenness of every other node as it was. *)
Lemma accumulate_basic_spec (b : gmap string Q) x :
  (get b x <= get (accumulate_basic b st s) x)%Q
  ∧ (get (accumulate_basic b st s) x
     <= get b x + (if decide (x ∈ bc_S st ∧ x ≠ s)
                   then Qn (length (bc_S st) - 2) else 0))%Q.
Proof.
  unfold accumulate_basic.
  destruct (bc_accumulate_fold b (reverse (bc_S st)) []
              (b, gset_to_gmap 0%Q (list_to_set (bc_S st))))
    as (_ & _ & Hk3); [done| |].
  - cbn [fst snd length]. 
    assert (∀ v, get (gset_to_gmap 0%Q
                        (list_to_set (C := gset string) (bc_S st))) v = 0%Q)
      as Hzero.
    { intros v. destruct (gset_to_gmap _ _ !! v) as [q|] eqn:E; [|done].
      apply lookup_gset_to_gmap_Some in E as [_ <-]. done. }
    split; [|split].
    + intros v. by rewrite Hzero.
    + intros _. apply Qsum_zero. intros v _. by rewrite Hzero.
    + intros y. rewrite decide_False by (intros [?%elem_of_nil _]; done).
      lra.
  - destruct (Hk3 x) as [Hlo Hhi]. split; [done|].
    destruct (decide (x ∈ reverse (bc_S st) ∧ x ≠ s)) as [[Hin ?]|Hno].
    + rewrite elem_of_reverse in Hin. rewrite decide_True by (by split). done.
    + rewrite decide_False; [done|]. intros [Hin ?]. apply Hno.
      split; [|done]. by apply elem_of_reverse.
Qed.
End betweenness_accumulate.

Section betweenness_range.
Import nx.
Variable G : DiGraph.
Hypothesis HG : wf G.

Local Abbreviation get m x := (default 0%Q (m !! x)).
Local Abbreviation Qn k := (inject_Z (Z.of_nat k)).
Local Abbreviation others pre w :=
  (Nat.sub (length pre) (if decide (w ∈ pre%list) then 1 else 0)).
Local Abbreviation src_inv pre b :=
  (∀ w, Qle 0 (get b w)
        ∧ Qle (get b w) (Qn (Nat.mul (others pre w) (len G - 2)))
        ∧ (w ∉ dom (g_node G) → Qeq (get b w) 0)).

Lemma bc_sources_spec (ys pre : list string) (b : gmap string Q) :
  pre ++ ys = nodes G → src_inv pre b →
  ∃ b', for_each
          (λ betweenness s,
             st ← single_source_shortest_path_basic G s;
             Ok (accumulate_basic betweenness st s)) ys b = Ok b'
        ∧ src_inv (nodes G) b'.
Proof.
  revert pre b. induction ys as [|y ys IH]; intros pre b Hsplit Hb.
  - rewrite app_nil_r in Hsplit. subst pre. cbn [for_each]. eauto.
  - cbn [for_each].
    assert (y ∈ dom (g_node G)) as Hy.
    { apply elem_of_dom, elem_of_keys. fold (nodes G). rewrite <- Hsplit.
      apply elem_of_app. right. by left. }
    assert (y ∉ pre) as Hypre.
    { pose proof (NoDup_keys (g_node G)) as Hnd. fold (nodes G) in Hnd.
      rewrite <- Hsplit in Hnd. apply NoDup_app in Hnd as (_ & Hdis & _).
      intros Hin. apply (Hdis y Hin). by left. }
    destruct (shortest_path_basic_spec G y HG Hy) as (st & -> & HQ & Hinv & Hpos).
    cbn [mbind result_bind]. 
    apply (IH (pre ++ [y])); [by rewrite <- app_assoc|].
    intros w. destruct (Hb w) as (H0 & Hhi & Hout).
    rewrite HQ, app_nil_r in Hpos.
    destruct (accumulate_basic_spec G y st Hinv HQ Hpos b w) as [Hlo Hup].
    pose proof (length_met G y st Hinv) as Hlen. rewrite HQ in Hlen.
    cbn [length] in Hlen.
    assert (Qn (length (bc_S st) - 2) <= Qn (len G - 2))%Q as Hstep
      by (apply Qn_le; lia).
    assert (0 <= Qn (len G - 2))%Q as Hn0
      by (change 0%Q with (Qn 0); apply Qn_le; lia).
    split; [lra|]. split.
    + destruct (decide (w = y)) as [->|Hne].
      * rewrite decide_False in Hup by tauto.
        rewrite decide_False in Hhi by done.
        rewrite decide_True by (apply elem_of_app; right; by left).
        rewrite length_app. cbn [length].
        replace (length pre + 1 - 1) with (length pre - 0) by lia. lra.
      * assert (others (pre ++ [y]) w = others pre w + 1) as ->.
        { rewrite length_app. cbn [length].
          destruct (decide (w ∈ pre)) as [Hin|Hin].
          - rewrite decide_True by (apply elem_of_app; by left).
            destruct pre; [by apply elem_of_nil in Hin|]. simpl. lia.
          - rewrite decide_False; [lia|].
            intros [?|?%list_elem_of_singleton]%elem_of_app; done. }
        rewrite Nat.mul_add_distr_r, Nat.mul_1_l, Qn_plus.
        destruct (decide (w ∈ bc_S st ∧ w ≠ y)); lra.
    + intros Hw. specialize (Hout Hw).
      rewrite decide_False in Hup; [lra|]. intros [Hin _]. apply Hw.
      apply (bc_nodes _ _ _ Hinv). rewrite (bc_dom_D _ _ _ Hinv).
      apply elem_of_list_to_set, elem_of_app. by left.
Qed.

(** [nx.betweenness_centrality] returns, and every score of its result
    lies in [[0, 1]]. *)
Lemma betweenness_centrality_spec :
  ∃ m, betweenness_centrality G = Ok m
       ∧ ∀ n q, m !! n = Some q → (0 <= q)%Q ∧ (q <= 1)%Q.
Proof.
  unfold betweenness_centrality.
  destruct (bc_sources_spec (nodes G) [] ((λ _, 0%Q) <$> g_node G))
    as (b & -> & Hb); [done| |].
  { intros w. rewrite lookup_fmap.
    assert (get ((λ _ : attrs, 0%Q) <$> g_node G) w = 0%Q) as Hz
      by (rewrite lookup_fmap; by destruct (g_node G !! w)).
    rewrite lookup_fmap in Hz. rewrite Hz. cbn [length].
    split; [done|]. split; [|done].
    change 0%Q with (Qn 0) at 1. apply Qn_le. lia. }
  cbn [mbind result_bind]. eexists. split; [done|].
  intros n q Hq. destruct (Hb n) as (H0 & Hhi & Hout).
  assert (length (nodes G) = len G) as Hlen by apply length_keys.
  unfold rescale in Hq. destruct (decide (len G ≤ 2)) as [Hsmall|Hbig].
  - rewrite Hq in H0, Hhi. cbn [default] in H0, Hhi. unfold id in *.
    split; [done|]. eapply Qle_trans; [apply Hhi|].
    replace (len G - 2) with 0 by lia. rewrite Nat.mul_0_r. done.
  - rewrite lookup_fmap in Hq.
    destruct (b !! n) as [q0|] eqn:Hq0; [|done].
    cbn in Hq. injection Hq as <-. cbn [default] in H0, Hhi, Hout.
    unfold id in *.
    set (D := Qn ((len G - 1) * (len G - 2))).
    assert (0 < D)%Q as HD.
    { unfold D. change 0%Q with (Qn 0). rewrite <- Zlt_Qlt. nia. }
    destruct (decide (n ∈ dom (g_node G))) as [Hin|Hnin].
    + rewrite decide_True in Hhi
        by (apply elem_of_keys; by apply elem_of_dom).
      rewrite Hlen in Hhi. fold D in Hhi.
      split.
      * apply Qmult_le_0_compat; [done|]. apply Qle_shift_div_l; lra.
      * assert (q0 * (1 / D) == q0 / D)%Q as -> by (field; lra).
        apply Qle_shift_div_r; lra.
    + rewrite (Hout Hnin). lra.
Qed.
End betweenness_range.

(** ** Centrality and influence *)

Section centrality_facts.
Import nx SocialNetwork NetworkAnalytics Examples.
Variable nx_eigenvector_centrality : DiGraph → result (gmap string Q).
Variable nx_betweenness_centrality : DiGraph → result (gmap string Q).
Variable nx_closeness_centrality : DiGraph → result (gmap string Q).
Implicit Types network : SocialNetwork.t.

Local Abbreviation measures :=
  (get_centrality_measures nx_eigenvector_centrality
     nx_betweenness_centrality nx_closeness_centrality).

Lemma centrality_unknown network user :
  contains (graph network) user = false → measures network !! user = None.
Proof.
  intros H%contains_false%not_elem_of_dom. unfold get_centrality_measures.
  destruct (decide _); [done|]. by rewrite map_lookup_imap, H.
Qed.

Lemma centrality_known network user r :
  measures network !! user = Some r →
  user ∈ dom (g_node (graph network))
  ∧ degree_centrality r
    = default 0%Q (nx.degree_centrality (graph network) !! user)
  ∧ eigenvector_centrality r
    = default 0%Q (or_zeros (graph network)
                     (nx_eigenvector_centrality (graph network)) !! user)
  ∧ betweenness_centrality r
    = default 0%Q (or_zeros (graph network)
                     (nx_betweenness_centrality (graph network)) !! user)
  ∧ closeness_centrality r
    = default 0%Q (or_zeros (graph network)
                     (nx_closeness_centrality (graph network)) !! user).
Proof.
  unfold get_centrality_measures. destruct (decide _); [done|].
  rewrite map_lookup_imap.
  destruct (g_node (graph network) !! user) as [a|] eqn:Ha; [|done].
  simpl. intros [= <-]. simpl. split; [|done]. apply elem_of_dom. eauto.
Qed.

(** C7. For a handle that is not a node, [get_user_centrality] returns
    the record with four zeros, whatever the library routines do, and
    [calculate_influence_score] returns 0.0. *)
Theorem unknown_user_scores network user :
  contains (graph network) user = false →
  get_user_centrality nx_eigenvector_centrality nx_betweenness_centrality
    nx_closeness_centrality network user = zero_record
  ∧ calculate_influence_score nx_eigenvector_centrality
      nx_betweenness_centrality nx_closeness_centrality network user = 0%Q.
Proof.
  intros H. split.
  - unfold get_user_centrality. by rewrite centrality_unknown.
  - unfold calculate_influence_score. by rewrite H.
Qed.

(** *** Ranges *)

Lemma successors_size G n :
  wf G → out_degree G n ≤ len G
         ∧ (¬ edge G n n → 2 ≤ len G → out_degree G n ≤ len G - 1).
Proof.
  intros HG. unfold out_degree, len.
  destruct (g_succ G !! n) as [nbrs|] eqn:Hn; simpl;
    [|rewrite map_size_empty; split; intros; lia].
  rewrite <- !size_dom.
  assert (dom nbrs ⊆ dom (g_node G)) as Hsub.
  { intros x Hx%elem_of_dom. apply (edge_target G n); [done|].
    by exists nbrs. }
  split; [by apply subseteq_size|]. intros Hloop _.
  assert (n ∈ dom (g_node G)) as Hnode.
  { rewrite <- (wf_succ_dom _ HG). apply elem_of_dom. eauto. }
  assert (dom nbrs ⊆ dom (g_node G) ∖ {[n]}) as Hsub'%subseteq_size.
  { intros x Hx. apply elem_of_difference. split; [by apply Hsub|].
    intros ->%elem_of_singleton. apply Hloop. exists nbrs.
    split; [done|]. by apply elem_of_dom. }
  rewrite size_difference, size_singleton in Hsub'
    by (by apply singleton_subseteq_l).
  done.
Qed.

Lemma predecessors_size G n :
  wf G → in_degree G n ≤ len G
         ∧ (¬ edge G n n → 2 ≤ len G → in_degree G n ≤ len G - 1).
Proof.
  intros HG. unfold in_degree, len.
  destruct (g_pred G !! n) as [prds|] eqn:Hn; simpl;
    [|rewrite map_size_empty; split; intros; lia].
  rewrite <- !size_dom.
  assert (∀ x, x ∈ dom prds → edge G x n) as Hedge.
  { intros x Hx%elem_of_dom. apply (wf_mirror _ HG). by exists prds. }
  assert (dom prds ⊆ dom (g_node G)) as Hsub.
  { intros x Hx. by apply (edge_source G x n), Hedge. }
  split; [by apply subseteq_size|]. intros Hloop _.
  assert (n ∈ dom (g_node G)) as Hnode.
  { rewrite <- (wf_pred_dom _ HG). apply elem_of_dom. eauto. }
  assert (dom prds ⊆ dom (g_node G) ∖ {[n]}) as Hsub'%subseteq_size.
  { intros x Hx. apply elem_of_difference. split; [by apply Hsub|].
    intros ->%elem_of_singleton. by apply Hloop, Hedge. }
  rewrite size_difference, size_singleton in Hsub'
    by (by apply singleton_subseteq_l).
  done.
Qed.

(** [d * (1.0 / (n - 1.0))] is at most [k] when [d ≤ k (n - 1)]. *)
Lemma degree_score_bound (d n k : nat) :
  2 ≤ n → d ≤ k * (n - 1) →
  let v := (inject_Z (Z.of_nat d) * (1 / (inject_Z (Z.of_nat n) - 1)))%Q in
  (0 <= v)%Q ∧ (v <= inject_Z (Z.of_nat k))%Q.
Proof.
  intros Hn Hd v. subst v.
  assert (inject_Z (Z.of_nat n) - 1 == inject_Z (Z.of_nat (n - 1)))%Q as HD.
  { rewrite Nat2Z.inj_sub by lia. unfold Z.sub. rewrite inject_Z_plus.
    rewrite inject_Z_opp. reflexivity. }
  assert (0 < inject_Z (Z.of_nat (n - 1)))%Q as Hpos.
  { rewrite <- (Zlt_Qlt 0). lia. }
  assert (inject_Z (Z.of_nat d) * (1 / (inject_Z (Z.of_nat n) - 1))
          == inject_Z (Z.of_nat d) / inject_Z (Z.of_nat (n - 1)))%Q as ->.
  { rewrite HD. unfold Qdiv. by rewrite Qmult_1_l. }
  split.
  - apply Qle_shift_div_l; [done|]. rewrite Qmult_0_l.
    rewrite <- (Zle_Qle 0). lia.
  - apply Qle_shift_div_r; [done|]. rewrite <- inject_Z_mult.
    rewrite <- Zle_Qle. lia.
Qed.

Lemma degree_centrality_range G n q :
  wf G → nx.degree_centrality G !! n = Some q →
  (0 <= q)%Q ∧ (q <= 4)%Q ∧ (¬ edge G n n → q <= 2)%Q.
Proof.
  intros HG. unfold nx.degree_centrality.
  destruct (decide (len G ≤ 1)) as [Hle|Hgt].
  - rewrite lookup_fmap. destruct (g_node G !! n); [|done].
    intros [= <-]. done.
  - rewrite map_lookup_imap. destruct (g_node G !! n); [|done].
    simpl. intros [= <-].
    destruct (successors_size G n HG) as [Ho Ho'].
    destruct (predecessors_size G n HG) as [Hi Hi'].
    split; [|split].
    + apply (degree_score_bound _ _ 4); [lia|]. unfold degree. lia.
    + apply (degree_score_bound _ _ 4); [lia|]. unfold degree. lia.
    + intros Hloop. apply (degree_score_bound _ _ 2); [lia|].
      unfold degree. specialize (Ho' Hloop). specialize (Hi' Hloop). lia.
Qed.

Lemma or_zeros_range G r n :
  unit_scores r →
  (0 <= default 0 (or_zeros G r !! n))%Q
  ∧ (default 0 (or_zeros G r !! n) <= 1)%Q.
Proof.
  intros Hr. destruct r as [m|e]; simpl.
  - destruct (m !! n) as [q|] eqn:Hq; simpl; [by eapply Hr|done].
  - rewrite lookup_fmap. by destruct (g_node G !! n).
Qed.
End centrality_facts.

Section centrality_ranges.
Import nx SocialNetwork NetworkAnalytics.
(** Betweenness and closeness are the routines given above; the
    eigenvector routine, a power iteration, stays a parameter. *)
Variable nx_eigenvector_centrality : DiGraph → result (gmap string Q).

Lemma returned_unit_scores (r : result (gmap string Q)) :
  (∃ m, r = Ok m ∧ ∀ n q, m !! n = Some q → (0 <= q)%Q ∧ (q <= 1)%Q) →
  unit_scores r.
Proof. intros (m & -> & Hm) m' n q [= <-]. apply Hm. Qed.

End centrality_ranges.

Section centrality_examples.
Import nx SocialNetwork NetworkAnalytics Examples.

Lemma unknown_user_scores_witness :
  get_user_centrality eigenvector_fails betweenness_zero closeness_one
    chain_ABC "Zed" = zero_record
  ∧ calculate_influence_score eigenvector_fails betweenness_zero
      closeness_one chain_ABC "Zed" = 0%Q.
Proof.
  apply (unknown_user_scores eigenvector_fails betweenness_zero
           closeness_one chain_ABC "Zed").
  vm_compute. reflexivity.
Defined.

Lemma wf_mutual_AB : wf (graph mutual_AB).
Proof.
  unfold mutual_AB.
  do 2 apply wf_add_friendship. do 2 apply wf_add_user. apply wf_init.
Qed.

Lemma constant_unit_scores (c : Q) G :
  (0 <= c)%Q → (c <= 1)%Q → unit_scores (Ok ((λ _, c) <$> g_node G)).
Proof.
  intros H0 H1 m n q [= <-]. rewrite lookup_fmap.
  destruct (g_node G !! n); [|done]. by intros [= <-].
Qed.


(** The scores networkx computes on the chain A → B → C, and on two users
    following each other. *)
Example centrality_chain :
  ∃ b c,
    nx.betweenness_centrality (graph chain_ABC) = Ok b
    ∧ nx.closeness_centrality (graph chain_ABC) = Ok c
    ∧ (default 0 (b !! "A") == 0 ∧ default 0 (b !! "B") == 1 # 2
       ∧ default 0 (b !! "C") == 0)%Q
    ∧ (default 0 (c !! "A") == 0 ∧ default 0 (c !! "B") == 1 # 2
       ∧ default 0 (c !! "C") == 2 # 3)%Q.
Proof.
  eexists _, _. split; [by vm_compute|]. split; [by vm_compute|].
  by vm_compute.
Qed.

Example centrality_mutual :
  ∃ b c,
    nx.betweenness_centrality (graph mutual_AB) = Ok b
    ∧ nx.closeness_centrality (graph mutual_AB) = Ok c
    ∧ (default 0 (b !! "A") == 0 ∧ default 0 (b !! "B") == 0)%Q
    ∧ (default 0 (c !! "A") == 1 ∧ default 0 (c !! "B") == 1)%Q.
Proof.
  eexists _, _. split; [by vm_compute|]. split; [by vm_compute|].
  by vm_compute.
Qed.

End centrality_examples.


(** ** The undirected copy and its components *)

Lemma foldl_prefix_inv {A S} (f : S → A → S) (P : list A → S → Prop)
    (xs : list A) (acc : S) :
  P [] acc →
  (∀ pre x s, P pre s → x ∈ xs → P (pre ++ [x]) (f s x)) →
  P xs (foldl f acc xs).
Proof.
  intros Hacc Hf.
  cut (∀ pre ys acc, P pre acc → ys ⊆ xs → P (pre ++ ys) (foldl f acc ys)).
  { intros H. apply (H [] xs acc); done. }
  intros pre ys. revert pre. induction ys as [|y ys IH]; intros pre a Ha Hsub.
  - simpl. by rewrite app_nil_r.
  - simpl. rewrite cons_middle, app_assoc. apply IH.
    + apply Hf; [done|]. apply Hsub. by left.
    + intros z Hz. apply Hsub. by right.
Qed.

Section undirected_facts.
Import nx SocialNetwork.
Implicit Types G : Graph.

Lemma u_wf_empty : u_wf u_empty.
Proof.
  split; [done|]. intros a b (? & H & _). simpl in H.
  by rewrite lookup_empty in H.
Qed.

Lemma u_add_node_spec n (attr : attrs) G :
  u_wf G →
  u_wf (u_add_node n attr G)
  ∧ dom (u_node (u_add_node n attr G)) = {[n]} ∪ dom (u_node G)
  ∧ ∀ a b, adjacent (u_adj (u_add_node n attr G)) a b
           ↔ adjacent (u_adj G) a b.
Proof.
  intros [Hd Hs]. unfold u_add_node.
  destruct (u_node G !! n) as [old|] eqn:Hn; simpl.
  - split; [split; simpl; [|done]|split; [|done]].
    + rewrite dom_insert_L, Hd. apply elem_of_dom_2 in Hn.
      symmetry. by apply subseteq_union_1_L, singleton_subseteq_l.
    + by rewrite dom_insert_L.
  - assert (u_adj G !! n = None) as Han.
    { apply not_elem_of_dom. rewrite Hd. by apply not_elem_of_dom. }
    split; [split; simpl|split].
    + by rewrite !dom_insert_L, Hd.
    + intros a b. rewrite !adjacent_insert_empty by done. apply Hs.
    + by rewrite dom_insert_L.
    + intros a b. by rewrite adjacent_insert_empty.
Qed.

Lemma u_ensure_node_spec n G :
  u_wf G →
  u_wf (u_ensure_node n G)
  ∧ dom (u_node (u_ensure_node n G)) = {[n]} ∪ dom (u_node G)
  ∧ ∀ a b, adjacent (u_adj (u_ensure_node n G)) a b
           ↔ adjacent (u_adj G) a b.
Proof.
  intros [Hd Hs]. unfold u_ensure_node.
  destruct (u_node G !! n) as [old|] eqn:Hn; simpl.
  - split; [done|]. split; [|done]. apply elem_of_dom_2 in Hn.
    symmetry. by apply subseteq_union_1_L, singleton_subseteq_l.
  - assert (u_adj G !! n = None) as Han.
    { apply not_elem_of_dom. rewrite Hd. by apply not_elem_of_dom. }
    split; [split; simpl|split].
    + by rewrite !dom_insert_L, Hd.
    + intros a b. rewrite !adjacent_insert_empty by done. apply Hs.
    + by rewrite dom_insert_L.
    + intros a b. by rewrite adjacent_insert_empty.
Qed.

Lemma u_add_edge_spec u v (attr : attrs) G :
  u_wf G →
  u_wf (u_add_edge u v attr G)
  ∧ dom (u_node (u_add_edge u v attr G)) = {[u; v]} ∪ dom (u_node G)
  ∧ ∀ a b, adjacent (u_adj (u_add_edge u v attr G)) a b
           ↔ adjacent (u_adj G) a b ∨ (a = u ∧ b = v) ∨ (a = v ∧ b = u).
Proof.
  intros HG. unfold u_add_edge.
  destruct (u_ensure_node_spec u G HG) as (HG1 & Hd1 & Ha1).
  destruct (u_ensure_node_spec v _ HG1) as ([Hd Hs] & Hd2 & Ha2).
  set (G2 := u_ensure_node v (u_ensure_node u G)) in *.
  set (d := attr ∪ _). clearbody d.
  assert (is_Some (u_adj G2 !! u)) as Hu.
  { apply elem_of_dom. rewrite Hd, Hd2, Hd1. set_solver. }
  assert (is_Some (u_adj G2 !! v)) as Hv.
  { apply elem_of_dom. rewrite Hd, Hd2. set_solver. }
  assert (∀ a b, adjacent (alter (insert u d) v (alter (insert v d) u (u_adj G2))) a b
                 ↔ adjacent (u_adj G) a b ∨ (a = u ∧ b = v) ∨ (a = v ∧ b = u))
    as Hadj.
  { intros a b. rewrite adjacent_alter_insert.
    - rewrite adjacent_alter_insert by done. rewrite Ha2, Ha1. tauto.
    - apply lookup_alter_is_Some. done. }
  split; [split; simpl|split; simpl].
  - by rewrite !dom_alter_L.
  - intros a b. rewrite !Hadj. intros [H|[[-> ->]|[-> ->]]]; auto.
    left. apply (u_wf_sym _ HG). done.
  - rewrite Hd2, Hd1. set_solver.
  - done.
Qed.

Lemma elem_of_edges (G : DiGraph) a b d :
  (a, b, d) ∈ edges G
  ↔ ∃ nbrs, g_succ G !! a = Some nbrs ∧ nbrs !! b = Some d.
Proof.
  unfold edges. rewrite list_elem_of_bind. split.
  - intros ([u nbrs] & Hin & Hu). apply elem_of_map_to_list in Hu.
    apply list_elem_of_bind in Hin as ([v d'] & Hin & Hv).
    apply elem_of_map_to_list in Hv.
    apply list_elem_of_singleton in Hin as [= -> -> ->]. eauto.
  - intros (nbrs & Ha & Hb). exists (a, nbrs). split.
    + apply list_elem_of_bind. exists (b, d). split; [by left|].
      by apply elem_of_map_to_list.
    + by apply elem_of_map_to_list.
Qed.

Lemma edge_edges (G : DiGraph) a b : edge G a b ↔ ∃ d, (a, b, d) ∈ edges G.
Proof.
  unfold edge, adjacent. split.
  - intros (nbrs & Ha & [d Hb]). exists d. apply elem_of_edges. eauto.
  - intros (d & (nbrs & Ha & Hb)%elem_of_edges). eauto.
Qed.

(** The undirected copy has the nodes of the directed graph, and two nodes
    are adjacent in it when an edge joins them in either direction. *)
Lemma to_undirected_spec (G : DiGraph) :
  wf G →
  u_wf (to_undirected G)
  ∧ dom (u_node (to_undirected G)) = dom (g_node G)
  ∧ ∀ a b, adjacent (u_adj (to_undirected G)) a b ↔ edge G a b ∨ edge G b a.
Proof.
  intros HG. unfold to_undirected.
  set (G0 := foldl _ u_empty _).
  assert (u_wf G0 ∧ dom (u_node G0) = dom (g_node G)
          ∧ ∀ a b, ¬ adjacent (u_adj G0) a b) as (HG0 & Hd0 & Ha0).
  { subst G0.
    pose proof (foldl_prefix_inv (λ acc nd, u_add_node nd.1 nd.2 acc)
      (λ pre acc, u_wf acc ∧ dom (u_node acc) = list_to_set pre.*1
                  ∧ ∀ a b, ¬ adjacent (u_adj acc) a b)
      (map_to_list (g_node G)) u_empty) as H.
    destruct H as (Hw & Hd & Ha).
    - split; [apply u_wf_empty|]. split; [done|].
      intros a b (? & H & _). simpl in H. by rewrite lookup_empty in H.
    - intros pre [n d] acc (Hw & Hd & Ha) _. cbn [fst snd].
      destruct (u_add_node_spec n d acc Hw) as (Hw' & Hd' & Ha').
      split; [done|]. split.
      + rewrite Hd', Hd, fmap_app, list_to_set_app_L. simpl. set_solver.
      + intros a b. rewrite Ha'. apply Ha.
    - split; [done|]. split; [|done]. rewrite Hd. apply set_eq. intros x.
      rewrite elem_of_list_to_set. fold (keys (g_node G)).
      by rewrite elem_of_keys, elem_of_dom. }
  clearbody G0.
  pose proof (foldl_prefix_inv (λ acc e, u_add_edge e.1.1 e.1.2 e.2 acc)
    (λ pre acc, u_wf acc ∧ dom (u_node acc) = dom (g_node G)
                ∧ ∀ a b, adjacent (u_adj acc) a b
                         ↔ ∃ d, (a, b, d) ∈ pre ∨ (b, a, d) ∈ pre)
    (edges G) G0) as H.
  destruct H as (Hw & Hd & Ha).
  - split; [done|]. split; [done|]. intros a b. split.
    + intros H. by apply Ha0 in H.
    + intros (d & [H|H]); by apply elem_of_nil in H.
  - intros pre [[u v] d] acc (Hw & Hd & Ha) Hin. cbn [fst snd].
    destruct (u_add_edge_spec u v d acc Hw) as (Hw' & Hd' & Ha').
    split; [done|]. split.
    + rewrite Hd', Hd.
      assert (edge G u v) as Huv by (apply edge_edges; eauto).
      pose proof (edge_source _ _ _ HG Huv).
      pose proof (edge_target _ _ _ HG Huv). set_solver.
    + intros a b. rewrite Ha', Ha. split.
      * intros [(d' & [H|H])|[[-> ->]|[-> ->]]].
        -- exists d'. left. apply elem_of_app. by left.
        -- exists d'. right. apply elem_of_app. by left.
        -- exists d. left. apply elem_of_app. right. by left.
        -- exists d. right. apply elem_of_app. right. by left.
      * intros (d' & [H|H]); apply elem_of_app in H as [H|H].
        -- left. eauto.
        -- apply list_elem_of_singleton in H as [= -> -> ->]. auto.
        -- left. eauto.
        -- apply list_elem_of_singleton in H as [= -> -> ->]. auto.
  - split; [done|]. split; [done|]. intros a b. rewrite Ha, !edge_edges.
    split.
    + intros (d & [H|H]); eauto.
    + intros [[d H]|[d H]]; eauto.
Qed.

Lemma u_remove_selfloops_spec G :
  u_wf G →
  u_wf (u_remove_selfloops G)
  ∧ u_node (u_remove_selfloops G) = u_node G
  ∧ ∀ a b, adjacent (u_adj (u_remove_selfloops G)) a b
           ↔ adjacent (u_adj G) a b ∧ a ≠ b.
Proof.
  intros [Hd Hs].
  assert (∀ a b, adjacent (u_adj (u_remove_selfloops G)) a b
                 ↔ adjacent (u_adj G) a b ∧ a ≠ b) as Hadj.
  { intros a b. unfold adjacent, u_remove_selfloops. simpl.
    rewrite map_lookup_imap. destruct (u_adj G !! a) as [nbrs|]; simpl.
    - split.
      + intros (? & [= <-] & [Hne Hb]%lookup_delete_is_Some). eauto.
      + intros [(? & [= <-] & Hb) Hne]. eexists. split; [done|].
        by apply lookup_delete_is_Some.
    - split; [by intros (? & ? & _)|by intros [(? & ? & _) _]]. }
  split; [split|split; [done|done]].
  - simpl. rewrite <- Hd. apply set_eq. intros x. rewrite !elem_of_dom.
    rewrite map_lookup_imap. by destruct (u_adj G !! x).
  - intros a b. rewrite !Hadj. intros [H Hne]. split; [by apply Hs|done].
Qed.

Lemma u_remove_edge_spec u v G :
  u_wf G → adjacent (u_adj G) u v →
  ∃ G', u_remove_edge u v G = Ok G'
        ∧ u_wf G' ∧ u_node G' = u_node G
        ∧ ∀ a b, adjacent (u_adj G') a b
                 ↔ adjacent (u_adj G) a b
                   ∧ ¬ (a = u ∧ b = v) ∧ ¬ (a = v ∧ b = u).
Proof.
  intros [Hd Hs] (nbrs & Hu & Hv). unfold u_remove_edge. rewrite Hu.
  rewrite decide_True by done. eexists. split; [done|].
  assert (∀ a b, adjacent (alter (delete u) v (alter (delete v) u (u_adj G))) a b
                 ↔ adjacent (u_adj G) a b
                   ∧ ¬ (a = u ∧ b = v) ∧ ¬ (a = v ∧ b = u)) as Hadj.
  { intros a b. rewrite !adjacent_alter_delete. tauto. }
  split; [split; simpl|split; [done|done]].
  - by rewrite !dom_alter_L.
  - intros a b. rewrite !Hadj. intros (H & H1 & H2).
    split; [by apply Hs|]. tauto.
Qed.

(** *** Breadth-first search *)

Lemma elem_of_dom_adj (m : gmap string (gmap string attrs)) v y :
  y ∈ dom (default ∅ (m !! v)) ↔ adjacent m v y.
Proof.
  rewrite elem_of_dom. unfold adjacent. destruct (m !! v) as [nbrs|]; simpl.
  - split; [eauto|]. by intros (? & [= <-] & ?).
  - rewrite lookup_empty. split; [by intros []|by intros (? & ? & _)].
Qed.

Lemma adjacent_nodes G a b :
  u_wf G → adjacent (u_adj G) a b →
  a ∈ dom (u_node G) ∧ b ∈ dom (u_node G).
Proof.
  intros [Hd Hs] Hab. pose proof (Hs _ _ Hab) as Hba.
  destruct Hab as (? & Ha & _), Hba as (? & Hb & _).
  rewrite <- Hd. split; apply elem_of_dom; eauto.
Qed.

Lemma connected_nodes G a b :
  u_wf G → a ∈ dom (u_node G) → connected G a b → b ∈ dom (u_node G).
Proof.
  intros HG Ha Hab. induction Hab as [|x y z Hxy _ IH]; [done|].
  apply IH. by apply (adjacent_nodes G x y).
Qed.

Lemma connected_sym G a b : u_wf G → connected G a b → connected G b a.
Proof.
  intros HG Hab. induction Hab as [|x y z Hxy _ IH]; [apply rtc_refl|].
  eapply rtc_r; [exact IH|]. by apply (u_wf_sym _ HG).
Qed.

Lemma closed_connected G (X : gset string) a b :
  (∀ x y, x ∈ X → adjacent (u_adj G) x y → y ∈ X) →
  a ∈ X → connected G a b → b ∈ X.
Proof.
  intros Hcl Ha Hab. induction Hab as [|x y z Hxy _ IH]; [done|].
  apply IH. by apply (Hcl x).
Qed.

(** One pass over a level: every node of the level is seen afterwards, and
    the next level is made of the neighbours of the nodes that were new. *)
Lemma bfs_pass_spec G (seen nextlevel : gset string) :
  let st := foldl (bfs_visit G) (seen, ∅) (elements nextlevel) in
  st.1 = seen ∪ nextlevel
  ∧ (∀ y, y ∈ st.2 →
       ∃ v, v ∈ nextlevel ∧ (v ∉ seen) ∧ adjacent (u_adj G) v y)
  ∧ (∀ v y, v ∈ nextlevel → v ∉ seen → adjacent (u_adj G) v y → y ∈ st.2).
Proof.
  intros st. subst st.
  pose proof (foldl_prefix_inv (bfs_visit G)
    (λ pre st,
       st.1 = seen ∪ list_to_set pre
       ∧ (∀ y, y ∈ st.2 → ∃ v, v ∈ pre ∧ (v ∉ seen) ∧ adjacent (u_adj G) v y)
       ∧ (∀ v y, v ∈ pre → v ∉ seen → adjacent (u_adj G) v y → y ∈ st.2))
    (elements nextlevel) (seen, ∅)) as H.
  destruct H as (H1 & H2 & H3).
  - simpl. split; [by rewrite union_empty_r_L|]. split.
    + by intros y ?%not_elem_of_empty.
    + by intros v y ?%elem_of_nil.
  - intros pre v [s nx] (H1 & H2 & H3) Hv. simpl in *. unfold bfs_visit.
    simpl. destruct (decide (v ∈ s)) as [Hin|Hnotin]; simpl.
    + split; [|split].
      * rewrite list_to_set_app_L. simpl. rewrite H1 in Hin |- *.
        apply set_eq. intros x. rewrite !elem_of_union, elem_of_singleton.
        rewrite elem_of_empty. rewrite elem_of_union in Hin.
        split; [tauto|]. intros [?|[?|[->|[]]]]; tauto.
      * intros y Hy. destruct (H2 y Hy) as (w & Hw & ? & ?).
        exists w. split; [|done]. apply elem_of_app. by left.
      * intros w y Hw Hws Hwy. apply elem_of_app in Hw as [Hw|Hw].
        -- by apply (H3 w).
        -- apply list_elem_of_singleton in Hw as ->. rewrite H1 in Hin.
           apply elem_of_union in Hin as [?|Hin]; [done|].
           apply elem_of_list_to_set in Hin. by apply (H3 v).
    + split; [|split].
      * rewrite list_to_set_app_L. simpl. rewrite H1.
        apply set_eq. intros x. rewrite !elem_of_union, elem_of_singleton.
        rewrite elem_of_empty. tauto.
      * intros y Hy. apply elem_of_union in Hy as [Hy|Hy].
        -- destruct (H2 y Hy) as (w & Hw & ? & ?).
           exists w. split; [|done]. apply elem_of_app. by left.
        -- exists v. split; [apply elem_of_app; right; by left|].
           split; [|by apply elem_of_dom_adj].
           intros Hvs. apply Hnotin. rewrite H1. apply elem_of_union. by left.
      * intros w y Hw Hws Hwy. apply elem_of_union.
        apply elem_of_app in Hw as [Hw|Hw].
        -- left. by apply (H3 w).
        -- apply list_elem_of_singleton in Hw as ->. right.
           by apply elem_of_dom_adj.
  - split; [|split].
    + rewrite H1. f_equal. apply set_eq. intros x.
      by rewrite elem_of_list_to_set, elem_of_elements.
    + intros y Hy. destruct (H2 y Hy) as (v & Hv & ? & ?).
      exists v. split; [|done]. by apply elem_of_elements.
    + intros v y Hv. apply H3. by apply elem_of_elements.
Qed.

(** The search returns the nodes connected to the source: the step count
    is never what stops it. *)
Lemma bfs_levels_spec G source fuel (seen nextlevel : gset string) :
  u_wf G →
  seen ⊆ dom (u_node G) → nextlevel ⊆ dom (u_node G) →
  (∀ x, x ∈ seen ∪ nextlevel → connected G source x) →
  (∀ x y, x ∈ seen → adjacent (u_adj G) x y → y ∈ seen ∨ y ∈ nextlevel) →
  source ∈ seen ∪ nextlevel →
  size (dom (u_node G) ∖ seen) < fuel ∨ nextlevel ⊆ seen →
  ∀ x, x ∈ bfs_levels fuel G seen nextlevel ↔ connected G source x.
Proof.
  intros HG. revert seen nextlevel.
  assert (∀ seen nextlevel : gset string,
    (∀ x, x ∈ seen ∪ nextlevel → connected G source x) →
    (∀ x y, x ∈ seen → adjacent (u_adj G) x y → y ∈ seen ∨ y ∈ nextlevel) →
    source ∈ seen ∪ nextlevel → nextlevel ⊆ seen →
    ∀ x, x ∈ seen ↔ connected G source x) as Hdone.
  { intros seen nextlevel Hreach Hcl Hsrc Hsub x. split.
    - intros Hx. apply Hreach. apply elem_of_union. by left.
    - apply closed_connected.
      + intros a b Ha Hab. destruct (Hcl a b Ha Hab); [done|by apply Hsub].
      + apply elem_of_union in Hsrc as [?|?]; [done|by apply Hsub]. }
  induction fuel as [|fuel IH];
    intros seen nextlevel Hseen Hnext Hreach Hcl Hsrc Hfuel; simpl.
  - destruct Hfuel as [?|Hsub]; [lia|]. by apply (Hdone seen nextlevel).
  - destruct (decide (nextlevel = ∅)) as [->|Hne].
    { apply (Hdone seen ∅); try done. }
    destruct (bfs_pass_spec G seen nextlevel) as (H1 & H2 & H3).
    set (st := foldl (bfs_visit G) (seen, ∅) (elements nextlevel)) in *.
    apply IH.
    + rewrite H1. by apply union_subseteq.
    + intros y Hy. destruct (H2 y Hy) as (v & _ & _ & Hvy).
      by apply (adjacent_nodes G v y).
    + intros x Hx. apply elem_of_union in Hx as [Hx|Hx].
      * apply Hreach. by rewrite <- H1.
      * destruct (H2 x Hx) as (v & Hv & _ & Hvx).
        eapply rtc_r; [|exact Hvx]. apply Hreach. apply elem_of_union. by right.
    + intros x y Hx Hxy. rewrite H1 in Hx |- *.
      destruct (decide (x ∈ seen)) as [Hxs|Hxs].
      * left. apply elem_of_union. by apply (Hcl x).
      * right. apply (H3 x); [|done|done].
        apply elem_of_union in Hx as [?|?]; done.
    + rewrite H1. apply elem_of_union. by left.
    + destruct (decide (Exists (λ v, v ∉ seen) (elements nextlevel)))
        as [Hex|Hnex].
      * left. destruct Hfuel as [Hfuel|Hsub].
        2:{ apply Exists_exists in Hex as (v & Hv%elem_of_elements & Hvs).
            destruct Hvs. by apply Hsub. }
        apply Exists_exists in Hex as (v & Hv%elem_of_elements & Hvs).
        assert (dom (u_node G) ∖ st.1 ⊂ dom (u_node G) ∖ seen)
          as Hlt%subset_size; [|lia].
        rewrite H1. split.
        -- intros x. rewrite !elem_of_difference, elem_of_union. tauto.
        -- intros Hrev. specialize (Hrev v).
           rewrite !elem_of_difference, elem_of_union in Hrev.
           destruct Hrev as [_ Hrev]; [split; [by apply Hnext|done]|].
           apply Hrev. by right.
      * right. intros y Hy. destruct (H2 y Hy) as (v & Hv & Hvs & _).
        destruct Hnex. apply Exists_exists. exists v.
        split; [by apply elem_of_elements|done].
Qed.

Lemma plain_bfs_spec G source x :
  u_wf G → source ∈ dom (u_node G) →
  x ∈ plain_bfs G source ↔ connected G source x.
Proof.
  intros HG Hsrc. unfold plain_bfs. apply bfs_levels_spec.
  - done.
  - apply empty_subseteq.
  - by apply singleton_subseteq_l.
  - intros y Hy. rewrite union_empty_l_L in Hy.
    apply elem_of_singleton in Hy as ->. apply rtc_refl.
  - by intros y z ?%not_elem_of_empty.
  - rewrite union_empty_l_L. by apply elem_of_singleton.
  - left. rewrite difference_empty_L, size_dom. unfold u_len. lia.
Qed.

(** *** Connected components *)

Lemma as_lists_snoc (cs : list (gset string)) c :
  concat (as_lists (cs ++ [c])) = concat (as_lists cs) ++ elements c.
Proof.
  unfold as_lists. rewrite fmap_app, concat_app. simpl. by rewrite app_nil_r.
Qed.

(** The components partition the nodes. *)
Lemma connected_components_spec G :
  u_wf G →
  partition_of (as_lists (connected_components G)) (dom (u_node G))
  ∧ Forall (component G) (connected_components G).
Proof.
  intros HG. unfold connected_components.
  pose proof (foldl_prefix_inv (components_visit G)
    (λ pre st,
       (∀ x, x ∈ st.1 ↔ x ∈ concat (as_lists st.2))
       ∧ NoDup (concat (as_lists st.2))
       ∧ (∀ x, x ∈ pre → x ∈ st.1)
       ∧ st.1 ⊆ dom (u_node G)
       ∧ (∀ x y, x ∈ st.1 → adjacent (u_adj G) x y → y ∈ st.1)
       ∧ Forall (component G) st.2)
    (keys (u_node G)) (∅, [])) as H.
  destruct H as (Hmem & Hnd & Hall & Hsub & _ & Hcomp).
  - simpl. split; [|split; [constructor|split; [|split; [|split]]]].
    + intros x. split; [by intros ?%not_elem_of_empty|by intros ?%elem_of_nil].
    + by intros x ?%elem_of_nil.
    + apply empty_subseteq.
    + by intros x y ?%not_elem_of_empty.
    + constructor.
  - intros pre v [seen cs] (Hmem & Hnd & Hall & Hsub & Hcl & Hcomp) Hv.
    simpl in *. apply elem_of_keys, elem_of_dom in Hv.
    unfold components_visit. simpl.
    destruct (decide (v ∈ seen)) as [Hin|Hnotin]; simpl.
    + split; [done|]. split; [done|]. split; [|done].
      intros x [Hx|Hx]%elem_of_app; [auto|].
      by apply list_elem_of_singleton in Hx as ->.
    + pose proof (λ x, plain_bfs_spec G v x HG Hv) as Hbfs.
      split; [|split; [|split; [|split; [|split]]]].
      * intros x. rewrite as_lists_snoc, elem_of_app, elem_of_union.
        by rewrite Hmem, elem_of_elements.
      * rewrite as_lists_snoc. apply NoDup_app. split; [done|].
        split; [|apply NoDup_elements].
        intros x Hx%Hmem Hc%elem_of_elements%Hbfs. apply Hnotin.
        apply (closed_connected G seen x v); [done|done|].
        by apply connected_sym.
      * intros x [Hx|Hx]%elem_of_app; apply elem_of_union; [left; auto|right].
        apply list_elem_of_singleton in Hx as ->. apply Hbfs, rtc_refl.
      * apply union_subseteq. split; [done|].
        intros x Hx%Hbfs. by apply (connected_nodes G v).
      * intros x y [Hx|Hx]%elem_of_union Hxy; apply elem_of_union.
        -- left. by apply (Hcl x).
        -- right. apply Hbfs. eapply rtc_r; [by apply Hbfs|done].
      * apply Forall_app. split; [done|]. constructor; [|constructor].
        exists v. split; [done|]. apply Hbfs.
  - split; [|done]. split; [done|]. intros x. rewrite <- Hmem. split.
    + apply Hsub.
    + intros Hx. apply Hall. by apply elem_of_keys, elem_of_dom.
Qed.

(** *** Counting edges and components *)

Lemma elem_of_u_edge_set G a b :
  (a, b) ∈ u_edge_set G ↔ adjacent (u_adj G) a b.
Proof.
  unfold u_edge_set. rewrite elem_of_list_to_set, list_elem_of_bind. split.
  - intros ([u nbrs] & Hin & Hu%elem_of_map_to_list).
    apply list_elem_of_bind in Hin as (v & Hin & Hv%elem_of_keys).
    apply list_elem_of_singleton in Hin as [= -> ->]. by exists nbrs.
  - intros (nbrs & Ha & Hb). exists (a, nbrs). split.
    + apply list_elem_of_bind. exists b. split; [by left|].
      by apply elem_of_keys.
    + by apply elem_of_map_to_list.
Qed.

Lemma sum_list_fmap_elem (f : string → nat) (l : list string) a :
  a ∈ l → f a ≤ sum_list (f <$> l).
Proof.
  induction l as [|x l IH]; [by intros ?%elem_of_nil|].
  rewrite fmap_cons. cbn [sum_list_with]. unfold id at 1.
  intros [->|Ha]%elem_of_cons; [lia|]. specialize (IH Ha). lia.
Qed.

Lemma sum_list_fmap_two (f : string → nat) (l : list string) a b :
  a ≠ b → a ∈ l → b ∈ l → f a + f b ≤ sum_list (f <$> l).
Proof.
  intros Hne. induction l as [|x l IH]; [by intros ?%elem_of_nil|].
  rewrite fmap_cons. cbn [sum_list_with]. unfold id at 1.
  intros [->|Ha]%elem_of_cons [->|Hb]%elem_of_cons.
  - done.
  - pose proof (sum_list_fmap_elem f l b Hb). lia.
  - pose proof (sum_list_fmap_elem f l a Ha). lia.
  - specialize (IH Ha Hb). lia.
Qed.

Lemma sum_list_fmap_zero (f : string → nat) (l : list string) :
  (∀ a, a ∈ l → f a = 0) → sum_list (f <$> l) = 0.
Proof.
  induction l as [|x l IH]; [done|].
  rewrite fmap_cons. cbn [sum_list_with]. unfold id at 1. intros H.
  rewrite (H x) by by left. rewrite IH; [done|].
  intros a Ha. apply H. by right.
Qed.

Lemma u_degree_adjacent G a b :
  adjacent (u_adj G) a b →
  1 ≤ u_degree G a ∧ (a = b → 2 ≤ u_degree G a).
Proof.
  intros (nbrs & Ha & Hb). unfold u_degree. rewrite Ha. simpl.
  pose proof (map_size_ne_0_lookup_2 nbrs b Hb). split; [lia|].
  intros <-. rewrite decide_True by done. lia.
Qed.

Lemma u_number_of_edges_pos G a b :
  u_wf G → adjacent (u_adj G) a b → 0 < u_number_of_edges G.
Proof.
  intros HG Hab. unfold u_number_of_edges.
  destruct (adjacent_nodes G a b HG Hab) as [Ha Hb].
  apply elem_of_dom, elem_of_keys in Ha, Hb.
  assert (2 ≤ sum_list (u_degree G <$> keys (u_node G))) as Hsum.
  { destruct (decide (a = b)) as [<-|Hne].
    - pose proof (sum_list_fmap_elem (u_degree G) _ a Ha).
      destruct (u_degree_adjacent G a a Hab) as [_ H2].
      specialize (H2 eq_refl). lia.
    - pose proof (sum_list_fmap_two (u_degree G) _ a b Hne Ha Hb).
      destruct (u_degree_adjacent G a b Hab) as [? _].
      destruct (u_degree_adjacent G b a (u_wf_sym _ HG _ _ Hab)) as [? _].
      lia. }
  apply Nat.div_str_pos. lia.
Qed.

Lemma u_number_of_edges_zero G :
  (∀ a b, ¬ adjacent (u_adj G) a b) → u_number_of_edges G = 0.
Proof.
  intros Hno. unfold u_number_of_edges. rewrite sum_list_fmap_zero; [done|].
  intros a _. unfold u_degree.
  destruct (u_adj G !! a) as [nbrs|] eqn:Ha; simpl.
  - assert (nbrs = ∅) as ->.
    { apply map_empty. intros b. destruct (nbrs !! b) eqn:Hb; [|done].
      destruct (Hno a b). exists nbrs. eauto. }
    rewrite map_size_empty, lookup_empty, decide_False; [done|].
    by intros [].
  - rewrite map_size_empty, lookup_empty, decide_False; [done|].
    by intros [].
Qed.

Lemma elem_of_concat (x : string) (ls : list (list string)) :
  x ∈ concat ls ↔ ∃ l, x ∈ l ∧ l ∈ ls.
Proof.
  induction ls as [|l ls IH]; simpl.
  - split; [by intros ?%elem_of_nil|]. by intros (l & _ & ?%elem_of_nil).
  - rewrite elem_of_app, IH. split.
    + intros [Hx|(l' & Hx & Hl')]; [exists l|exists l'];
        (split; [done|]); [by left|by right].
    + intros (l' & Hx & [->|Hl']%elem_of_cons); eauto.
Qed.

Lemma partition_length (cs : list (list string)) (X : gset string) :
  partition_of cs X → length (concat cs) = size X.
Proof.
  intros [Hnd Hmem]. unfold size, set_size. simpl. apply Permutation_length.
  apply NoDup_Permutation; [done|apply NoDup_elements|].
  intros x. by rewrite Hmem, elem_of_elements.
Qed.

Lemma length_concat_nonempty (ls : list (list string)) :
  Forall (λ l, 1 ≤ length l) ls →
  length ls ≤ length (concat ls)
  ∧ (Exists (λ l, 2 ≤ length l) ls → length ls < length (concat ls))
  ∧ (Forall (λ l, length l = 1) ls → length ls = length (concat ls)).
Proof.
  induction 1 as [|l ls Hl _ IH]; simpl.
  - split; [done|]. split; [by intros ?%Exists_nil|done].
  - destruct IH as (IH1 & IH2 & IH3). rewrite length_app.
    split; [lia|]. split.
    + intros [H2|Hex]%Exists_cons; [lia|]. specialize (IH2 Hex). lia.
    + intros [H1 Hall]%Forall_cons. specialize (IH3 Hall). lia.
Qed.

Lemma component_nonempty G c : component G c → 1 ≤ size c.
Proof.
  intros (v & _ & Hc). assert (v ∈ c) as Hv by apply Hc, rtc_refl.
  destruct (decide (size c = 0)) as [Hz%size_empty_inv|]; [|lia].
  by apply Hz in Hv.
Qed.

(** Without edges every node is a component of its own. *)
Lemma components_of_edgeless G :
  u_wf G → (∀ a b, ¬ adjacent (u_adj G) a b) →
  number_connected_components G = size (u_node G).
Proof.
  intros HG Hno. unfold number_connected_components.
  destruct (connected_components_spec G HG) as [Hpart Hcomp].
  rewrite <- size_dom, <- (partition_length _ _ Hpart).
  unfold as_lists in *. rewrite <- (length_fmap elements).
  apply length_concat_nonempty.
  - apply Forall_fmap. eapply Forall_impl; [exact Hcomp|].
    intros c Hc. change (1 ≤ size c). by apply (component_nonempty G).
  - apply Forall_fmap. eapply Forall_impl; [exact Hcomp|].
    intros c (v & Hv & Hc). change (size c = 1).
    assert (c = {[v]}) as ->; [|apply size_singleton].
    apply set_eq. intros x. rewrite Hc, elem_of_singleton. split.
    + intros [->|(y & Hvy & _)]%rtc_inv; [done|]. by destruct (Hno v y).
    + intros ->. apply rtc_refl.
Qed.

(** An edge between two distinct nodes puts them in one component. *)
Lemma components_of_joined G a b :
  u_wf G → a ≠ b → adjacent (u_adj G) a b →
  number_connected_components G < size (u_node G).
Proof.
  intros HG Hne Hab. unfold number_connected_components.
  destruct (connected_components_spec G HG) as [Hpart Hcomp].
  rewrite <- size_dom, <- (partition_length _ _ Hpart).
  unfold as_lists in *. rewrite <- (length_fmap elements).
  apply length_concat_nonempty.
  - apply Forall_fmap. eapply Forall_impl; [exact Hcomp|].
    intros c Hc. change (1 ≤ size c). by apply (component_nonempty G).
  - destruct (adjacent_nodes G a b HG Hab) as [Ha _].
    apply Hpart in Ha. apply elem_of_concat in Ha as (l & Hal & Hl).
    apply list_elem_of_fmap in Hl as (c & -> & Hc).
    apply elem_of_elements in Hal. apply Exists_exists.
    exists (elements c). split; [apply list_elem_of_fmap; eauto|].
    rewrite Forall_forall in Hcomp. destruct (Hcomp c Hc) as (v & _ & Hv).
    assert (b ∈ c) as Hbc. { apply Hv. eapply rtc_r; [by apply Hv|done]. }
    assert ({[a; b]} ⊆ c) as Hsub%subseteq_size.
    { intros x [Hx|Hx]%elem_of_union; by apply elem_of_singleton in Hx as ->. }
    rewrite size_union in Hsub by (by apply disjoint_singleton_l,
      not_elem_of_singleton).
    rewrite !size_singleton in Hsub. done.
Qed.

(** *** [girvan_newman], up to its first [yield] *)

Section girvan_newman_facts.
Variable most_valuable_edge : Graph → result (string * string).

Local Abbreviation picks_an_edge := (nx.picks_an_edge most_valuable_edge).

Lemma without_most_central_edges_loop_spec fuel G original :
  picks_an_edge → u_wf G →
  original < size (u_node G) → size (u_edge_set G) < fuel →
  ∃ cs, without_most_central_edges_loop most_valuable_edge fuel G original
          (connected_components G) = Ok cs
        ∧ partition_of (as_lists cs) (dom (u_node G)).
Proof.
  intros Hpick. revert G.
  induction fuel as [|fuel IH]; intros G HG Horig Hfuel; [lia|]. simpl.
  destruct (decide _) as [Hle|Hgt].
  - assert (0 < u_number_of_edges G) as Hpos.
    { destruct (decide (u_number_of_edges G = 0)) as [Hz|]; [|lia].
      assert (∀ a b, ¬ adjacent (u_adj G) a b) as Hno.
      { intros a b Hab. pose proof (u_number_of_edges_pos G a b HG Hab). lia. }
      pose proof (components_of_edgeless G HG Hno) as Hn.
      unfold number_connected_components in Hn. lia. }
    destruct (Hpick G Hpos) as (e & -> & He). simpl.
    destruct (u_remove_edge_spec e.1 e.2 G HG He) as (G' & -> & HG' & Hn & Ha).
    simpl. rewrite <- Hn. apply IH; [done|by rewrite Hn|].
    assert (u_edge_set G' ⊂ u_edge_set G) as ?%subset_size; [|lia]. split.
    + intros [a b]. rewrite !elem_of_u_edge_set, Ha. tauto.
    + intros Hrev. specialize (Hrev (e.1, e.2)).
      rewrite !elem_of_u_edge_set, Ha in Hrev. tauto.
  - eexists. split; [done|]. by apply connected_components_spec.
Qed.

(** With no edge at all, or with an edge between two distinct nodes,
    [next(girvan_newman(G))] returns a partition of the nodes. *)
Lemma girvan_newman_next_partition G :
  picks_an_edge → u_wf G →
  u_number_of_edges G = 0 ∨ (∃ a b, a ≠ b ∧ adjacent (u_adj G) a b) →
  ∃ cs, girvan_newman_next most_valuable_edge G = Ok cs
        ∧ partition_of (as_lists cs) (dom (u_node G)).
Proof.
  intros Hpick HG Hcase. unfold girvan_newman_next.
  destruct (decide (u_number_of_edges G = 0)) as [Hz|Hnz].
  { eexists. split; [done|]. by apply connected_components_spec. }
  destruct Hcase as [?|(a & b & Hne & Hab)]; [done|].
  destruct (u_remove_selfloops_spec G HG) as (Hg & Hn & Ha).
  assert (adjacent (u_adj (u_remove_selfloops G)) a b) as Hab'.
  { by apply Ha. }
  rewrite decide_True by by apply (u_number_of_edges_pos _ a b).
  unfold without_most_central_edges. rewrite <- Hn.
  apply without_most_central_edges_loop_spec; [done|done| |lia].
  by apply (components_of_joined _ a b).
Qed.

(** With edges that are all self-loops, the generator ends before its
    first [yield]. *)
Lemma girvan_newman_next_selfloops G :
  u_wf G →
  (∃ a, adjacent (u_adj G) a a) → (∀ a b, adjacent (u_adj G) a b → a = b) →
  girvan_newman_next most_valuable_edge G = Raise StopIteration.
Proof.
  intros HG [a Ha] Hloops. unfold girvan_newman_next.
  pose proof (u_number_of_edges_pos G a a HG Ha).
  rewrite decide_False by lia.
  destruct (u_remove_selfloops_spec G HG) as (_ & _ & Hadj).
  rewrite decide_False; [done|].
  rewrite u_number_of_edges_zero; [lia|].
  intros x y [Hxy Hne]%Hadj. by apply Hne, Hloops.
Qed.
End girvan_newman_facts.
End undirected_facts.

(** ** Connectivity summary *)

Section connectivity_facts.
Import nx SocialNetwork NetworkAnalytics Examples.

(** A well-formed graph without nodes is the empty graph. *)
Lemma wf_no_nodes G : wf G → len G = 0 → G = empty.
Proof.
  intros [Hs Hp _] Hlen. unfold len in Hlen.
  apply map_size_empty_inv in Hlen. destruct G as [nd sc pd]. simpl in *.
  subst nd. rewrite dom_empty_L in Hs, Hp.
  apply dom_empty_inv_L in Hs, Hp. by subst.
Qed.

(** Whatever well-formed graph has no node, the call raises. *)
Lemma connectivity_data_no_nodes network :
  wf (graph network) → len (graph network) = 0 →
  get_connectivity_data network
  = Raise (NetworkXPointlessConcept
             "Connectivity is undefined for the null graph.").
Proof.
  intros HG Hlen. unfold get_connectivity_data.
  rewrite (wf_no_nodes _ HG Hlen). vm_compute. reflexivity.
Qed.

(** C4, what the code does on the empty graph: [nx.is_connected] is the
    first call made on the undirected copy and it raises on a graph
    without nodes, so no record is returned and the branch that would
    report 0 is not reached. *)
Theorem connectivity_data_empty_graph :
  get_connectivity_data init
  = Raise (NetworkXPointlessConcept
             "Connectivity is undefined for the null graph.").
Proof. vm_compute. reflexivity. Qed.

(** The string the unreachable branch would format. *)
Example percentage_of_zero : format_2f 0 +:+ "%" = "0.00%".
Proof. vm_compute. reflexivity. Qed.

(** The percentage is a product of floats: with 23 of 160 users in the
    largest component it is 14.374999999999998, formatted as 14.37. *)
Example percentage_of_floats :
  format_2f (fmul (fdiv 23 160) 100) +:+ "%" = "14.37%".
Proof. vm_compute. reflexivity. Qed.

(** On a graph with at least one user the record is returned. *)
Lemma connectivity_data_nonempty network :
  wf (graph network) → 0 < len (graph network) →
  ∃ data, get_connectivity_data network = Ok data
          ∧ Number_of_components data
            = number_connected_components (to_undirected (graph network))
          ∧ Component_sizes data
            = size <$> connected_components (to_undirected (graph network)).
Proof.
  intros HG Hlen. unfold get_connectivity_data.
  destruct (to_undirected_spec _ HG) as (_ & Hnodes & _).
  unfold is_connected.
  destruct (keys (u_node (to_undirected (graph network)))) as [|v l] eqn:Hk.
  - apply (f_equal length) in Hk. rewrite length_keys in Hk.
    rewrite <- size_dom, Hnodes, size_dom in Hk. unfold len in Hlen.
    simpl in Hk. lia.
  - simpl. eexists. split; [done|]. done.
Qed.

Example connectivity_data_chain :
  get_connectivity_data chain_ABC
  = Ok {| Connected := true;
          Number_of_components := 1;
          Largest_component_size := 3;
          Largest_component_percentage := "100.00%";
          Component_sizes := [3] |}.
Proof. vm_compute. reflexivity. Qed.
End connectivity_facts.

(** ** Community detection *)

Section community_facts.
Import nx SocialNetwork Examples.
Variable most_valuable_edge : Graph → result (string * string).
Variable greedy_modularity_communities : Graph → result (list (gset string)).
Variable label_propagation_communities : Graph → result (list (gset string)).
Variable community : option (Graph → result (gmap string Z)).

Local Abbreviation detect :=
  (detect_communities most_valuable_edge greedy_modularity_communities
     label_propagation_communities community).

(** C2, what the code does on a graph whose only edge is a self-loop:
    the undirected copy has one edge, so [girvan_newman] does not take its
    early exit; it then drops the self-loop, finds no edge left to remove
    and ends without a [yield], and [next] raises [StopIteration].  This
    is so for the method ["girvan_newman"] and for a method name that is
    not recognised. *)
Theorem detect_communities_selfloop :
  detect "girvan_newman" selfloop_A = (Raise StopIteration, selfloop_A)
  ∧ detect "spectral" selfloop_A = (Raise StopIteration, selfloop_A).
Proof. split; vm_compute; reflexivity. Qed.

(** *** The grouping done for the louvain method *)

Lemma concat_Permutation (l1 l2 : list (list string)) :
  l1 ≡ₚ l2 → concat l1 ≡ₚ concat l2.
Proof.
  induction 1 as [|x l1 l2 _ IH|x y l|l1 l2 l3 _ IH1 _ IH2]; simpl.
  - done.
  - by rewrite IH.
  - rewrite !app_assoc. f_equiv. apply Permutation_app_comm.
  - by rewrite IH1.
Qed.

Lemma group_insert_values (m : gmap Z (list string)) k x :
  concat (map_to_list (<[k := default [] (m !! k) ++ [x]]> m)).*2
  ≡ₚ concat (map_to_list m).*2 ++ [x].
Proof.
  destruct (m !! k) as [old|] eqn:Hk; simpl.
  - rewrite <- insert_delete_eq.
    rewrite (concat_Permutation _ ((k, old ++ [x]) :: map_to_list (delete k m)).*2).
    2:{ f_equiv. apply map_to_list_insert, lookup_delete_eq. }
    rewrite (concat_Permutation (map_to_list m).*2
               ((k, old) :: map_to_list (delete k m)).*2).
    2:{ f_equiv. symmetry. by apply map_to_list_delete. }
    simpl. rewrite <- !app_assoc. f_equiv. apply Permutation_app_comm.
  - rewrite (concat_Permutation _ ((k, [x]) :: map_to_list m).*2).
    2:{ f_equiv. by apply map_to_list_insert. }
    simpl. apply Permutation_cons_append.
Qed.

(** The groups list every key of the partition dict once. *)
Lemma group_by_id_values (partition : gmap string Z) :
  concat (map_to_list (group_by_id partition)).*2 ≡ₚ keys partition.
Proof.
  unfold group_by_id, keys.
  pose proof (foldl_prefix_inv
    (λ communities (nc : string * Z),
       <[nc.2 := default [] (communities !! nc.2) ++ [nc.1]]> communities)
    (λ pre (m : gmap Z (list string)), concat (map_to_list m).*2 ≡ₚ pre.*1)
    (map_to_list partition) ∅) as H.
  apply H.
  - by rewrite map_to_list_empty.
  - intros pre [n c] m Hm _. cbn [fst snd].
    by rewrite group_insert_values, Hm, fmap_app.
Qed.

Lemma group_by_id_partition (partition : gmap string Z) :
  partition_of (map_to_list (group_by_id partition)).*2 (dom partition).
Proof.
  split.
  - rewrite group_by_id_values. apply NoDup_keys.
  - intros x. by rewrite group_by_id_values, elem_of_keys, elem_of_dom.
Qed.

(** *** When a partition is returned *)

Lemma louvain_partition G :
  returns_partition greedy_modularity_communities →
  assigns_every_node community → u_wf G →
  ∃ cs, louvain greedy_modularity_communities community G = Ok cs
        ∧ partition_of cs (dom (u_node G)).
Proof.
  intros Hgreedy Hcomm HG. unfold louvain.
  destruct community as [best_partition|].
  - destruct (Hcomm best_partition eq_refl G HG) as (p & -> & Hp). simpl.
    eexists. split; [done|]. rewrite <- Hp. apply group_by_id_partition.
  - destruct (Hgreedy G HG) as (cs & -> & Hcs). simpl. eauto.
Qed.

(** On every graph but those whose edges are all self-loops, every method
    returns a partition of the users, provided the library algorithms do
    what is used of them; the store is unchanged. *)
Theorem detect_communities_partition self method :
  wf (graph self) →
  picks_an_edge most_valuable_edge →
  returns_partition greedy_modularity_communities →
  returns_partition label_propagation_communities →
  assigns_every_node community →
  (method ≠ "greedy_modularity" → method ≠ "label_propagation" →
   method ≠ "louvain" →
   (∀ a b, ¬ edge (graph self) a b)
   ∨ (∃ a b, a ≠ b ∧ edge (graph self) a b)) →
  ∃ cs, detect method self = (Ok cs, self)
        ∧ partition_of cs (dom (g_node (graph self))).
Proof.
  intros HG Hpick Hgreedy Hlabel Hcomm Hedges.
  destruct (to_undirected_spec _ HG) as (HU & Hnodes & Hadj).
  assert (method ≠ "greedy_modularity" → method ≠ "label_propagation" →
          method ≠ "louvain" →
          ∃ cs, (communities ← girvan_newman_next most_valuable_edge
                                 (to_undirected (graph self));
                 Ok (as_lists communities)) = Ok cs
                ∧ partition_of cs (dom (g_node (graph self)))) as Hgn.
  { intros H1 H2 H3.
    destruct (girvan_newman_next_partition most_valuable_edge
                (to_undirected (graph self)) Hpick HU) as (cs & -> & Hcs).
    - destruct (Hedges H1 H2 H3) as [Hno|(a & b & Hne & Hab)].
      + left. apply u_number_of_edges_zero. intros a b [?|?]%Hadj;
          by eapply Hno.
      + right. exists a, b. split; [done|]. apply Hadj. by left.
    - simpl. exists (as_lists cs). split; [done|]. by rewrite <- Hnodes. }
  unfold detect_communities.
  destruct (decide (method = "girvan_newman")) as [->|Hgn'].
  { destruct Hgn as (cs & -> & Hcs); [done..|]. eauto. }
  destruct (decide (method = "greedy_modularity")) as [->|Hgm].
  { destruct (Hgreedy _ HU) as (cs & -> & Hcs). simpl.
    eexists. split; [done|]. by rewrite <- Hnodes. }
  destruct (decide (method = "label_propagation")) as [->|Hlp].
  { destruct (Hlabel _ HU) as (cs & -> & Hcs). simpl.
    eexists. split; [done|]. by rewrite <- Hnodes. }
  destruct (decide (method = "louvain")) as [->|Hlv].
  { destruct (louvain_partition _ Hgreedy Hcomm HU) as (cs & -> & Hcs).
    eexists. split; [done|]. by rewrite <- Hnodes. }
  destruct Hgn as (cs & -> & Hcs); [done..|]. eauto.
Qed.

(** X20: on a graph with edges that are all self-loops, the method
    ["girvan_newman"] and every unrecognised method raise
    [StopIteration]. *)
Theorem detect_communities_only_selfloops self method :
  wf (graph self) →
  (∃ a, edge (graph self) a a) →
  (∀ a b, edge (graph self) a b → a = b) →
  method ≠ "greedy_modularity" → method ≠ "label_propagation" →
  method ≠ "louvain" →
  detect method self = (Raise StopIteration, self).
Proof.
  intros HG [a Ha] Hloops H1 H2 H3.
  destruct (to_undirected_spec _ HG) as (HU & Hnodes & Hadj).
  assert (girvan_newman_next most_valuable_edge (to_undirected (graph self))
          = Raise StopIteration) as Hgn.
  { apply girvan_newman_next_selfloops; [done| |].
    - exists a. apply Hadj. by left.
    - intros x y [?|?]%Hadj; [|symmetry]; by apply Hloops. }
  unfold detect_communities. rewrite Hgn.
  destruct (decide (method = "girvan_newman")); [done|].
  by rewrite !decide_False by done.
Qed.
End community_facts.

Section community_examples.
Import nx SocialNetwork Examples.

Lemma first_edge_picks : picks_an_edge first_edge.
Proof.
  intros G Hpos. unfold first_edge.
  destruct (elements (u_edge_set G)) as [|[a b] l] eqn:He.
  - apply elements_empty_inv in He.
    rewrite u_number_of_edges_zero in Hpos; [lia|].
    intros a b Hab%elem_of_u_edge_set. by apply He in Hab.
  - exists (a, b). split; [done|].
    apply elem_of_u_edge_set, elem_of_elements. rewrite He. by left.
Qed.

Lemma components_as_communities_partition :
  returns_partition components_as_communities.
Proof.
  intros G HG. eexists. split; [done|]. by apply connected_components_spec.
Qed.

(** The scenario of the specification: on the chain A → B → C the
    communities cover A, B and C exactly, with every method. *)
Example detect_communities_chain method :
  ∃ cs, detect_communities first_edge components_as_communities
          components_as_communities None method chain_ABC
        = (Ok cs, chain_ABC)
        ∧ partition_of cs {[ "A"; "B"; "C" ]}.
Proof.
  destruct (detect_communities_partition first_edge components_as_communities
              components_as_communities None chain_ABC method)
    as (cs & Hcs & Hpart).
  - apply wf_chain_ABC.
  - apply first_edge_picks.
  - apply components_as_communities_partition.
  - apply components_as_communities_partition.
  - by intros ? [=].
  - intros _ _ _. right. exists "A", "B". split; [done|].
    apply has_edge_true. by vm_compute.
  - exists cs. split; [done|].
    destruct Hpart as [Hnd Hmem]. split; [done|]. intros x.
    rewrite Hmem.
    assert (dom (g_node (graph chain_ABC)) = ({[ "A"; "B"; "C" ]} : gset string))
      as ->; [by vm_compute|done].
Qed.
End community_examples.

(** ** Mutations of the graph store *)

Section store_effects.
Import nx SocialNetwork Examples.
Implicit Types self : SocialNetwork.t.
Implicit Types G : DiGraph.
Implicit Types m : gmap string (gmap string attrs).

Lemma edge_get_edge_data G u v : edge G u v ↔ is_Some (get_edge_data G u v).
Proof.
  unfold edge, adjacent, get_edge_data. destruct (g_succ G !! u) as [nb|]; simpl.
  - split; [by intros (? & [= <-] & ?)|eauto].
  - split; [by intros (? & ? & ?)|by intros []].
Qed.

Lemma data_alter_delete m u v a b :
  alter (delete v) u m !! a ≫= (.!! b)
  = if decide (a = u ∧ b = v) then None else m !! a ≫= (.!! b).
Proof.
  destruct (decide (a = u)) as [->|Ha].
  - rewrite lookup_alter_eq. destruct (m !! u) as [nb|]; simpl.
    + destruct (decide (b = v)) as [->|Hb].
      * rewrite lookup_delete_eq. by rewrite decide_True.
      * rewrite lookup_delete_ne by done. rewrite decide_False; [done|tauto].
    + by destruct (decide _).
  - rewrite lookup_alter_ne by done. rewrite decide_False; [done|tauto].
Qed.

Lemma data_foldr_delete m n (l : list string) a b :
  foldr (λ u, alter (delete n) u) m l !! a ≫= (.!! b)
  = if decide (a ∈ l ∧ b = n) then None else m !! a ≫= (.!! b).
Proof.
  induction l as [|x l IH]; cbn [foldr].
  - rewrite decide_False; [done|]. intros [?%elem_of_nil ?]. done.
  - rewrite data_alter_delete, IH.
    destruct (decide (a = x ∧ b = n)) as [[-> ->]|Hx].
    + rewrite decide_True; [done|]. split; [by left|done].
    + destruct (decide (a ∈ l ∧ b = n)) as [[Hl ->]|Hl].
      * rewrite decide_True; [done|]. split; [by right|done].
      * rewrite decide_False; [done|]. rewrite elem_of_cons. tauto.
Qed.

(** X1: [remove_user] of a user in the network returns, and removes the
    user, the relationships from the user and the relationships to the
    user; every other user keeps its attributes and every other
    relationship its data. *)
Theorem remove_user_effect self user :
  wf (graph self) → contains (graph self) user = true →
  ∃ self', remove_user user self = (Ok (), self')
    ∧ wf (graph self')
    ∧ g_node (graph self') = delete user (g_node (graph self))
    ∧ ∀ a b, get_edge_data (graph self') a b
             = if decide (a = user ∨ b = user) then None
               else get_edge_data (graph self) a b.
Proof.
  intros HG Hin. unfold remove_user. rewrite Hin.
  destruct (successors_Ok _ _ HG (proj1 (contains_true _ _) Hin))
    as (nbrs & Hnbrs & _).
  destruct (remove_node user (graph self)) as [G'|e] eqn:HG'.
  2: { unfold remove_node in HG'. by rewrite Hnbrs in HG'. }
  eexists. split; [done|]. simpl. split; [by eapply wf_remove_node|].
  unfold remove_node in HG'. rewrite Hnbrs in HG'. injection HG' as <-.
  split; [done|]. intros a b. unfold get_edge_data. simpl.
  rewrite data_foldr_delete.
  destruct (decide (a = user)) as [->|Ha].
  { rewrite lookup_delete_eq. simpl. rewrite (decide_True (P := _ ∨ _)) by tauto.
    by destruct (decide _). }
  rewrite lookup_delete_ne by done.
  destruct (decide (b = user)) as [->|Hb].
  - rewrite (decide_True (P := _ ∨ _)) by tauto.
    destruct (decide _) as [|Hn]; [done|].
    destruct (g_succ (graph self) !! a ≫= (.!! user)) as [d|] eqn:Hd; [|done].
    exfalso. apply Hn. split; [|done].
    apply adjacent_keys, adjacent_foldr_delete.
    assert (edge (graph self) a user) as He.
    { apply edge_get_edge_data. unfold get_edge_data. rewrite Hd. eauto. }
    apply (wf_mirror _ HG) in He. split; [exact He|].
    intros [_ ?]. done.
  - rewrite (decide_False (P := _ ∨ _)) by tauto.
    rewrite decide_False; [done|]. tauto.
Qed.

Lemma remove_user_effect_witness :
  ∃ self', remove_user "B" chain_ABC = (Ok (), self')
    ∧ wf (graph self')
    ∧ g_node (graph self') = delete "B" (g_node (graph chain_ABC))
    ∧ ∀ a b, get_edge_data (graph self') a b
             = if decide (a = "B" ∨ b = "B") then None
               else get_edge_data (graph chain_ABC) a b.
Proof.
  apply remove_user_effect; [apply wf_chain_ABC|by vm_compute].
Defined.

(** X2: [remove_friendship] returns exactly when the relationship exists;
    it then removes this relationship only (the reverse one stays) and
    leaves the users as they are.  Otherwise it raises [ValueError] and
    changes nothing. *)
Theorem remove_friendship_effect self user1 user2 :
  (edge (graph self) user1 user2 →
   ∃ self', remove_friendship user1 user2 self = (Ok (), self')
     ∧ g_node (graph self') = g_node (graph self)
     ∧ ∀ a b, get_edge_data (graph self') a b
              = if decide (a = user1 ∧ b = user2) then None
                else get_edge_data (graph self) a b)
  ∧ (¬ edge (graph self) user1 user2 →
     remove_friendship user1 user2 self
     = (Raise (ValueError ("Relationship from '" +:+ user1 +:+ "' to '"
                           +:+ user2 +:+ "' not found")), self)).
Proof.
  unfold remove_friendship, remove_edge. split.
  - intros He%has_edge_true. rewrite He. eexists. split; [done|].
    split; [done|]. intros a b. unfold get_edge_data. simpl.
    apply data_alter_delete.
  - intros He. destruct (has_edge (graph self) user1 user2) eqn:Hh; [|done].
    by apply has_edge_true in Hh.
Qed.

Lemma ensure_node_id n G : is_Some (g_succ G !! n) → ensure_node n G = G.
Proof. intros [nb Hn]. unfold ensure_node. by rewrite Hn. Qed.

Lemma add_edge_users u v (attr : attrs) G :
  wf G → u ∈ dom (g_node G) → v ∈ dom (g_node G) →
  add_edge u v attr G
  = {| g_node := g_node G;
       g_succ := alter (insert v (attr ∪ default ∅ (get_edge_data G u v))) u
                   (g_succ G);
       g_pred := alter (insert u (attr ∪ default ∅ (get_edge_data G u v))) v
                   (g_pred G) |}.
Proof.
  intros HG Hu Hv. unfold add_edge.
  rewrite <- (wf_succ_dom _ HG) in Hu, Hv.
  apply elem_of_dom in Hu, Hv.
  rewrite (ensure_node_id u) by done. rewrite (ensure_node_id v) by done.
  done.
Qed.

Lemma data_alter_insert m u v (d : attrs) a b :
  is_Some (m !! u) →
  alter (insert v d) u m !! a ≫= (.!! b)
  = if decide (a = u ∧ b = v) then Some d else m !! a ≫= (.!! b).
Proof.
  intros [nb Hu]. destruct (decide (a = u)) as [->|Ha].
  - rewrite lookup_alter_eq, Hu. simpl.
    destruct (decide (b = v)) as [->|Hb].
    + rewrite lookup_insert_eq. by rewrite decide_True.
    + rewrite lookup_insert_ne by done. rewrite decide_False; [done|tauto].
  - rewrite lookup_alter_ne by done. rewrite decide_False; [done|tauto].
Qed.

(** X3: [add_friendship] between two users of the network, with
    attributes that [add_edge] accepts as keyword arguments (none is named
    [self], [u_of_edge] or [v_of_edge]), returns and leaves the users as
    they are.  The relationship then carries the given attributes (by
    default type Friend and strength 5) on top of the data it had before,
    if it existed; every other relationship is unchanged. *)
Theorem add_friendship_effect self user1 user2 attributes :
  wf (graph self) →
  contains (graph self) user1 = true → contains (graph self) user2 = true →
  keyword_clash add_edge_parameters (default default_friendship attributes)
  = false →
  ∃ self', add_friendship user1 user2 attributes self = (Ok (), self')
    ∧ g_node (graph self') = g_node (graph self)
    ∧ get_edge_data (graph self') user1 user2
      = Some (default default_friendship attributes
              ∪ default ∅ (get_edge_data (graph self) user1 user2))
    ∧ ∀ a b, ¬ (a = user1 ∧ b = user2) →
        get_edge_data (graph self') a b = get_edge_data (graph self) a b.
Proof.
  intros HG H1 H2 Hkw. unfold add_friendship. rewrite H1, H2, Hkw.
  cbn [negb]. apply contains_true in H1, H2.
  eexists. split; [done|]. cbn [graph]. rewrite add_edge_users by done.
  cbn [g_node].
  assert (is_Some (g_succ (graph self) !! user1)) as Hs.
  { apply elem_of_dom. by rewrite (wf_succ_dom _ HG). }
  split; [done|]. unfold get_edge_data at 1. simpl.
  rewrite data_alter_insert by done. rewrite decide_True by done.
  split; [done|]. intros a b Hab. unfold get_edge_data at 1. simpl.
  rewrite data_alter_insert by done. by rewrite decide_False.
Qed.

Lemma add_friendship_effect_witness :
  ∃ self', add_friendship "A" "B" (Some {[ "strength" := PInt 9 ]}) chain_ABC
           = (Ok (), self')
    ∧ g_node (graph self') = g_node (graph chain_ABC)
    ∧ get_edge_data (graph self') "A" "B"
      = Some (default default_friendship (Some {[ "strength" := PInt 9 ]})
              ∪ default ∅ (get_edge_data (graph chain_ABC) "A" "B"))
    ∧ ∀ a b, ¬ (a = "A" ∧ b = "B") →
        get_edge_data (graph self') a b = get_edge_data (graph chain_ABC) a b.
Proof.
  apply add_friendship_effect;
    [apply wf_chain_ABC|by vm_compute|by vm_compute|by vm_compute].
Defined.

(** X4: removing a user that was just added to a network that did not have
    it gives back the object as it was (the attributes being such that
    [add_node] accepts them as keyword arguments). *)
Theorem add_then_remove_user self user attributes :
  wf (graph self) → contains (graph self) user = false →
  keyword_clash add_node_parameters (default ∅ attributes) = false →
  remove_user user (exec (add_user user attributes) self) = (Ok (), self).
Proof.
  intros HG Hn Hkw. apply contains_false in Hn.
  assert (g_node (graph self) !! user = None) as Hnode
    by by apply not_elem_of_dom.
  assert (g_succ (graph self) !! user = None) as Hsucc.
  { apply not_elem_of_dom. by rewrite (wf_succ_dom _ HG). }
  assert (g_pred (graph self) !! user = None) as Hpred.
  { apply not_elem_of_dom. by rewrite (wf_pred_dom _ HG). }
  unfold remove_user, exec, add_user.
  rewrite keyword_clash_with_name, Hkw. cbn [snd graph].
  unfold add_node. rewrite Hnode.
  unfold contains. cbn [g_node]. rewrite lookup_insert_eq.
  rewrite bool_decide_eq_true_2 by eauto.
  unfold remove_node. cbn [g_succ g_pred g_node].
  rewrite lookup_insert_eq.
  assert (keys (∅ : gmap string attrs) = []) as ->.
  { unfold keys. by rewrite map_to_list_empty. }
  cbn [foldr]. rewrite lookup_insert_eq. cbn [default]. unfold id.
  assert (keys (∅ : gmap string attrs) = []) as ->.
  { unfold keys. by rewrite map_to_list_empty. }
  cbn [foldr]. rewrite !delete_insert_id by done.
  by destruct self as [[]].
Qed.

Lemma add_then_remove_user_witness :
  remove_user "Zed" (exec (add_user "Zed" None) chain_ABC)
  = (Ok (), chain_ABC).
Proof.
  apply add_then_remove_user;
    [apply wf_chain_ABC|by vm_compute|by vm_compute].
Defined.

(** X5: removing a relationship that was just added between two users not
    yet related in that direction gives back the object as it was (the
    attributes being such that [add_edge] accepts them as keyword
    arguments). *)
Theorem add_then_remove_friendship self user1 user2 attributes :
  wf (graph self) →
  contains (graph self) user1 = true → contains (graph self) user2 = true →
  ¬ edge (graph self) user1 user2 →
  keyword_clash add_edge_parameters (default default_friendship attributes)
  = false →
  remove_friendship user1 user2
    (exec (add_friendship user1 user2 attributes) self)
  = (Ok (), self).
Proof.
  intros HG H1 H2 He Hkw. unfold exec, add_friendship.
  rewrite H1, H2, Hkw. cbn [negb snd]. apply contains_true in H1, H2.
  unfold remove_friendship. cbn [graph]. rewrite add_edge_users by done.
  set (d := default default_friendship attributes ∪ _).
  assert (is_Some (g_succ (graph self) !! user1)) as [nb1 Hs].
  { apply elem_of_dom. by rewrite (wf_succ_dom _ HG). }
  assert (is_Some (g_pred (graph self) !! user2)) as [nb2 Hp].
  { apply elem_of_dom. by rewrite (wf_pred_dom _ HG). }
  assert (nb1 !! user2 = None) as Hn1.
  { destruct (nb1 !! user2) eqn:E; [|done]. exfalso. apply He.
    exists nb1. by rewrite E. }
  assert (nb2 !! user1 = None) as Hn2.
  { destruct (nb2 !! user1) eqn:E; [|done]. exfalso. apply He.
    apply (wf_mirror _ HG). exists nb2. by rewrite E. }
  unfold has_edge, remove_edge, has_edge. cbn [g_succ g_pred g_node].
  rewrite lookup_alter_eq, Hs. cbn [fmap option_fmap option_map].
  rewrite lookup_insert_eq. rewrite bool_decide_eq_true_2 by eauto.
  rewrite !alter_alter_eq.
  assert (alter (delete user2 ∘ insert user2 d) user1 (g_succ (graph self))
          = g_succ (graph self)) as ->.
  { apply alter_id. intros nb Hnb. rewrite Hs in Hnb. injection Hnb as <-.
    simpl. by rewrite delete_insert_id. }
  assert (alter (delete user1 ∘ insert user1 d) user2 (g_pred (graph self))
          = g_pred (graph self)) as ->.
  { apply alter_id. intros nb Hnb. rewrite Hp in Hnb. injection Hnb as <-.
    simpl. by rewrite delete_insert_id. }
  by destruct self as [[]].
Qed.

Lemma add_then_remove_friendship_witness :
  remove_friendship "C" "A" (exec (add_friendship "C" "A" None) chain_ABC)
  = (Ok (), chain_ABC).
Proof.
  apply add_then_remove_friendship;
    [apply wf_chain_ABC|by vm_compute|by vm_compute| |by vm_compute].
  intros He%has_edge_true. by vm_compute in He.
Defined.

Lemma foldl_insert_items (l : list (string * pyval)) (old : attrs) :
  NoDup l.*1 →
  foldl (λ d kv, <[kv.1 := kv.2]> d) old l = list_to_map l ∪ old.
Proof.
  revert old. induction l as [|[k v] l IH]; intros old Hnd; simpl.
  - by rewrite (left_id_L ∅ (∪)).
  - apply NoDup_cons in Hnd as [Hk Hnd]. rewrite IH by done.
    rewrite <- insert_union_l. rewrite insert_union_r; [done|].
    by apply not_elem_of_list_to_map_1.
Qed.

Lemma foldl_set_node_attr user (l : list (string * pyval)) G :
  foldl (λ G kv, set_node_attr user kv.1 kv.2 G) G l
  = {| g_node := alter (λ old, foldl (λ d kv, <[kv.1 := kv.2]> d) old l)
                   user (g_node G);
       g_succ := g_succ G;
       g_pred := g_pred G |}.
Proof.
  revert G. induction l as [|[k v] l IH]; intros G; simpl.
  - rewrite alter_id by done. by destruct G.
  - rewrite IH. unfold set_node_attr. simpl. f_equal.
    by rewrite alter_alter_eq.
Qed.

(** X6: [update_user_attributes] on a user of the network returns; the
    user's attributes are then the given ones on top of the former ones,
    and the other users and all relationships are unchanged.  On an
    unknown user it raises [ValueError] and changes nothing, and
    [get_user_attributes] of an unknown user is the empty dict. *)
Theorem update_user_attributes_effect self user attributes :
  (contains (graph self) user = true →
   ∃ self', update_user_attributes user attributes self = (Ok (), self')
     ∧ get_user_attributes self' user
       = attributes ∪ get_user_attributes self user
     ∧ (∀ other, other ≠ user →
          get_user_attributes self' other = get_user_attributes self other)
     ∧ dom (g_node (graph self')) = dom (g_node (graph self))
     ∧ g_succ (graph self') = g_succ (graph self)
     ∧ g_pred (graph self') = g_pred (graph self))
  ∧ (contains (graph self) user = false →
     update_user_attributes user attributes self
     = (Raise (not_found user), self)
     ∧ get_user_attributes self user = ∅).
Proof.
  unfold update_user_attributes, get_user_attributes. split.
  - intros Hin. rewrite Hin. eexists. split; [done|].
    rewrite foldl_set_node_attr. cbn [graph g_node g_succ g_pred].
    apply contains_true, elem_of_dom in Hin as [old Hold].
    assert (∀ n, contains
              {| g_node := alter (λ old, foldl (λ d kv, <[kv.1 := kv.2]> d)
                                    old (map_to_list attributes))
                             user (g_node (graph self));
                 g_succ := g_succ (graph self);
                 g_pred := g_pred (graph self) |} n
            = contains (graph self) n) as Hc.
    { intros n. unfold contains. cbn [g_node]. apply bool_decide_ext.
      rewrite <- !elem_of_dom. by rewrite dom_alter_L. }
    split; [|split; [|split; [|done]]].
    + rewrite Hc. unfold contains. rewrite bool_decide_eq_true_2 by eauto.
      rewrite lookup_alter_eq, Hold. simpl.
      rewrite foldl_insert_items by apply NoDup_fst_map_to_list.
      by rewrite list_to_map_to_list.
    + intros other Hne. rewrite Hc. by rewrite lookup_alter_ne.
    + by rewrite dom_alter_L.
  - intros Hin. by rewrite Hin.
Qed.

(** What every object built through the methods satisfies. *)
Lemma add_user_names user attributes self a n :
  (∀ n a, g_node (graph self) !! n = Some a → is_Some (a !! "name")) →
  g_node (graph (exec (add_user user attributes) self)) !! n = Some a →
  is_Some (a !! "name").
Proof.
  intros Hnames. unfold exec, add_user.
  destruct (keyword_clash _ _); [apply Hnames|]. cbn [snd graph].
  rewrite add_node_g_node. destruct (decide (n = user)) as [->|Hne].
  - rewrite lookup_insert_eq. intros [= <-].
    apply lookup_union_is_Some. left.
    destruct (default ∅ attributes !! "name") as [v|] eqn:Hv.
    + erewrite with_name_supplied; eauto.
    + rewrite with_name_default; eauto.
  - rewrite lookup_insert_ne by done. apply Hnames.
Qed.

Lemma update_user_attributes_names user attributes self a n :
  (∀ n a, g_node (graph self) !! n = Some a → is_Some (a !! "name")) →
  g_node (graph (exec (update_user_attributes user attributes) self)) !! n
  = Some a →
  is_Some (a !! "name").
Proof.
  intros Hnames. unfold exec, update_user_attributes.
  destruct (contains (graph self) user); [|apply Hnames].
  cbn [snd graph]. rewrite foldl_set_node_attr. cbn [g_node].
  destruct (decide (n = user)) as [->|Hne].
  - rewrite lookup_alter_eq.
    destruct (g_node (graph self) !! user) as [old|] eqn:Hold; [|done].
    simpl. intros [= <-].
    rewrite foldl_insert_items by apply NoDup_fst_map_to_list.
    apply lookup_union_is_Some. right. by eapply Hnames.
  - rewrite lookup_alter_ne by done. apply Hnames.
Qed.

Lemma wf_update_user_attributes user attributes self :
  wf (graph self) →
  wf (graph (exec (update_user_attributes user attributes) self)).
Proof.
  intros [Hs Hp Hm]. unfold exec, update_user_attributes.
  destruct (contains (graph self) user); [|done].
  cbn [snd graph]. rewrite foldl_set_node_attr.
  split; cbn [g_node g_succ g_pred]; rewrite ?dom_alter_L; done.
Qed.

Lemma run_all_snoc (calls : list call) (c : call) :
  run_all (calls ++ [c]) = exec (run c) (run_all calls).
Proof. unfold run_all. by rewrite foldl_app. Qed.

(** X7: whatever sequence of [add_user], [remove_user],
    [add_friendship], [remove_friendship] and [update_user_attributes]
    calls is made on a fresh object, raising or not, the graph stays well
    formed, every relationship joins two users of the network, and every
    user has a [name] attribute. *)
Theorem run_all_invariant (calls : list call) :
  let self := run_all calls in
  wf (graph self)
  ∧ (∀ user1 user2, edge (graph self) user1 user2 →
       contains (graph self) user1 = true
       ∧ contains (graph self) user2 = true)
  ∧ (∀ user, contains (graph self) user = true →
       is_Some (get_user_attributes self user !! "name")).
Proof.
  cbv zeta.
  assert (wf (graph (run_all calls))
          ∧ ∀ n a, g_node (graph (run_all calls)) !! n = Some a →
                   is_Some (a !! "name")) as [Hwf Hnames].
  { induction calls as [|c calls [IHwf IHn]] using rev_ind.
    - split; [apply wf_init|]. intros n a. unfold run_all. simpl.
      by rewrite lookup_empty.
    - rewrite run_all_snoc. destruct c; cbn [run]; split.
      + by apply wf_add_user.
      + intros n a. by apply add_user_names.
      + by apply wf_remove_user.
      + intros n a. unfold exec, remove_user.
        destruct (contains _ user); [|apply IHn].
        unfold remove_node.
        destruct (g_succ _ !! user); [|apply IHn].
        cbn [snd graph g_node]. intros Hn%lookup_delete_Some.
        destruct Hn as [_ Hn]. by eapply IHn.
      + by apply wf_add_friendship.
      + intros n a. unfold exec, add_friendship.
        destruct (contains _ user1) eqn:H1; [|apply IHn].
        destruct (contains _ user2) eqn:H2; [|apply IHn].
        cbn [negb]. destruct (keyword_clash _ _); [apply IHn|].
        cbn [snd graph]. apply contains_true in H1, H2.
        rewrite add_edge_users by done. apply IHn.
      + by apply wf_remove_friendship.
      + intros n a. unfold exec, remove_friendship, remove_edge.
        destruct (has_edge _ user1 user2); apply IHn.
      + by apply wf_update_user_attributes.
      + intros n a. by apply update_user_attributes_names. }
  split; [done|]. split.
  - intros user1 user2 He. split; apply contains_true.
    + by eapply edge_source.
    + by eapply edge_target.
  - intros user Hin. unfold get_user_attributes. rewrite Hin.
    apply contains_true, elem_of_dom in Hin as [a Ha]. rewrite Ha.
    by eapply Hnames.
Qed.

(** X8: a call returns exactly when it finds what it needs (the user, both
    users, or the relationship) and, for [add_user] and [add_friendship],
    the attributes can be passed as keyword arguments; otherwise it raises
    [ValueError] or [TypeError] and the object is left as it was. *)
Theorem run_outcome self (c : call) :
  wf (graph self) →
  (admissible self c → ∃ self', run c self = (Ok (), self'))
  ∧ (¬ admissible self c →
     ∃ e, run c self = (Raise e, self)
          ∧ (e = TypeError ∨ ∃ msg, e = ValueError msg)).
Proof.
  intros HG. destruct c; cbn [run admissible].
  - unfold add_user. rewrite keyword_clash_with_name. split.
    + intros ->. eauto.
    + intros Hkw%not_false_is_true. rewrite Hkw. eauto.
  - unfold remove_user. split.
    + intros Hin. rewrite Hin.
      destruct (successors_Ok _ _ HG (proj1 (contains_true _ _) Hin))
        as (nbrs & Hnbrs & _).
      unfold remove_node. rewrite Hnbrs. eauto.
    + intros Hin%not_true_is_false. rewrite Hin. unfold not_found. eauto.
  - unfold add_friendship. split.
    + intros (-> & -> & ->). cbn [negb]. eauto.
    + intros Hno. destruct (contains (graph self) user1) eqn:H1; cbn [negb].
      * destruct (contains (graph self) user2) eqn:H2; cbn [negb].
        -- destruct (keyword_clash _ _) eqn:Hkw; [eauto|by destruct Hno].
        -- unfold not_found. eauto.
      * unfold not_found. eauto.
  - unfold remove_friendship, remove_edge. split.
    + intros He%has_edge_true. rewrite He. eauto.
    + intros He. destruct (has_edge (graph self) user1 user2) eqn:Hh;
        [|eauto].
      by apply has_edge_true in Hh.
  - unfold update_user_attributes. split.
    + intros ->. eauto.
    + intros Hin%not_true_is_false. rewrite Hin. unfold not_found. eauto.
Qed.

Lemma run_outcome_witness :
  (admissible chain_ABC (AddFriendship "C" "A" None) →
   ∃ self', run (AddFriendship "C" "A" None) chain_ABC = (Ok (), self'))
  ∧ (¬ admissible chain_ABC (AddFriendship "C" "A" None) →
     ∃ e, run (AddFriendship "C" "A" None) chain_ABC = (Raise e, chain_ABC)
          ∧ (e = TypeError ∨ ∃ msg, e = ValueError msg)).
Proof. apply run_outcome, wf_chain_ABC. Defined.

(** Attributes that cannot be passed as keyword arguments. *)
Example keyword_arguments_rejected :
  add_user "D" (Some {[ "node_for_adding" := PStr "x" ]}) chain_ABC
  = (Raise TypeError, chain_ABC)
  ∧ add_friendship "A" "C" (Some {[ "u_of_edge" := PStr "x" ]}) chain_ABC
    = (Raise TypeError, chain_ABC).
Proof. by vm_compute. Qed.
End store_effects.

(** ** Search *)

Section search_facts.
Import nx SocialNetwork Examples.
Implicit Types self : SocialNetwork.t.

Lemma prefix_spec (a b : string) :
  String.prefix a b = true ↔ ∃ r, b = a +:+ r.
Proof.
  revert b. induction a as [|x a IH]; intros b.
  - split; [|by destruct b]. intros _. by exists b.
  - destruct b as [|y b]; simpl.
    + split; [done|]. by intros [r ?].
    + destruct (Ascii.ascii_dec x y) as [->|Hxy].
      * rewrite IH. split; intros [r Hr]; exists r; [by rewrite Hr|].
        by injection Hr.
      * split; [done|]. intros [r Hr]. injection Hr as ? ?. congruence.
Qed.

Lemma is_substring_spec (a b : string) :
  is_substring a b = true ↔ occurs_in a b.
Proof.
  unfold occurs_in. induction b as [|y b IH]; cbn [is_substring].
  - rewrite orb_false_r, prefix_spec. split.
    + intros [r Hr]. by exists "", r.
    + intros ([|x l] & r & Hlr); [by exists r|done].
  - rewrite orb_true_iff, prefix_spec, IH. split.
    + intros [[r Hr]|(l & r & Hlr)].
      * by exists "", r.
      * exists (String y l), r. simpl. by rewrite Hlr.
    + intros ([|x l] & r & Hlr).
      * left. by exists r.
      * right. injection Hlr as -> ->. by exists l, r.
Qed.

Lemma value_matches_spec lower (search_term : string) (value : pyval) :
  value_matches lower search_term value = true
  ↔ value ≠ PNone ∧ occurs_in search_term (lower (str value)).
Proof.
  unfold value_matches. destruct value; rewrite <- ?is_substring_spec;
    split; try done; try (by intros [? _]); by intros [_ ?].
Qed.

Lemma search_visit_spec lower self (search_term : string)
    (results : list string) (user : string) :
  search_visit lower self (lower search_term) results user
  = results ++ [user] ∧ search_hit lower self search_term user
  ∨ search_visit lower self (lower search_term) results user
    = results ∧ ¬ search_hit lower self search_term user.
Proof.
  unfold search_visit, search_hit.
  destruct (is_substring _ (lower user)) eqn:Hh.
  { left. split; [done|]. left. by apply is_substring_spec. }
  destruct (existsb _ _) eqn:Ha.
  - left. split; [done|]. right.
    apply existsb_exists in Ha as ([key value] & Hin & Hm).
    apply list_elem_of_In, elem_of_map_to_list in Hin.
    apply value_matches_spec in Hm as [? ?]. by exists key, value.
  - right. split; [done|]. intros [Hu|(key & value & Hkv & Hn & Ho)].
    + apply is_substring_spec in Hu. congruence.
    + assert (existsb (λ kv, value_matches lower (lower search_term) kv.2)
                (map_to_list (get_user_attributes self user)) = true)
        as Hex; [|congruence].
      apply existsb_exists. exists (key, value). split.
      * by apply list_elem_of_In, elem_of_map_to_list.
      * by apply value_matches_spec.
Qed.

(** X9: [search_users] returns exactly the users that are a hit for the
    term (case folded on both sides), each once and in the order of
    [G.nodes()]. *)
Theorem search_users_spec lower self search_term :
  (∀ user, user ∈ search_users lower self search_term
           ↔ user ∈ dom (g_node (graph self))
             ∧ search_hit lower self search_term user)
  ∧ NoDup (search_users lower self search_term)
  ∧ sublist (search_users lower self search_term) (nodes (graph self)).
Proof.
  unfold search_users.
  pose proof (foldl_prefix_inv (search_visit lower self (lower search_term))
    (λ pre results,
       sublist results pre
       ∧ ∀ user, user ∈ results
                 ↔ user ∈ pre ∧ search_hit lower self search_term user)
    (nodes (graph self)) []) as [Hsub Hmem].
  - split; [done|]. intros user. split; [by intros ?%elem_of_nil|].
    by intros [?%elem_of_nil _].
  - intros pre x results [Hsub Hmem] _.
    destruct (search_visit_spec lower self search_term results x)
      as [[-> Hhit]|[-> Hno]].
    + split; [by apply sublist_app|]. intros user.
      rewrite !elem_of_app, !list_elem_of_singleton, Hmem.
      split; [|tauto]. intros [? | ->]; tauto.
    + split; [by apply sublist_inserts_r|]. intros user.
      rewrite elem_of_app, list_elem_of_singleton, Hmem.
      split; [tauto|]. intros [[?|Hx] ?]; [tauto|subst; tauto].
  - split; [|split; [|done]].
    + intros user. rewrite Hmem. unfold nodes. rewrite elem_of_keys.
      by rewrite elem_of_dom.
    + eapply sublist_NoDup; [|exact Hsub]. apply NoDup_keys.
Qed.

(** X10: with the empty search term every user is returned, in the order
    of [G.nodes()]. *)
Theorem search_users_empty_term lower self :
  lower "" = "" →
  search_users lower self "" = nodes (graph self).
Proof.
  intros Hl. unfold search_users. rewrite Hl.
  apply (foldl_prefix_inv (search_visit lower self "")
           (λ pre results, results = pre)); [done|].
  intros pre x results -> _. unfold search_visit.
  by destruct (lower x).
Qed.

Lemma search_users_empty_term_witness :
  search_users str_lower chain_ABC "" = nodes (graph chain_ABC).
Proof. by apply search_users_empty_term. Defined.

(** Upper-case terms find lower-case users and attribute values. *)
Example search_users_chain :
  search_users str_lower chain_ABC "B" = ["B"]
  ∧ search_users str_lower
      (exec (add_user "bob" (Some {[ "city" := PStr "Paris" ]})) chain_ABC)
      "PAR" = ["bob"].
Proof. by vm_compute. Qed.
End search_facts.

(** ** Network metrics *)

Section metrics_facts.
Import nx SocialNetwork NetworkAnalytics Examples.
Implicit Types network : SocialNetwork.t.

Lemma sum_list_fmap_bound (f : string → nat) (l : list string) k :
  (∀ a, a ∈ l → f a ≤ k) → sum_list (f <$> l) ≤ length l * k.
Proof.
  induction l as [|x l IH]; intros Hf; [done|].
  rewrite fmap_cons. cbn [sum_list_with length]. unfold id at 1.
  assert (f x ≤ k) by (apply Hf; by left).
  assert (sum_list (f <$> l) ≤ length l * k).
  { apply IH. intros a Ha. apply Hf. by right. }
  unfold sum_list in *. lia.
Qed.

Lemma number_of_edges_bound (G : DiGraph) :
  wf G →
  number_of_edges G ≤ len G * len G
  ∧ ((∀ n, ¬ edge G n n) → 2 ≤ len G →
     number_of_edges G ≤ len G * (len G - 1)).
Proof.
  intros HG. unfold number_of_edges.
  assert (length (nodes G) = len G) as Hlen by apply length_keys.
  split.
  - assert (sum_list (degree G <$> nodes G) ≤ length (nodes G) * (2 * len G))
      as Hs.
    { apply sum_list_fmap_bound. intros a _. unfold degree.
      destruct (successors_size G a HG) as [? _].
      destruct (predecessors_size G a HG) as [? _]. lia. }
    rewrite Hlen in Hs.
    apply Nat.Div0.div_le_upper_bound. lia.
  - intros Hno Hn.
    assert (sum_list (degree G <$> nodes G)
            ≤ length (nodes G) * (2 * (len G - 1))) as Hs.
    { apply sum_list_fmap_bound. intros a _. unfold degree.
      destruct (successors_size G a HG) as [_ Ho].
      destruct (predecessors_size G a HG) as [_ Hi].
      specialize (Ho (Hno a) Hn). specialize (Hi (Hno a) Hn). lia. }
    rewrite Hlen in Hs.
    apply Nat.Div0.div_le_upper_bound. lia.
Qed.

Lemma number_of_edges_none (G : DiGraph) :
  wf G → (∀ a b, ¬ edge G a b) → number_of_edges G = 0.
Proof.
  intros HG Hno. unfold number_of_edges.
  rewrite sum_list_fmap_zero; [done|]. intros a _. unfold degree.
  assert (∀ m, (∀ b, ¬ adjacent m a b) → size (default ∅ (m !! a)) = 0)
    as Hz.
  { intros m Hm. destruct (m !! a) as [nb|] eqn:Ha; simpl;
      [|apply map_size_empty].
    apply map_size_empty_iff, map_empty. intros b.
    destruct (nb !! b) eqn:Hb; [|done]. destruct (Hm b).
    exists nb. by rewrite Hb. }
  unfold in_degree, out_degree. rewrite !Hz; [done| |].
  - apply Hno.
  - intros b Hb. apply (Hno b a). by apply (wf_mirror _ HG).
Qed.

(** X11: the density of the network is 0 when there are fewer than two
    users or no relationship.  It is never negative, it is at most 1 when
    no user has a relationship to itself, and at most 2 in any case. *)
Theorem get_density_range network :
  wf (graph network) →
  (0 <= get_density network)%Q
  ∧ (get_density network <= 2)%Q
  ∧ ((∀ user, ¬ edge (graph network) user user) →
     (get_density network <= 1)%Q)
  ∧ (len (graph network) ≤ 1 → get_density network = 0%Q)
  ∧ ((∀ a b, ¬ edge (graph network) a b) → get_density network = 0%Q).
Proof.
  intros HG. unfold get_density, density.
  destruct (number_of_edges_bound _ HG) as [Hall Hnoloop].
  set (m := number_of_edges (graph network)) in *.
  set (n := len (graph network)) in *.
  destruct (decide (m = 0 ∨ n ≤ 1)) as [Hz|Hnz].
  { repeat split; done. }
  assert (0 < inject_Z (Z.of_nat (n * (n - 1))))%Q as Hpos.
  { rewrite <- (Zlt_Qlt 0). nia. }
  split; [|split; [|split; [|split]]].
  - apply Qle_shift_div_l; [done|]. rewrite Qmult_0_l.
    rewrite <- (Zle_Qle 0). lia.
  - apply Qle_shift_div_r; [done|].
    change 2%Q with (inject_Z 2). rewrite <- inject_Z_mult.
    rewrite <- Zle_Qle. nia.
  - intros Hno. apply Qle_shift_div_r; [done|]. rewrite Qmult_1_l.
    rewrite <- Zle_Qle. specialize (Hnoloop Hno). lia.
  - intros Hn. destruct Hnz. by right.
  - intros Hno. destruct Hnz. left. by apply number_of_edges_none.
Qed.

Lemma get_density_range_witness :
  (0 <= get_density chain_ABC)%Q
  ∧ (get_density chain_ABC <= 2)%Q
  ∧ ((∀ user, ¬ edge (graph chain_ABC) user user) →
     (get_density chain_ABC <= 1)%Q)
  ∧ (len (graph chain_ABC) ≤ 1 → get_density chain_ABC = 0%Q)
  ∧ ((∀ a b, ¬ edge (graph chain_ABC) a b) → get_density chain_ABC = 0%Q).
Proof. apply get_density_range, wf_chain_ABC. Defined.

(** Two of the six possible relationships among three users; and two
    users with all four relationships, self-loops included. *)
Example get_density_chain :
  get_density chain_ABC = (2 # 6)%Q
  ∧ get_density
      (exec (add_friendship "B" "B" None)
         (exec (add_friendship "A" "A" None) mutual_AB)) = (4 # 2)%Q.
Proof. by vm_compute. Qed.

(** *** Components *)

Lemma length_concat_as_lists (cs : list (gset string)) :
  length (concat (as_lists cs)) = sum_list (size <$> cs).
Proof.
  induction cs as [|c cs IH]; [done|].
  unfold as_lists in *. rewrite !fmap_cons. cbn [concat sum_list_with].
  rewrite length_app, IH. unfold id. done.
Qed.

Lemma components_summary (G : Graph) :
  u_wf G →
  let cs := connected_components G in
  sum_list (size <$> cs) = size (u_node G)
  ∧ Forall (λ s, 1 ≤ s) (size <$> cs)
  ∧ length cs ≤ size (u_node G)
  ∧ (0 < size (u_node G) → 1 ≤ length cs).
Proof.
  intros HG cs. destruct (connected_components_spec G HG) as [Hpart Hcomp].
  fold cs in Hpart, Hcomp.
  assert (sum_list (size <$> cs) = size (u_node G)) as Hsum.
  { rewrite <- length_concat_as_lists, (partition_length _ _ Hpart).
    apply size_dom. }
  assert (Forall (λ s, 1 ≤ s) (size <$> cs)) as Hpos.
  { apply Forall_fmap. eapply Forall_impl; [exact Hcomp|].
    intros c Hc. by apply (component_nonempty G). }
  split; [done|]. split; [done|]. rewrite <- Hsum. clear -Hpos.
  induction cs as [|c cs IH]; [simpl; lia|].
  rewrite fmap_cons in *. apply Forall_cons in Hpos as [Hc Hpos].
  specialize (IH Hpos). cbn [sum_list_with length] in *. unfold id in *. lia.
Qed.

Lemma components_of_loops (G : Graph) :
  u_wf G → (∀ a b, adjacent (u_adj G) a b → a = b) →
  number_connected_components G = size (u_node G).
Proof.
  intros HG Hloops. unfold number_connected_components.
  destruct (connected_components_spec G HG) as [Hpart Hcomp].
  rewrite <- size_dom, <- (partition_length _ _ Hpart).
  unfold as_lists in *. rewrite <- (length_fmap elements).
  apply length_concat_nonempty.
  - apply Forall_fmap. eapply Forall_impl; [exact Hcomp|].
    intros c Hc. change (1 ≤ size c). by apply (component_nonempty G).
  - apply Forall_fmap. eapply Forall_impl; [exact Hcomp|].
    intros c (v & Hv & Hc). change (size c = 1).
    assert (c = {[v]}) as ->; [|apply size_singleton].
    apply set_eq. intros x. rewrite Hc, elem_of_singleton. split.
    + intros Hvx. induction Hvx as [|a b c' Hab _ IH]; [done|].
      apply Hloops in Hab as <-. by apply IH.
    + intros ->. apply rtc_refl.
Qed.

(** X12: the number of connected components is 0 on the empty network (no
    exception), otherwise between 1 and the number of users; it equals
    the number of users exactly when no relationship joins two different
    users. *)
Theorem num_connected_components_bounds network :
  wf (graph network) →
  get_num_connected_components network ≤ len (graph network)
  ∧ (0 < len (graph network) → 1 ≤ get_num_connected_components network)
  ∧ (get_num_connected_components network = len (graph network)
     ↔ ∀ a b, edge (graph network) a b → a = b).
Proof.
  intros HG. unfold get_num_connected_components.
  destruct (to_undirected_spec _ HG) as (HU & Hnodes & Hadj).
  destruct (components_summary _ HU) as (_ & _ & Hle & Hpos).
  assert (size (u_node (to_undirected (graph network))) = len (graph network))
    as Hsize.
  { unfold len. by rewrite <- !size_dom, Hnodes. }
  rewrite Hsize in Hle, Hpos. unfold number_connected_components.
  split; [done|]. split; [done|]. split.
  - intros Heq a b Hab. destruct (decide (a = b)) as [|Hne]; [done|].
    pose proof (components_of_joined _ a b HU Hne) as Hlt.
    unfold number_connected_components in Hlt. rewrite Hsize in Hlt.
    assert (adjacent (u_adj (to_undirected (graph network))) a b) as Hu
      by (apply Hadj; by left).
    specialize (Hlt Hu). lia.
  - intros Hloops. rewrite <- Hsize.
    apply (components_of_loops _ HU). intros a b [?|?]%Hadj; [eauto|].
    symmetry. eauto.
Qed.

Lemma num_connected_components_bounds_witness :
  get_num_connected_components chain_ABC ≤ len (graph chain_ABC)
  ∧ (0 < len (graph chain_ABC) → 1 ≤ get_num_connected_components chain_ABC)
  ∧ (get_num_connected_components chain_ABC = len (graph chain_ABC)
     ↔ ∀ a b, edge (graph chain_ABC) a b → a = b).
Proof. apply num_connected_components_bounds, wf_chain_ABC. Defined.

Lemma connected_iff_one_component (G : Graph) source l :
  u_wf G → keys (u_node G) = source :: l →
  size (plain_bfs G source) = u_len G ↔ length (connected_components G) = 1.
Proof.
  intros HG Hk.
  assert (source ∈ dom (u_node G)) as Hsrc.
  { apply elem_of_dom, elem_of_keys. rewrite Hk. by left. }
  destruct (connected_components_spec G HG) as [[Hnd Hmem] Hcomp].
  rewrite Forall_forall in Hcomp.
  assert (∀ x, x ∈ plain_bfs G source → x ∈ dom (u_node G)) as Hsub.
  { intros x Hx%plain_bfs_spec; [|done|done].
    by eapply connected_nodes. }
  assert (size (plain_bfs G source) = u_len G
          ↔ ∀ x, x ∈ dom (u_node G) → connected G source x) as ->.
  { unfold u_len. rewrite <- size_dom. split.
    - intros Hsize x Hx. apply plain_bfs_spec; [done|done|].
      assert (plain_bfs G source = dom (u_node G)) as ->; [|done].
      apply set_subseteq_size_eq; [by intros ??; apply Hsub|lia].
    - intros Hall. f_equal. apply set_eq. intros x. split; [apply Hsub|].
      intros Hx. apply plain_bfs_spec; auto. }
  split.
  - intros Hall.
    assert (∀ c, c ∈ connected_components G → source ∈ c) as Hin.
    { intros c (v & Hv & Hc)%Hcomp. apply Hc.
      apply connected_sym; [done|]. by apply Hall. }
    destruct (connected_components G) as [|c1 [|c2 cs]] eqn:Hcs; [|done|].
    + exfalso. apply Hmem in Hsrc. simpl in Hsrc. by apply elem_of_nil in Hsrc.
    + exfalso. unfold as_lists in Hnd. rewrite !fmap_cons in Hnd.
      cbn [concat] in Hnd. apply NoDup_app in Hnd as (_ & Hdis & _).
      apply (Hdis source).
      * apply elem_of_elements, Hin. by left.
      * apply elem_of_app. left. apply elem_of_elements, Hin.
        right. by left.
  - intros Hone x Hx.
    destruct (connected_components G) as [|c [|c2 cs]] eqn:Hcs; try done.
    destruct (Hcomp c) as (v & Hv & Hc); [by left|].
    assert (∀ y, y ∈ dom (u_node G) → y ∈ c) as Hall.
    { intros y Hy%Hmem. unfold as_lists in Hy. simpl in Hy.
      rewrite app_nil_r in Hy. by apply elem_of_elements. }
    eapply rtc_trans.
    + apply connected_sym; [done|]. apply Hc, Hall, Hsrc.
    + apply Hc, Hall, Hx.
Qed.

(** X13: on a network with at least one user [get_connectivity_data]
    returns a record whose parts agree: the component sizes are positive
    and add up to the number of users, there are as many of them as
    components, the largest one is among them, and the network is
    reported connected exactly when there is one component. *)
Theorem connectivity_data_consistent network :
  wf (graph network) → 0 < len (graph network) →
  ∃ data, get_connectivity_data network = Ok data
    ∧ Number_of_components data = get_num_connected_components network
    ∧ length (Component_sizes data) = Number_of_components data
    ∧ sum_list (Component_sizes data) = len (graph network)
    ∧ Forall (λ s, 1 ≤ s) (Component_sizes data)
    ∧ Largest_component_size data ∈ Component_sizes data
    ∧ Forall (λ s, s ≤ Largest_component_size data) (Component_sizes data)
    ∧ (Connected data = true ↔ Number_of_components data = 1).
Proof.
  intros HG Hlen. unfold get_connectivity_data, get_num_connected_components.
  destruct (to_undirected_spec _ HG) as (HU & Hnodes & _).
  destruct (components_summary _ HU) as (Hsum & Hpos & Hle & Hge).
  assert (size (u_node (to_undirected (graph network))) = len (graph network))
    as Hsize.
  { unfold len. by rewrite <- !size_dom, Hnodes. }
  rewrite Hsize in Hsum, Hge. specialize (Hge Hlen).
  unfold is_connected.
  destruct (keys (u_node (to_undirected (graph network)))) as [|v l] eqn:Hk.
  { apply (f_equal length) in Hk. rewrite length_keys, Hsize in Hk.
    simpl in Hk. lia. }
  cbn [mbind result_bind]. eexists. split; [done|].
  cbn [Number_of_components Component_sizes Largest_component_size Connected].
  split; [done|]. split; [by rewrite length_fmap|]. split; [done|].
  split; [done|]. split; [|split].
  - apply max_list_elem_of.
    destruct (connected_components _); [simpl in Hge; lia|done].
  - apply Forall_forall. intros s Hs. by apply max_list_elem_of_le.
  - rewrite bool_decide_eq_true. by eapply connected_iff_one_component.
Qed.

Lemma connectivity_data_consistent_witness :
  ∃ data, get_connectivity_data chain_ABC = Ok data
    ∧ Number_of_components data = get_num_connected_components chain_ABC
    ∧ length (Component_sizes data) = Number_of_components data
    ∧ sum_list (Component_sizes data) = len (graph chain_ABC)
    ∧ Forall (λ s, 1 ≤ s) (Component_sizes data)
    ∧ Largest_component_size data ∈ Component_sizes data
    ∧ Forall (λ s, s ≤ Largest_component_size data) (Component_sizes data)
    ∧ (Connected data = true ↔ Number_of_components data = 1).
Proof.
  apply connectivity_data_consistent; [apply wf_chain_ABC|].
  vm_compute. lia.
Defined.
End metrics_facts.

(** ** Influence scores *)

Section influence_facts.
Import nx SocialNetwork NetworkAnalytics Examples.
Variable nx_eigenvector_centrality : DiGraph → result (gmap string Q).
Variable nx_betweenness_centrality : DiGraph → result (gmap string Q).
Variable nx_closeness_centrality : DiGraph → result (gmap string Q).
Implicit Types network : SocialNetwork.t.

Local Abbreviation influence_score :=
  (calculate_influence_score nx_eigenvector_centrality
     nx_betweenness_centrality nx_closeness_centrality).
Local Abbreviation influence_scores :=
  (calculate_influence_scores nx_eigenvector_centrality
     nx_betweenness_centrality nx_closeness_centrality).

Lemma fadd_mono (a a' b b' : Q) :
  (0 <= a)%Q → (a <= a')%Q → (0 <= b)%Q → (b <= b')%Q →
  (0 <= fadd a b)%Q ∧ (fadd a b <= fadd a' b')%Q.
Proof.
  intros. unfold fadd. split; [apply fl_nonneg|apply fl_mono]; lra.
Qed.

Lemma fmul_mono (a a' b : Q) :
  (0 <= a)%Q → (a <= a')%Q → (0 <= b)%Q →
  (0 <= fmul a b)%Q ∧ (fmul a b <= fmul a' b)%Q.
Proof.
  intros. unfold fmul. split; [apply fl_nonneg|apply fl_mono]; nra.
Qed.

Lemma fdiv_mono (a a' m : Q) :
  (0 <= a)%Q → (a <= a')%Q → (0 < m)%Q →
  (0 <= fdiv a m)%Q ∧ (fdiv a m <= fdiv a' m)%Q.
Proof.
  intros Ha Haa Hm. unfold fdiv.
  assert (0 < / m)%Q as Hi by (by apply Qinv_lt_0_compat).
  unfold Qdiv. split; [apply fl_nonneg|apply fl_mono]; nra.
Qed.

(** The score of a record is at least 0 and at most the score of the
    record with the largest values: every float operation is monotone. *)
Lemma weighted_score_range (r top : CentralityRecord) :
  (0 <= degree_centrality r)%Q →
  (degree_centrality r <= degree_centrality top)%Q →
  (0 <= eigenvector_centrality r)%Q →
  (eigenvector_centrality r <= eigenvector_centrality top)%Q →
  (0 <= betweenness_centrality r)%Q →
  (betweenness_centrality r <= betweenness_centrality top)%Q →
  (0 <= closeness_centrality r)%Q →
  (closeness_centrality r <= closeness_centrality top)%Q →
  let score c :=
    fdiv (fsum ((λ mw : (CentralityRecord → Q) * Q, fmul (mw.1 c) mw.2)
                <$> weights))
         (fsum weights.*2) in
  (0 <= score r)%Q ∧ (score r <= score top)%Q.
Proof.
  intros Hd0 Hd He0 He Hb0 Hb Hc0 Hc score. subst score.
  unfold weights, fsum. cbn [fmap list_fmap foldl fst snd].
  set (w3 := fl (3 # 10)). set (w1 := fl (1 # 10)).
  assert (0 <= w3)%Q as Hw3 by (by apply fl_nonneg).
  assert (0 <= w1)%Q as Hw1 by (by apply fl_nonneg).
  assert (0 < fadd (fadd (fadd (fadd 0 w3) w3) w3) w1)%Q as Hm
    by (by vm_compute).
  destruct (fmul_mono _ _ w3 Hd0 Hd Hw3) as [? ?].
  destruct (fmul_mono _ _ w3 He0 He Hw3) as [? ?].
  destruct (fmul_mono _ _ w3 Hb0 Hb Hw3) as [? ?].
  destruct (fmul_mono _ _ w1 Hc0 Hc Hw1) as [? ?].
  set (td := fmul (degree_centrality r) w3) in *.
  set (te := fmul (eigenvector_centrality r) w3) in *.
  set (tb := fmul (betweenness_centrality r) w3) in *.
  set (tc := fmul (closeness_centrality r) w1) in *.
  set (td' := fmul (degree_centrality top) w3) in *.
  set (te' := fmul (eigenvector_centrality top) w3) in *.
  set (tb' := fmul (betweenness_centrality top) w3) in *.
  set (tc' := fmul (closeness_centrality top) w1) in *.
  destruct (fadd_mono 0 0 td td') as [? ?]; [lra..|].
  destruct (fadd_mono (fadd 0 td) (fadd 0 td') te te') as [? ?]; [done..|].
  destruct (fadd_mono (fadd (fadd 0 td) te) (fadd (fadd 0 td') te') tb tb')
    as [? ?]; [done..|].
  destruct (fadd_mono (fadd (fadd (fadd 0 td) te) tb)
              (fadd (fadd (fadd 0 td') te') tb') tc tc') as [? ?]; [done..|].
  by apply fdiv_mono.
Qed.

Lemma influence_score_range network user :
  wf (graph network) →
  unit_scores (nx_eigenvector_centrality (graph network)) →
  unit_scores (nx_betweenness_centrality (graph network)) →
  unit_scores (nx_closeness_centrality (graph network)) →
  (0 <= influence_score network user)%Q
  ∧ (influence_score network user <= 2)%Q
  ∧ (¬ edge (graph network) user user →
     influence_score network user <= 14 # 10)%Q.
Proof.
  intros HG He Hb Hc. unfold calculate_influence_score.
  destruct (contains (graph network) user) eqn:Hin; cbn [negb]; [|done].
  unfold get_user_centrality.
  assert (∃ r, default zero_record
                 (get_centrality_measures nx_eigenvector_centrality
                    nx_betweenness_centrality nx_closeness_centrality
                    network !! user) = r
               ∧ (0 <= degree_centrality r)%Q ∧ (degree_centrality r <= 4)%Q
               ∧ (¬ edge (graph network) user user →
                  degree_centrality r <= 2)%Q
               ∧ (0 <= eigenvector_centrality r)%Q
               ∧ (eigenvector_centrality r <= 1)%Q
               ∧ (0 <= betweenness_centrality r)%Q
               ∧ (betweenness_centrality r <= 1)%Q
               ∧ (0 <= closeness_centrality r)%Q
               ∧ (closeness_centrality r <= 1)%Q)
    as (r & -> & Hd0 & Hd4 & Hd2 & ? & ? & ? & ? & ? & ?).
  { destruct (get_centrality_measures _ _ _ network !! user) as [r|] eqn:Hr;
      cbn [default]; [|by exists zero_record].
    exists r. split; [done|].
    apply centrality_known in Hr as (_ & Hd & Hre & Hrb & Hrc).
    pose proof (or_zeros_range (graph network) _ user He) as [? ?].
    pose proof (or_zeros_range (graph network) _ user Hb) as [? ?].
    pose proof (or_zeros_range (graph network) _ user Hc) as [? ?].
    rewrite Hre, Hrb, Hrc. repeat split; try done; rewrite Hd;
      (destruct (nx.degree_centrality (graph network) !! user) as [q|] eqn:Hq;
       cbn [default]; [|done]);
      by eapply degree_centrality_range. }
  split; [|split].
  - by apply (weighted_score_range r
                {| degree_centrality := 4; eigenvector_centrality := 1;
                   betweenness_centrality := 1; closeness_centrality := 1 |}).
  - eapply Qle_trans;
      [by apply (weighted_score_range r
                   {| degree_centrality := 4; eigenvector_centrality := 1;
                      betweenness_centrality := 1;
                      closeness_centrality := 1 |})|].
    by vm_compute.
  - intros Hloop. specialize (Hd2 Hloop).
    eapply Qle_trans;
      [by apply (weighted_score_range r
                   {| degree_centrality := 2; eigenvector_centrality := 1;
                      betweenness_centrality := 1;
                      closeness_centrality := 1 |})|].
    by vm_compute.
Qed.

End influence_facts.

Section influence_examples.
Import nx SocialNetwork NetworkAnalytics Examples.


(** Floats as Python computes them.  The weights add up to
    0.9999999999999999.  With a degree score of 2.0 and the other scores at
    0.0 the influence score is 0.6000000000000001; with every score at 1.0
    and a degree score of 2.0 it is 1.3000000000000003. *)
Example influence_score_floats :
  fsum weights.*2 = 9007199254740991 # 9007199254740992
  ∧ calculate_influence_score eigenvector_fails betweenness_zero
      betweenness_zero mutual_AB "A"
    = 1351079888211149 # 2251799813685248
  ∧ calculate_influence_score closeness_one closeness_one closeness_one
      mutual_AB "A"
    = 2927339757790823 # 2251799813685248.
Proof. by vm_compute. Qed.
End influence_examples.

(** ** Information spread, for any probability *)

Section spread_reach.
Import nx SocialNetwork NetworkAnalytics Examples.
Variable rand : nat → Q.
Variable G : DiGraph.
Variable probability : Q.
Hypothesis HG : wf G.
Implicit Types informed : gmap string bool.

Lemma spread_loop_hops rounds informed draws m draws' :
  dom informed = dom (g_node G) →
  spread_loop rand rounds G probability informed draws = Ok (m, draws') →
  ∀ x, m !! x = Some true →
       ∃ u, informed !! u = Some true ∧ bsteps (edge G) rounds u x.
Proof.
  revert informed draws.
  induction rounds as [|rounds IH]; intros informed draws Hdom; simpl.
  - intros [= <- <-] x Hx. exists x. split; [done|]. apply bsteps_refl.
  - destruct (spread_round_spec rand G probability HG informed draws Hdom)
      as (newly & d1 & -> & Hfront & _). simpl.
    destruct newly as [|y newly].
    + intros [= <- <-] x Hx. exists x. split; [done|]. apply bsteps_refl.
    + intros Hloop x Hx.
      assert (dom (mark_informed informed (y :: newly)) = dom (g_node G))
        as Hdom'.
      { rewrite dom_mark_informed; [done|]. intros z Hz.
        destruct (Hfront z Hz) as [Hf _]. apply elem_of_dom. eauto. }
      destruct (IH _ _ Hdom' Hloop x Hx) as (u' & Hu' & Hsteps).
      rewrite lookup_mark_informed in Hu'.
      destruct (decide (u' ∈ y :: newly)) as [Hin|Hout].
      * destruct (Hfront u' Hin) as (_ & u & Hu & He).
        exists u. split; [done|]. by eapply bsteps_l.
      * exists u'. split; [done|]. by apply bsteps_S.
Qed.
End spread_reach.

Section spread_reach_claims.
Import nx SocialNetwork NetworkAnalytics Examples.

(** X15: whatever the probability and the random draws, the simulation
    from a user of the network returns, the start user is informed, and a
    user is informed only if it can be reached from the start user along
    at most [iterations] relationships, followed in their direction. *)
Theorem spread_within_reach rand network start_user probability iterations :
  wf (graph network) → contains (graph network) start_user = true →
  ∃ informed,
    simulate_information_spread rand network start_user probability
      iterations = Ok informed
    ∧ informed !! start_user = Some true
    ∧ ∀ v, informed !! v = Some true →
           bsteps (edge (graph network)) (Z.to_nat iterations) start_user v.
Proof.
  intros HG Hin. rewrite simulate_unfold by done.
  apply contains_true in Hin.
  pose proof (dom_initial_informed _ _ Hin) as Hdom.
  destruct (spread_loop_spec rand _ probability HG (Z.to_nat iterations)
              _ 0 Hdom) as (m & draws' & Hloop & _ & Hkeep & _).
  rewrite Hloop. simpl. exists m. split; [done|]. split.
  - apply Hkeep. by apply lookup_initial_informed.
  - intros v Hv.
    destruct (spread_loop_hops rand _ probability HG _ _ _ _ _ Hdom Hloop v Hv)
      as (u & Hu%lookup_initial_informed & Hsteps).
    by subst u.
Qed.

Lemma spread_within_reach_witness :
  ∃ informed,
    simulate_information_spread (λ _, 1 # 2) chain_ABC "A" (3 # 4) 1
    = Ok informed
    ∧ informed !! "A" = Some true
    ∧ ∀ v, informed !! v = Some true →
           bsteps (edge (graph chain_ABC)) (Z.to_nat 1) "A" v.
Proof.
  apply spread_within_reach; [apply wf_chain_ABC|by vm_compute].
Defined.

(** One round from A on the chain A → B → C informs B and not yet C. *)
Example spread_one_round :
  simulate_information_spread (λ _, 1 # 2) chain_ABC "A" (3 # 4) 1
  = Ok {[ "A" := true; "B" := true; "C" := false ]}.
Proof. by vm_compute. Qed.
End spread_reach_claims.

(** ** Community metrics *)

(** A loop that returned has kept its invariant; a loop over a list that
    holds an element on which the body always raises, raises. *)
Lemma for_each_ok_inv {A S} (body : S → A → result S)
    (P : list A → S → Prop) (xs : list A) (acc s : S) :
  for_each body xs acc = Ok s →
  P [] acc →
  (∀ pre x s s', P pre s → x ∈ xs → body s x = Ok s' → P (pre ++ [x]) s') →
  P xs s.
Proof.
  intros Hrun Hacc Hbody.
  cut (∀ pre ys acc, P pre acc → ys ⊆ xs →
         for_each body ys acc = Ok s → P (pre ++ ys) s).
  { intros H. apply (H [] xs acc); done. }
  intros pre ys. revert pre.
  induction ys as [|y ys IH]; intros pre a Ha Hsub; simpl.
  - intros [= <-]. by rewrite app_nil_r.
  - destruct (body a y) as [a'|e] eqn:Hy; simpl; [|done]. intros Hr.
    rewrite cons_middle, app_assoc. apply (IH _ a'); [| |done].
    + eapply Hbody; [done| |done]. apply Hsub. by left.
    + intros z Hz. apply Hsub. by right.
Qed.

Lemma for_each_raises {A S} (body : S → A → result S) (xs : list A)
    (acc : S) (x : A) :
  x ∈ xs → (∀ s, ∃ e, body s x = Raise e) →
  ∃ e, for_each body xs acc = Raise e.
Proof.
  intros Hx Hr. revert acc.
  induction xs as [|y ys IH]; intros acc; [by apply elem_of_nil in Hx|].
  simpl. destruct (body acc y) as [a'|e] eqn:Hy; simpl; [|eauto].
  apply elem_of_cons in Hx as [->|Hx]; [|by apply IH].
  destruct (Hr acc) as [e He]. congruence.
Qed.

Section community_metrics_facts.
Import nx SocialNetwork NetworkAnalytics Examples.
Variable nx_average_clustering : Graph → result Q.
Implicit Types network : SocialNetwork.t.
Implicit Types U : Graph.

Local Abbreviation metrics_of :=
  (get_community_metrics nx_average_clustering).

Lemma Qltb_true (x y : Q) : Qltb x y = true → (x < y)%Q.
Proof.
  unfold Qltb. intros H%negb_true_iff. apply Qnot_le_lt.
  intros Hle%Qle_bool_iff. congruence.
Qed.

Lemma size_list_to_set_le (l : list string) :
  size (list_to_set l : gset string) ≤ length l.
Proof.
  induction l as [|x l IH]; [by rewrite list_to_set_nil, size_empty|].
  rewrite list_to_set_cons, size_union_alt, size_singleton. cbn [length].
  assert (size ((list_to_set l : gset string) ∖ {[x]})
          ≤ size (list_to_set l : gset string)).
  { apply subseteq_size. set_solver. }
  lia.
Qed.

Lemma u_subgraph_node U (c : list string) n :
  n ∈ dom (u_node (u_subgraph U c)) ↔ n ∈ c ∧ n ∈ dom (u_node U).
Proof.
  unfold u_subgraph. cbn [u_node]. rewrite !elem_of_dom. unfold is_Some.
  setoid_rewrite map_lookup_filter_Some. cbn [fst].
  rewrite <- (elem_of_list_to_set (C := gset string)). naive_solver.
Qed.

Lemma u_subgraph_adjacent U (c : list string) a b :
  adjacent (u_adj (u_subgraph U c)) a b
  ↔ adjacent (u_adj U) a b ∧ a ∈ c ∧ b ∈ c.
Proof.
  unfold u_subgraph, adjacent. cbn [u_adj].
  rewrite <- !(elem_of_list_to_set (C := gset string)).
  setoid_rewrite lookup_fmap_Some.
  setoid_rewrite map_lookup_filter_Some. cbn [fst]. split.
  - intros (nbrs & (nb & <- & Hnb & Ha) & [d Hd]).
    apply map_lookup_filter_Some in Hd as [Hd Hb]. cbn [fst] in Hb.
    split; [|done]. exists nb. split; [done|]. eauto.
  - intros ((nb & Hnb & [d Hd]) & Ha & Hb). eexists. split; [eauto|].
    exists d. by apply map_lookup_filter_Some.
Qed.

Lemma u_subgraph_edges_bound U (c : list string) :
  u_wf U → (∀ a, ¬ adjacent (u_adj U) a a) →
  2 * u_number_of_edges (u_subgraph U c) ≤ length c * (length c - 1).
Proof.
  intros HU Hno. unfold u_number_of_edges.
  set (sub := u_subgraph U c).
  set (k := size (u_node sub)).
  assert (k ≤ length c) as Hk.
  { unfold k. rewrite <- size_dom.
    etrans; [|apply (size_list_to_set_le c)]. apply subseteq_size.
    intros n [Hn _]%u_subgraph_node. by apply elem_of_list_to_set. }
  assert (sum_list (u_degree sub <$> keys (u_node sub)) ≤ k * (k - 1)) as Hs.
  { unfold k at 1. rewrite <- length_keys.
    apply sum_list_fmap_bound. intros n Hn.
    apply elem_of_keys, elem_of_dom in Hn. unfold u_degree.
    rewrite decide_False.
    2: { intros Hl. apply (Hno n).
         assert (adjacent (u_adj sub) n n) as Hnn%u_subgraph_adjacent;
           [|by destruct Hnn].
         apply elem_of_dom_adj. by apply elem_of_dom. }
    rewrite Nat.add_0_r, <- size_dom.
    assert (dom (default ∅ (u_adj sub !! n)) ⊆ dom (u_node sub) ∖ {[n]})
      as Hsub%subseteq_size.
    { intros x Hx%elem_of_dom_adj.
      pose proof Hx as (Hux & _ & Hxc)%u_subgraph_adjacent.
      apply elem_of_difference. split.
      - apply u_subgraph_node. split; [done|].
        by destruct (adjacent_nodes U n x HU Hux).
      - intros ->%elem_of_singleton. by apply (Hno n). }
    rewrite size_difference, size_singleton in Hsub
      by (by apply singleton_subseteq_l).
    unfold k. by rewrite <- size_dom. }
  pose proof (Nat.Div0.mul_div_le
                (sum_list (u_degree sub <$> keys (u_node sub))) 2).
  nia.
Qed.

Lemma community_row_inv U (metrics : list CommunityMetrics) i
    (c : list string) metrics' :
  community_row nx_average_clustering U metrics (i, c) = Ok metrics' →
  match c with
  | [] => metrics' = metrics
  | _ :: _ =>
      ∃ r, metrics' = metrics ++ [r]
        ∧ Community_ID r = i + 1 ∧ Size r = length c
        ∧ Internal_Edges r = u_number_of_edges (u_subgraph U c)
        ∧ Internal_Density r
          = (if Qltb 0 (inject_Z (Z.of_nat (length c * (length c - 1))) / 2)
             then inject_Z (Z.of_nat (Internal_Edges r))
                  / (inject_Z (Z.of_nat (length c * (length c - 1))) / 2)
             else 0)%Q
        ∧ Cohesion r
          = (if decide (0 < Internal_Edges r + External_Connections r)
             then (inject_Z (Z.of_nat (Internal_Edges r))
                   / inject_Z (Z.of_nat (Internal_Edges r
                                         + External_Connections r)))%Q
             else 0%Q)
        ∧ (length c ≤ 1 → Avg_Clustering r = 0%Q)
  end.
Proof.
  unfold community_row. destruct c as [|x c']; [by intros [= <-]|].
  set (community := x :: c').
  destruct (for_each _ community 0) as [ext|e]; cbn [mbind result_bind];
    [|done].
  destruct (decide (1 < length community)) as [Hl|Hl].
  - destruct (nx_average_clustering _) as [q|e]; cbn [mbind result_bind];
      [|done].
    intros [= <-]. eexists. split; [done|]. cbn.
    repeat split; try done. intros Hle. subst community.
    cbn [length] in *. lia.
  - cbn [mbind result_bind].
    intros [= <-]. eexists. split; [done|]. cbn.
    repeat split; done.
Qed.

(** X16: the rows of [get_community_metrics] are those of the non-empty
    communities, in order; a row carries the position of its community in
    the list given, counted from 1 (an empty community uses up a number),
    and the number of its members. *)
Theorem community_metrics_rows network communities rows :
  get_community_metrics nx_average_clustering network communities = Ok rows →
  (λ r, (Community_ID r, Size r)) <$> rows
  = (λ ic : nat * list string, (ic.1 + 1, length ic.2))
      <$> filter (λ ic, ic.2 ≠ []) (imap pair communities).
Proof.
  unfold get_community_metrics. intros Hrun.
  apply (for_each_ok_inv _
           (λ pre metrics,
              (λ r, (Community_ID r, Size r)) <$> metrics
              = (λ ic : nat * list string, (ic.1 + 1, length ic.2))
                  <$> filter (λ ic, ic.2 ≠ []) pre) _ _ _ Hrun); [done|].
  intros pre [i c] metrics metrics' IH _ Hrow%community_row_inv.
  rewrite filter_app, fmap_app. destruct c as [|x c'].
  - subst metrics'. rewrite filter_cons_False by (by intros ?).
    rewrite filter_nil, fmap_nil, app_nil_r. done.
  - destruct Hrow as (r & -> & Hid & Hsize & _).
    rewrite filter_cons_True by done. rewrite filter_nil, fmap_app, IH.
    cbn [fmap list_fmap fst snd]. by rewrite Hid, Hsize.
Qed.

(** X17: in every row the community has at least one member and the
    cohesion lies between 0 and 1; the internal density is not negative,
    and at most 1 when no user has a relationship to itself; a community
    of one member has internal density 0 and average clustering 0. *)
Theorem community_metrics_ranges network communities rows :
  wf (graph network) →
  get_community_metrics nx_average_clustering network communities = Ok rows →
  Forall (λ r,
            1 ≤ Size r
            ∧ (0 <= Cohesion r)%Q ∧ (Cohesion r <= 1)%Q
            ∧ (0 <= Internal_Density r)%Q
            ∧ ((∀ user, ¬ edge (graph network) user user) →
               (Internal_Density r <= 1)%Q)
            ∧ (Size r = 1 →
               Internal_Density r = 0%Q ∧ Avg_Clustering r = 0%Q))
    rows.
Proof.
  intros HG. unfold get_community_metrics. intros Hrun.
  destruct (to_undirected_spec _ HG) as (HU & _ & Hadj).
  apply (for_each_ok_inv _ (λ _ metrics, Forall _ metrics) _ _ _ Hrun);
    [done|].
  intros _ [i c] metrics metrics' IH _ Hrow%community_row_inv.
  destruct c as [|x c']; [by subst|].
  destruct Hrow as (r & -> & _ & Hsize & Hint & Hden & Hcoh & Hclu).
  apply Forall_app. split; [done|]. apply Forall_singleton.
  set (n := length (x :: c')) in *.
  assert (1 ≤ n) as Hn by (subst n; simpl; lia).
  split; [lia|]. split; [|split; [|split; [|split]]].
  - rewrite Hcoh. destruct (decide _) as [Hpos|]; [|done].
    apply Qle_shift_div_l; [rewrite <- (Zlt_Qlt 0); lia|].
    rewrite Qmult_0_l. rewrite <- (Zle_Qle 0). lia.
  - rewrite Hcoh. destruct (decide _) as [Hpos|]; [|done].
    apply Qle_shift_div_r; [rewrite <- (Zlt_Qlt 0); lia|].
    rewrite Qmult_1_l. rewrite <- Zle_Qle. lia.
  - rewrite Hden. destruct (Qltb _ _) eqn:Hlt; [|done].
    apply Qltb_true in Hlt. apply Qle_shift_div_l; [done|].
    rewrite Qmult_0_l. rewrite <- (Zle_Qle 0). lia.
  - intros Hno. rewrite Hden. destruct (Qltb _ _) eqn:Hlt; [|done].
    apply Qltb_true in Hlt. apply Qle_shift_div_r; [done|].
    rewrite Qmult_1_l. apply Qle_shift_div_l; [done|].
    change 2%Q with (inject_Z 2). rewrite <- inject_Z_mult.
    rewrite <- Zle_Qle. rewrite Hint.
    pose proof (u_subgraph_edges_bound (to_undirected (graph network))
                  (x :: c') HU) as Hb.
    fold n in Hb.
    assert (∀ a, ¬ adjacent (u_adj (to_undirected (graph network))) a a)
      as Hloops by (intros a [?|?]%Hadj; by apply (Hno a)).
    specialize (Hb Hloops). lia.
  - intros H1. rewrite Hsize in H1. split; [|apply Hclu; lia].
    rewrite Hden, H1. done.
Qed.

Lemma count_external_unknown U (c : list string) (x : string) :
  x ∉ dom (u_adj U) → ∀ s, ∃ e, count_external U c s x = Raise e.
Proof.
  intros Hx%not_elem_of_dom s. unfold count_external, u_neighbors.
  rewrite Hx. simpl. eauto.
Qed.

Lemma community_metrics_ok network communities :
  wf (graph network) →
  clustering_defined nx_average_clustering →
  (∀ c x, c ∈ communities → x ∈ c → contains (graph network) x = true) →
  ∃ rows, metrics_of network communities = Ok rows.
Proof.
  intros HG Hclu Hall. unfold get_community_metrics.
  destruct (to_undirected_spec _ HG) as (HU & Hnodes & _).
  set (U := to_undirected (graph network)) in *.
  assert (dom (u_adj U) = dom (g_node (graph network))) as Hdom
    by (by rewrite (u_wf_dom _ HU)).
  destruct (for_each_prefix_inv (community_row nx_average_clustering U)
              (λ _ _, True) (imap pair communities) []) as (rows & Hr & _);
    [done| |by exists rows].
  intros _ [i c] metrics _ Hic. apply list_elem_of_lookup in Hic as [j Hj].
  rewrite list_lookup_imap in Hj.
  destruct (communities !! j) as [c0|] eqn:Hc0; [|done].
  simpl in Hj. injection Hj as <- <-.
  assert (∀ x, x ∈ c0 → x ∈ dom (u_adj U)) as Hc.
  { intros x Hx. rewrite Hdom. apply contains_true.
    eapply Hall; [|done]. by eapply list_elem_of_lookup_2. }
  unfold community_row. destruct c0 as [|y c']; [eauto|].
  destruct (for_each_prefix_inv (count_external U (y :: c'))
              (λ _ _, True) (y :: c') 0) as (ext & -> & _); [done| |].
  { intros _ x s _ Hx%Hc. apply elem_of_dom in Hx as [nb Hnb].
    unfold count_external, u_neighbors. rewrite Hnb. simpl. eauto. }
  cbn [mbind result_bind].
  destruct (decide (1 < length (y :: c'))); [|simpl; eauto].
  destruct (Hclu (u_subgraph U (y :: c'))) as [q ->]; [|simpl; eauto].
  unfold u_len. rewrite <- size_dom.
  assert (y ∈ dom (u_node (u_subgraph U (y :: c')))) as Hy.
  { apply u_subgraph_node. split; [by left|].
    rewrite <- (u_wf_dom _ HU). apply Hc. by left. }
  destruct (decide (size (dom (u_node (u_subgraph U (y :: c')))) = 0))
    as [Hz%size_empty_inv|]; [|lia].
  by apply Hz in Hy.
Qed.

Lemma imap_pair_values {A} (f : nat → nat) (l : list A) :
  (imap (λ i c, (f i, c)) l).*2 = l.
Proof.
  revert f. induction l as [|x l IH]; intros f; [done|].
  rewrite imap_cons, fmap_cons. cbn [snd]. f_equal.
  apply (IH (f ∘ S)).
Qed.

Lemma community_metrics_sizes network communities rows :
  metrics_of network communities = Ok rows →
  sum_list (Size <$> rows) = length (concat communities).
Proof.
  unfold get_community_metrics. intros Hrun.
  rewrite <- (imap_pair_values id communities).
  apply (for_each_ok_inv _
           (λ pre metrics,
              sum_list (Size <$> metrics) = length (concat pre.*2))
           _ _ _ Hrun); [done|].
  intros pre [i c] metrics metrics' IH _ Hrow%community_row_inv.
  rewrite fmap_app, concat_app, length_app. cbn [fmap list_fmap snd concat].
  rewrite app_nil_r. destruct c as [|x c'].
  - subst metrics'. rewrite IH. simpl. lia.
  - destruct Hrow as (r & -> & _ & Hsize & _).
    rewrite fmap_app, sum_list_with_app, IH. cbn [fmap list_fmap].
    cbn [sum_list_with]. unfold id. rewrite Hsize. lia.
Qed.

(** X18: [get_community_metrics] returns exactly when every member of
    every community is a user of the network; a member that is not makes
    it raise. *)
Theorem community_metrics_returns network communities :
  wf (graph network) →
  clustering_defined nx_average_clustering →
  (∃ rows, get_community_metrics nx_average_clustering network communities
           = Ok rows)
  ↔ ∀ c x, c ∈ communities → x ∈ c → contains (graph network) x = true.
Proof.
  intros HG Hclu. split; [|by apply community_metrics_ok].
  unfold get_community_metrics.
  destruct (to_undirected_spec _ HG) as (HU & Hnodes & _).
  set (U := to_undirected (graph network)) in *.
  assert (dom (u_adj U) = dom (g_node (graph network))) as Hdom
    by (by rewrite (u_wf_dom _ HU)).
  intros [rows Hrows] c x Hc Hx.
  destruct (contains (graph network) x) eqn:Hin; [done|]. exfalso.
  apply contains_false in Hin. rewrite <- Hdom in Hin.
  apply list_elem_of_lookup in Hc as [i Hi].
  destruct (for_each_raises (community_row nx_average_clustering U)
              (imap pair communities) [] (i, c)) as [e He].
  - apply list_elem_of_lookup. exists i. rewrite list_lookup_imap, Hi.
    done.
  - intros metrics. unfold community_row.
    destruct c as [|y c']; [by apply elem_of_nil in Hx|].
    destruct (for_each_raises (count_external U (y :: c')) (y :: c') 0 x
                Hx (count_external_unknown U _ x Hin)) as [e ->].
    simpl. eauto.
  - congruence.
Qed.
End community_metrics_facts.

Section community_metrics_examples.
Import nx SocialNetwork NetworkAnalytics Examples.

(** The metrics of the chain, and a community naming a stranger. *)
Example community_metrics_chain :
  get_community_metrics clustering_zero chain_ABC chain_communities
  = Ok chain_metrics
  ∧ get_community_metrics clustering_zero chain_ABC [["A"; "Zed"]]
    = Raise (NetworkXError "The node Zed is not in the graph.").
Proof. by vm_compute. Qed.

Lemma community_metrics_rows_witness :
  (λ r, (Community_ID r, Size r)) <$> chain_metrics
  = (λ ic : nat * list string, (ic.1 + 1, length ic.2))
      <$> filter (λ ic, ic.2 ≠ []) (imap pair chain_communities).
Proof.
  apply (community_metrics_rows clustering_zero chain_ABC). by vm_compute.
Defined.

Lemma community_metrics_ranges_witness :
  Forall (λ r,
            1 ≤ Size r
            ∧ (0 <= Cohesion r)%Q ∧ (Cohesion r <= 1)%Q
            ∧ (0 <= Internal_Density r)%Q
            ∧ ((∀ user, ¬ edge (graph chain_ABC) user user) →
               (Internal_Density r <= 1)%Q)
            ∧ (Size r = 1 →
               Internal_Density r = 0%Q ∧ Avg_Clustering r = 0%Q))
    chain_metrics.
Proof.
  apply (community_metrics_ranges clustering_zero chain_ABC
           chain_communities); [apply wf_chain_ABC|by vm_compute].
Defined.

Lemma community_metrics_returns_witness :
  (∃ rows, get_community_metrics clustering_zero chain_ABC chain_communities
           = Ok rows)
  ↔ ∀ c x, c ∈ chain_communities → x ∈ c →
           contains (graph chain_ABC) x = true.
Proof.
  apply community_metrics_returns; [apply wf_chain_ABC|].
  intros G _. by exists 0%Q.
Defined.
End community_metrics_examples.

(** ** Detection followed by metrics *)

Section community_analysis.
Import nx SocialNetwork NetworkAnalytics Examples.
Variable most_valuable_edge : Graph → result (string * string).
Variable greedy_modularity_communities : Graph → result (list (gset string)).
Variable label_propagation_communities : Graph → result (list (gset string)).
Variable community : option (Graph → result (gmap string Z)).
Variable nx_average_clustering : Graph → result Q.

(** X19: on a network that has a relationship between two different
    users, or none at all, every detection method returns communities
    that name every user once, and [get_community_metrics] of these
    communities returns rows whose sizes add up to the number of users
    (when the library algorithms return partitions of the nodes). *)
Theorem community_analysis_returns self method :
  wf (graph self) →
  picks_an_edge most_valuable_edge →
  returns_partition greedy_modularity_communities →
  returns_partition label_propagation_communities →
  assigns_every_node community →
  clustering_defined nx_average_clustering →
  (method ≠ "greedy_modularity" → method ≠ "label_propagation" →
   method ≠ "louvain" →
   (∀ a b, ¬ edge (graph self) a b)
   ∨ (∃ a b, a ≠ b ∧ edge (graph self) a b)) →
  ∃ cs rows,
    detect_communities most_valuable_edge greedy_modularity_communities
      label_propagation_communities community method self = (Ok cs, self)
    ∧ partition_of cs (dom (g_node (graph self)))
    ∧ get_community_metrics nx_average_clustering self cs = Ok rows
    ∧ sum_list (Size <$> rows) = len (graph self).
Proof.
  intros HG Hmve Hgreedy Hlabel Hcomm Hclu Hedges.
  destruct (detect_communities_partition most_valuable_edge
              greedy_modularity_communities label_propagation_communities
              community self method HG Hmve Hgreedy Hlabel Hcomm Hedges)
    as (cs & Hcs & Hpart).
  destruct (community_metrics_ok nx_average_clustering self cs HG Hclu)
    as [rows Hrows].
  { intros c x Hc Hx. apply contains_true, Hpart, elem_of_concat. eauto. }
  exists cs, rows. split; [done|]. split; [done|]. split; [done|].
  rewrite (community_metrics_sizes _ _ _ _ Hrows).
  rewrite (partition_length _ _ Hpart). apply size_dom.
Qed.
End community_analysis.

Section community_analysis_examples.
Import nx SocialNetwork NetworkAnalytics Examples.

Lemma community_analysis_returns_witness :
  ∃ cs rows,
    detect_communities first_edge components_as_communities
      components_as_communities None "girvan_newman" chain_ABC
    = (Ok cs, chain_ABC)
    ∧ partition_of cs (dom (g_node (graph chain_ABC)))
    ∧ get_community_metrics clustering_zero chain_ABC cs = Ok rows
    ∧ sum_list (Size <$> rows) = len (graph chain_ABC).
Proof.
  apply community_analysis_returns.
  - apply wf_chain_ABC.
  - apply first_edge_picks.
  - apply components_as_communities_partition.
  - apply components_as_communities_partition.
  - by intros ? [=].
  - intros G _. by exists 0%Q.
  - intros _ _ _. right. exists "A", "B". split; [done|].
    apply has_edge_true. by vm_compute.
Defined.

Lemma wf_selfloop_A : wf (graph selfloop_A).
Proof.
  unfold selfloop_A. apply wf_add_friendship, wf_add_user, wf_init.
Qed.

Lemma detect_communities_only_selfloops_witness :
  detect_communities first_edge components_as_communities
    components_as_communities None "girvan_newman" selfloop_A
  = (Raise StopIteration, selfloop_A).
Proof.
  apply detect_communities_only_selfloops; [| | |done|done|done].
  - apply wf_selfloop_A.
  - exists "A". apply has_edge_true. by vm_compute.
  - intros a b (nbrs & Ha & Hb).
    assert (g_succ (graph selfloop_A)
            = {[ "A" := {[ "A" := default_friendship ]} ]}) as Hs
      by (by vm_compute).
    rewrite Hs in Ha. apply lookup_singleton_Some in Ha as [<- <-].
    destruct Hb as [d Hb]. by apply lookup_singleton_Some in Hb as [<- _].
Defined.
End community_analysis_examples.
